(** * web-dj: the scraping and ingestion server

    A shallow embedding of the server's resource and persistence logic
    (browser pool, image fetch with retry, comic store helpers, the
    [/get-comic], [/get], [/proxy], [/doujin], [/auto-json], [/auto-fetch]
    and [/auto-thumbnail] handlers, the rate limiter) together with the
    properties the specification states about them and further
    properties that the code itself shows.

    Conventions.  Asynchronous code runs on one cooperative event loop, so
    a handler is modelled as a function that threads its state explicitly;
    every outcome the program obtains from the outside world (the network,
    the database driver, the CDN, the scraped site, the clock) is read
    from an oracle that the theorems quantify over. *)

From Stdlib Require Import ZArith Lia Ascii.
From stdpp Require Import gmap strings list.
From Equations Require Import Equations.

Local Open Scope Z_scope.

#[local] Set Warnings "-clear-no-such-hyp".

(** * Part I: the embedding *)

(** ** Image fetch with retry: [fetchImageBuffer] *)

Module Fetch.

(** What one call of [fetch(url, {headers, signal})] followed by
    [response.arrayBuffer()] can produce. *)
Inductive FetchOutcome :=
| Rejects (msg : string)
  (* [fetch] rejects: connection error, or the 20 s timer aborted it *)
| Response (status : Z) (body : string + string).
  (* a response arrived; [inl bytes] is its body, [inr msg] the
     rejection of [arrayBuffer()] *)

Inductive Error :=
| FetchRejected (msg : string)
| FailedToFetchImage (status : Z)
| BodyRejected (msg : string).

(** [response.ok]: the status is in the 2xx range. *)
Definition response_ok (status : Z) : bool :=
  (200 <=? status) && (status <=? 299).

Inductive Event :=
| EvFetch (url referer : string)
| EvSleep (ms : Z).

(** The part of the runtime the function touches: pending timers
    ([setTimeout] handles), the number of requests issued so far (the
    index into the network oracle) and the observable trace. *)
Record Rt := {
  timers : gset nat;
  next_timer : nat;
  issued : nat;
  trace : list Event
}.

Inductive Result :=
| Fulfilled (buffer : string)
| Thrown (e : Error).

Definition urlBase : string := "https://doujindesu.tv/".

(** [createTimeout(ms)]: a fresh controller and a pending timer. *)
Definition createTimeout (ms : Z) (rt : Rt) : nat * Rt :=
  (next_timer rt,
   {| timers := {[ next_timer rt ]} ∪ timers rt;
      next_timer := S (next_timer rt);
      issued := issued rt;
      trace := trace rt |}).

Definition clearTimeout (t : nat) (rt : Rt) : Rt :=
  {| timers := timers rt ∖ {[ t ]};
     next_timer := next_timer rt;
     issued := issued rt;
     trace := trace rt |}.

Definition sleep (ms : Z) (rt : Rt) : Rt :=
  {| timers := timers rt;
     next_timer := next_timer rt;
     issued := issued rt;
     trace := trace rt ++ [EvSleep ms] |}.

Definition do_fetch (net : nat -> FetchOutcome) (url referer : string) (rt : Rt)
  : FetchOutcome * Rt :=
  (net (issued rt),
   {| timers := timers rt;
      next_timer := next_timer rt;
      issued := S (issued rt);
      trace := trace rt ++ [EvFetch url referer] |}).

(** The body of the [try] block, from the awaited [fetch] to the
    [return]: it either yields the buffer or throws. *)
Definition try_body (o : FetchOutcome) : Result :=
  match o with
  | Rejects msg => Thrown (FetchRejected msg)
  | Response status body =>
      if response_ok status then
        match body with
        | inl b => Fulfilled b
        | inr msg => Thrown (BodyRejected msg)
        end
      else Thrown (FailedToFetchImage status)
  end.

(** [fetchImageBuffer(url, referer, retryCount)].  The [finally] block
    clears the handle once more after the [catch] block did; clearing is
    idempotent. *)
Equations? fetchImageBuffer (net : nat -> FetchOutcome) (url referer : string)
    (retryCount : nat) (rt : Rt) : Result * Rt by wf (3 - retryCount)%nat lt :=
  fetchImageBuffer net url referer retryCount rt :=
    let '(timeout, rt1) := createTimeout 20000 rt in
    let '(o, rt2) := do_fetch net url referer rt1 in
    match try_body o with
    | Fulfilled b => (Fulfilled b, clearTimeout timeout rt2)
    | Thrown e =>
        let rt3 := clearTimeout timeout rt2 in
        match decide (retryCount < 3)%nat with
        | left _ =>
            let rt4 := sleep (1000 * 2 ^ Z.of_nat retryCount) rt3 in
            let '(r, rt5) := fetchImageBuffer net url referer (S retryCount) rt4 in
            (r, clearTimeout timeout rt5)
        | right _ => (Thrown e, clearTimeout timeout rt3)
        end
    end.
Proof. lia. Qed.

(** An attempt fails when [fetch] rejects, the status is not 2xx, or the
    body cannot be read. *)
Definition attempt_fails (o : FetchOutcome) : Prop :=
  ∃ e, try_body o = Thrown e.

(** Handles are allocated in increasing order: no pending timer carries
    an identifier that is still to be allocated. *)
Definition timers_fresh (rt : Rt) : Prop :=
  ∀ t, t ∈ timers rt → (t < next_timer rt)%nat.

Definition rt0 : Rt :=
  {| timers := ∅; next_timer := 0; issued := 0; trace := [] |}.


End Fetch.

(** ** The browser pool: [initBrowserPool], [getBrowser], [releaseBrowser]
       and the hourly recycle *)

Module Pool.
Local Open Scope nat_scope.

(** Sessions are named by the order in which [puppeteer.launch] created
    them.  Besides the program's two variables the state records what is
    in progress on the event loop (calls of [initBrowserPool] suspended
    at a launch, calls of [getBrowser] polling for a session) and, as
    ghost state, which sessions handlers hold and which were closed. *)
Record State := {
  browserPool : list nat;
  isPoolInitialized : bool;
  init_tasks : list (nat * bool);
  (* per suspended [initBrowserPool]: its loop counter [i], and whether a
     [getBrowser] awaits it *)
  polling : nat;
  checked_out : list nat;
  closed_sessions : list nat;
  launched : nat
}.

Definition startup : State :=
  {| browserPool := []; isPoolInitialized := false; init_tasks := [];
     polling := 0; checked_out := []; closed_sessions := []; launched := 0 |}.

(** One turn of the event loop. *)
Inductive Action :=
| InitCall
  (* [initBrowserPool()] is called (the start-up code does) *)
| Launched (k : nat) (ok : bool)
  (* the [puppeteer.launch] awaited by the [k]-th suspended
     [initBrowserPool] settles, successfully or not *)
| GetBrowser
  (* a handler calls [getBrowser()] *)
| Pop
  (* a polling [getBrowser] sees a non-empty pool and returns
     [browserPool.pop()] *)
| ReleaseBrowser (b : nat)
  (* the handler holding [b] calls [releaseBrowser(b)] *)
| RecycleBegin
  (* the interval fires: [close()] is called on every idle session *)
| RecycleFinish.
  (* the [finally] callback: the pool is reset and reinitialised *)

Section WithPoolSize.

Variable POOL_SIZE : nat.

(** Entering [initBrowserPool]: return at once when initialised; else run
    to the first [await], or to the end when the loop has no iteration. *)
Definition initBrowserPool (awaited : bool) (s : State) : State :=
  if isPoolInitialized s then s
  else if decide (0 < POOL_SIZE) then
    {| browserPool := browserPool s; isPoolInitialized := false;
       init_tasks := init_tasks s ++ [(0, awaited)];
       polling := polling s; checked_out := checked_out s;
       closed_sessions := closed_sessions s; launched := launched s |}
  else
    {| browserPool := browserPool s; isPoolInitialized := true;
       init_tasks := init_tasks s;
       polling := (if awaited then S (polling s) else polling s);
       checked_out := checked_out s;
       closed_sessions := closed_sessions s; launched := launched s |}.

(** The awaited launch of task [k] settles: push the browser (or log the
    failure), increment [i], and either suspend at the next launch or
    leave the loop and set [isPoolInitialized]. *)
Definition launch_settles (k : nat) (ok : bool) (s : State) : option State :=
  match (init_tasks s !! k : option (nat * bool)) with
  | None => None
  | Some (i, awaited) =>
      let pool' := if ok then browserPool s ++ [launched s] else browserPool s in
      let launched' := if ok then S (launched s) else launched s in
      if decide (S i < POOL_SIZE) then
        Some {| browserPool := pool'; isPoolInitialized := isPoolInitialized s;
                init_tasks := <[k := (S i, awaited)]> (init_tasks s);
                polling := polling s; checked_out := checked_out s;
                closed_sessions := closed_sessions s; launched := launched' |}
      else
        Some {| browserPool := pool'; isPoolInitialized := true;
                init_tasks := delete k (init_tasks s);
                polling := (if awaited then S (polling s) else polling s);
                checked_out := checked_out s;
                closed_sessions := closed_sessions s; launched := launched' |}
  end.

(** [getBrowser] up to its polling loop. *)
Definition getBrowser_call (s : State) : State :=
  if isPoolInitialized s then
    {| browserPool := browserPool s; isPoolInitialized := true;
       init_tasks := init_tasks s; polling := S (polling s);
       checked_out := checked_out s;
       closed_sessions := closed_sessions s; launched := launched s |}
  else initBrowserPool true s.

(** [return browserPool.pop()], once [browserPool.length] is not 0. *)
Definition getBrowser_pop (s : State) : option State :=
  match polling s, rev (browserPool s) with
  | S p, b :: rest =>
      Some {| browserPool := rev rest;
              isPoolInitialized := isPoolInitialized s;
              init_tasks := init_tasks s; polling := p;
              checked_out := b :: checked_out s;
              closed_sessions := closed_sessions s; launched := launched s |}
  | _, _ => None
  end.

Definition remove_one (b : nat) (l : list nat) : list nat :=
  match list_find (λ x, x = b) l with
  | Some (i, _) => delete i l
  | None => l
  end.

(** [releaseBrowser(browser)]. *)
Definition releaseBrowser (b : nat) (s : State) : State :=
  if decide (length (browserPool s) < POOL_SIZE) then
    {| browserPool := browserPool s ++ [b];
       isPoolInitialized := isPoolInitialized s;
       init_tasks := init_tasks s; polling := polling s;
       checked_out := remove_one b (checked_out s);
       closed_sessions := closed_sessions s; launched := launched s |}
  else
    {| browserPool := browserPool s;
       isPoolInitialized := isPoolInitialized s;
       init_tasks := init_tasks s; polling := polling s;
       checked_out := remove_one b (checked_out s);
       closed_sessions := b :: closed_sessions s; launched := launched s |}.

(** The interval callback: [browserPool.map(browser => browser.close())]. *)
Definition recycle_begin (s : State) : State :=
  {| browserPool := browserPool s;
     isPoolInitialized := isPoolInitialized s;
     init_tasks := init_tasks s; polling := polling s;
     checked_out := checked_out s;
     closed_sessions := browserPool s ++ closed_sessions s;
     launched := launched s |}.

(** Its [finally]: [browserPool = []; isPoolInitialized = false;
    initBrowserPool()]. *)
Definition recycle_finish (s : State) : State :=
  initBrowserPool false
    {| browserPool := []; isPoolInitialized := false;
       init_tasks := init_tasks s; polling := polling s;
       checked_out := checked_out s;
       closed_sessions := closed_sessions s; launched := launched s |}.

(** Handlers release only a session they hold. *)
Definition step (a : Action) (s : State) : option State :=
  match a with
  | InitCall => Some (initBrowserPool false s)
  | Launched k ok => launch_settles k ok s
  | GetBrowser => Some (getBrowser_call s)
  | Pop => getBrowser_pop s
  | ReleaseBrowser b =>
      if decide (b ∈ checked_out s) then Some (releaseBrowser b s) else None
  | RecycleBegin => Some (recycle_begin s)
  | RecycleFinish => Some (recycle_finish s)
  end.

Fixpoint run (acts : list Action) (s : State) : option State :=
  match acts with
  | [] => Some s
  | a :: acts' =>
      match step a s with
      | Some s' => run acts' s'
      | None => None
      end
  end.



End WithPoolSize.

(** *** Predicates and sample inputs used in the statements about [Pool] *)

(** Once initialised and as long as the pool is not recycled, the idle
    and the checked-out sessions together number at most [P]. *)
Definition settled (P : nat) (s : State) : Prop :=
  isPoolInitialized s = true ∧ init_tasks s = []
  ∧ length (browserPool s) + length (checked_out s) ≤ P.

(** A run that breaks the bound with the program's pool of three: the
    three sessions are checked out when the pool is recycled, the
    recycle launches three more, and one of those is checked out too. *)
Definition across_recycle : list Action :=
  [InitCall; Launched 0 true; Launched 0 true; Launched 0 true;
   GetBrowser; Pop; GetBrowser; Pop; GetBrowser; Pop;
   RecycleBegin; RecycleFinish;
   Launched 0 true; Launched 0 true; Launched 0 true;
   GetBrowser; Pop].

(** The same start, with a session released while the recycle is still
    launching. *)
Definition release_during_recycle : list Action :=
  [InitCall; Launched 0 true; Launched 0 true; Launched 0 true;
   GetBrowser; Pop; GetBrowser; Pop; GetBrowser; Pop;
   RecycleBegin; RecycleFinish;
   ReleaseBrowser 0;
   Launched 0 true; Launched 0 true; Launched 0 true].

End Pool.

(** ** Numbers *)

Module Number.

(** The program's page numbers are JavaScript numbers, that is, IEEE
    754 doubles.  A finite double with an integer value is represented
    by that integer.  [round z] is the double nearest to the integer
    [z], the tie going to the even significand: an integer below [2^53]
    in magnitude is a double itself, a larger one keeps its 53 leading
    bits. *)
Definition round (z : Z) : Z :=
  let a := Z.abs z in
  if a <? 2 ^ 53 then z
  else
    let e := Z.log2 a - 52 in
    let q := Z.shiftr a e in
    let r := a - Z.shiftl q e in
    let half := Z.shiftl 1 (e - 1) in
    let q' := if (half <? r) || ((r =? half) && Z.odd q) then q + 1 else q in
    Z.sgn z * Z.shiftl q' e.

(** [x + y] and [x - y] on doubles: the exact result, rounded. *)
Definition add (x y : Z) : Z := round (x + y).

Definition sub (x y : Z) : Z := round (x - y).

(** *** Predicates used in the statements about numbers *)

(** Of magnitude below [2^52]: sums and differences of two such numbers
    are exact. *)
Definition small (z : Z) : Prop := - 2 ^ 52 < z < 2 ^ 52.

End Number.

(** ** The single-flight locks of the batch orchestrators *)

Module Lock.

(** [currentAutoFetchOperation] is set by two handlers, with different
    fields: [{file, startedAt}] by [/auto-json], [{query, page,
    startedAt}] by [/auto-fetch]. *)
Inductive AutoFetchOperation :=
| JsonOperation (file : string) (startedAt : Z)
| FetchOperation (query : string) (page : Z) (startedAt : Z).

Record ThumbnailOperation := {
  th_query : string;
  startPage : Z;
  endPage : Z;
  th_startedAt : Z
}.

(** [op.file], [op.query] and [op.startedAt]; a missing field reads as
    [undefined]. *)
Definition op_file (o : AutoFetchOperation) : option string :=
  match o with
  | JsonOperation f _ => Some f
  | FetchOperation _ _ _ => None
  end.

Definition op_query (o : AutoFetchOperation) : option string :=
  match o with
  | JsonOperation _ _ => None
  | FetchOperation q _ _ => Some q
  end.

Definition op_startedAt (o : AutoFetchOperation) : Z :=
  match o with
  | JsonOperation _ t => t
  | FetchOperation _ _ t => t
  end.

(** A running orchestration, as ghost state. *)
Inductive Job :=
| FetchLockJob (o : AutoFetchOperation)
| ThumbnailJob (o : ThumbnailOperation).

Record State := {
  autoFetchInProgress : bool;
  currentAutoFetchOperation : option AutoFetchOperation;
  autoThumbnailInProgress : bool;
  currentThumbnailOperation : option ThumbnailOperation;
  running : list Job
}.

Definition idle : State :=
  {| autoFetchInProgress := false; currentAutoFetchOperation := None;
     autoThumbnailInProgress := false; currentThumbnailOperation := None;
     running := [] |}.

(** How a batch-start request is answered before any work is done. *)
Inductive Reply :=
| BadRequest400
| Busy429 (identity : option string) (startedAt : option Z) (elapsedSeconds : Z)
| Started.

(** [x || d] for a query-string parameter: absent and empty are falsy. *)
Definition param_or (x : option string) (d : string) : string :=
  match x with
  | Some s => if decide (s = "") then d else s
  | None => d
  end.

Definition falsy (x : option string) : bool :=
  match x with
  | Some s => bool_decide (s = "")
  | None => true
  end.

(** [Math.floor((Date.now() - op.startedAt) / 1000)], or [0] without an
    operation. *)
Definition elapsedSeconds (now : Z) (startedAt : option Z) : Z :=
  match startedAt with
  | Some t => (now - t) / 1000
  | None => 0
  end.

(** [/auto-json]: the code from the top of the handler to the first
    [await]. *)
Definition auto_json_start (file : option string) (now : Z) (s : State)
  : Reply * State :=
  let jsonFilePath := param_or file "slug.json" in
  if autoFetchInProgress s then
    (Busy429 (currentAutoFetchOperation s ≫= op_file)
             (op_startedAt <$> currentAutoFetchOperation s)
             (elapsedSeconds now (op_startedAt <$> currentAutoFetchOperation s)),
     s)
  else
    (Started,
     {| autoFetchInProgress := true;
        currentAutoFetchOperation := Some (JsonOperation jsonFilePath now);
        autoThumbnailInProgress := autoThumbnailInProgress s;
        currentThumbnailOperation := currentThumbnailOperation s;
        running := FetchLockJob (JsonOperation jsonFilePath now) :: running s |}).

(** [/auto-fetch]. *)
Definition auto_fetch_start (q : option string) (page : Z) (now : Z) (s : State)
  : Reply * State :=
  if falsy q then (BadRequest400, s)
  else if autoFetchInProgress s then
    (Busy429 (currentAutoFetchOperation s ≫= op_query)
             (op_startedAt <$> currentAutoFetchOperation s)
             (elapsedSeconds now (op_startedAt <$> currentAutoFetchOperation s)),
     s)
  else
    (Started,
     {| autoFetchInProgress := true;
        currentAutoFetchOperation := Some (FetchOperation (param_or q "") page now);
        autoThumbnailInProgress := autoThumbnailInProgress s;
        currentThumbnailOperation := currentThumbnailOperation s;
        running := FetchLockJob (FetchOperation (param_or q "") page now)
                   :: running s |}).

(** [/auto-thumbnail]; [page] and [maxPages] are the parsed parameters,
    defaulted to 1 and taken to be finite; the page range is computed
    on doubles. *)
Definition auto_thumbnail_start (q : option string) (page maxPages : Z) (now : Z)
    (s : State) : Reply * State :=
  if falsy q then (BadRequest400, s)
  else if autoThumbnailInProgress s then
    (Busy429 (th_query <$> currentThumbnailOperation s)
             (th_startedAt <$> currentThumbnailOperation s)
             (elapsedSeconds now (th_startedAt <$> currentThumbnailOperation s)),
     s)
  else
    let op := {| th_query := param_or q "";
                 startPage := page;
                 endPage :=
                   Z.max page
                     (Z.min (Number.sub (Number.add page maxPages) 1)
                        (Number.add page 9));
                 th_startedAt := now |} in
    (Started,
     {| autoFetchInProgress := autoFetchInProgress s;
        currentAutoFetchOperation := currentAutoFetchOperation s;
        autoThumbnailInProgress := true;
        currentThumbnailOperation := Some op;
        running := ThumbnailJob op :: running s |}).

Definition holds_fetch_lock (j : Job) : bool :=
  match j with FetchLockJob _ => true | ThumbnailJob _ => false end.

Definition holds_thumbnail_lock (j : Job) : bool :=
  match j with FetchLockJob _ => false | ThumbnailJob _ => true end.

(** The [releaseLock] closures of [/auto-json] and [/auto-fetch], called
    by the job on each of its exit paths. *)
Definition releaseLock_fetch (s : State) : State :=
  {| autoFetchInProgress := false; currentAutoFetchOperation := None;
     autoThumbnailInProgress := autoThumbnailInProgress s;
     currentThumbnailOperation := currentThumbnailOperation s;
     running := List.filter (λ j, negb (holds_fetch_lock j)) (running s) |}.

(** The [releaseLock] closure of [/auto-thumbnail]. *)
Definition releaseLock_thumbnail (s : State) : State :=
  {| autoFetchInProgress := autoFetchInProgress s;
     currentAutoFetchOperation := currentAutoFetchOperation s;
     autoThumbnailInProgress := false; currentThumbnailOperation := None;
     running := List.filter (λ j, negb (holds_thumbnail_lock j)) (running s) |}.

Inductive Action :=
| ReqAutoJson (file : option string) (now : Z)
| ReqAutoFetch (q : option string) (page : Z) (now : Z)
| ReqAutoThumbnail (q : option string) (page maxPages : Z) (now : Z)
| FetchLockJobEnds
| ThumbnailJobEnds.

(** A job ends only if it runs. *)
Definition step (a : Action) (s : State) : option (option Reply * State) :=
  match a with
  | ReqAutoJson file now =>
      let '(r, s') := auto_json_start file now s in Some (Some r, s')
  | ReqAutoFetch q page now =>
      let '(r, s') := auto_fetch_start q page now s in Some (Some r, s')
  | ReqAutoThumbnail q page maxPages now =>
      let '(r, s') := auto_thumbnail_start q page maxPages now s in Some (Some r, s')
  | FetchLockJobEnds =>
      if existsb holds_fetch_lock (running s)
      then Some (None, releaseLock_fetch s) else None
  | ThumbnailJobEnds =>
      if existsb holds_thumbnail_lock (running s)
      then Some (None, releaseLock_thumbnail s) else None
  end.

(** A run: the replies given, in order, and the state reached. *)
Fixpoint run (acts : list Action) (s : State) : option (list (option Reply) * State) :=
  match acts with
  | [] => Some ([], s)
  | a :: acts' =>
      match step a s with
      | Some (r, s') =>
          match run acts' s' with
          | Some (rs, s'') => Some (r :: rs, s'')
          | None => None
          end
      | None => None
      end
  end.

Definition fetch_lock_jobs (s : State) : list Job :=
  List.filter holds_fetch_lock (running s).

Definition thumbnail_jobs (s : State) : list Job :=
  List.filter holds_thumbnail_lock (running s).

(** *** Predicates and sample inputs used in the statements about [Lock] *)

(** Each flag tells whether a job of its class runs, and the operation
    record describes that job. *)
Definition fetch_lock_consistent (s : State) : Prop :=
  if autoFetchInProgress s
  then ∃ o, currentAutoFetchOperation s = Some o
          ∧ fetch_lock_jobs s = [FetchLockJob o]
  else currentAutoFetchOperation s = None ∧ fetch_lock_jobs s = [].

Definition thumbnail_lock_consistent (s : State) : Prop :=
  if autoThumbnailInProgress s
  then ∃ o, currentThumbnailOperation s = Some o
          ∧ thumbnail_jobs s = [ThumbnailJob o]
  else currentThumbnailOperation s = None ∧ thumbnail_jobs s = [].

Definition consistent (s : State) : Prop :=
  fetch_lock_consistent s ∧ thumbnail_lock_consistent s.

End Lock.

(** ** The comic store and the [/get-comic] handler *)

Module Comic.

(** *** Strings: [Array.prototype.join(',')] and [String.prototype.split(',')] *)

Definition join (l : list string) : string := String.concat "," l.

Definition is_comma (c : Ascii.ascii) : bool := Ascii.eqb c ","%char.

Fixpoint split (s : string) : list string :=
  match s with
  | EmptyString => [EmptyString]
  | String c rest =>
      if is_comma c then EmptyString :: split rest
      else match split rest with
           | x :: xs => String c x :: xs
           | [] => [String c EmptyString]
           end
  end.

Fixpoint has_comma (s : string) : bool :=
  match s with
  | EmptyString => false
  | String c rest => is_comma c || has_comma rest
  end.

(** *** JavaScript values that stand where a URL is expected *)

Inductive JsValue :=
| JsNull
| JsUndefined
| JsString (s : string).

Definition not_null (v : JsValue) : bool :=
  match v with JsNull => false | _ => true end.

Definition not_null_or_undefined (v : JsValue) : bool :=
  match v with JsString _ => true | _ => false end.

(** The text [join] uses for an element: [null] and [undefined] print
    as the empty string. *)
Definition js_text (v : JsValue) : string :=
  match v with JsString s => s | _ => EmptyString end.

Definition js_string (v : JsValue) : option string :=
  match v with JsString s => Some s | _ => None end.

(** *** The [comics] table behind the [sql] tag *)

Record ComicRow := {
  row_url : string;
  image_url : string;
  total_images : nat
}.

Inductive Statement :=
| SelectImageUrl (slug : string)
| UpsertComic (slug url image_url : string) (total_images : nat).

(** The table, the statements sent so far, and for the statements still
    to come whether the driver will throw ([true]); past the end of
    [faults] it does not. *)
Record Db := {
  comics : gmap string ComicRow;
  statements : list Statement;
  faults : list bool
}.

Definition send (st : Statement) (d : Db) : bool * Db :=
  (hd false (faults d),
   {| comics := comics d;
      statements := statements d ++ [st];
      faults := tl (faults d) |}).

(** [SELECT image_url FROM comics WHERE slug = ${slug}]: [None] when the
    driver throws, else the rows found. *)
Definition select_image_url (slug : string) (d : Db)
  : option (list ComicRow) * Db :=
  let '(throws, d') := send (SelectImageUrl slug) d in
  if throws then (None, d')
  else (Some (option_list (comics d !! slug)), d').

(** [INSERT ... ON CONFLICT (slug) DO UPDATE SET image_url, total_images]:
    a conflicting row keeps its [url]. *)
Definition upsert_row (old : option ComicRow) (url image_url : string)
    (total : nat) : ComicRow :=
  {| row_url := match old with Some r => row_url r | None => url end;
     image_url := image_url;
     total_images := total |}.

Definition upsert_comic (slug url image_url : string) (total : nat) (d : Db)
  : bool * Db :=
  let '(throws, d') := send (UpsertComic slug url image_url total) d in
  if throws then (false, d')
  else (true,
        {| comics := <[slug := upsert_row (comics d !! slug) url image_url total]>
                       (comics d);
           statements := statements d';
           faults := faults d' |}).

(** [getComicFromDB(slug, retryCount)]; [None] is [null]. *)
Equations? getComicFromDB (slug : string) (retryCount : nat) (d : Db)
    : option (list string) * Db by wf (2 - retryCount)%nat lt :=
  getComicFromDB slug retryCount d :=
    match select_image_url slug d with
    | (Some results, d') =>
        match results with
        | row :: _ =>
            if decide (image_url row = EmptyString) then (None, d')
            else (Some (split (image_url row)), d')
        | [] => (None, d')
        end
    | (None, d') =>
        match decide (retryCount < 2)%nat with
        | left _ => getComicFromDB slug (S retryCount) d'
        | right _ => (None, d')
        end
    end.
Proof. lia. Qed.

(** [saveComicToDB(slug, fullUrl, imageUrls, retryCount)]; the argument
    [None] stands for a missing ([null] or [undefined]) array. *)
Equations? saveComicToDB (slug fullUrl : string)
    (imageUrls : option (list JsValue)) (retryCount : nat) (d : Db)
    : bool * Db by wf (2 - retryCount)%nat lt :=
  saveComicToDB slug fullUrl imageUrls retryCount d :=
    match imageUrls with
    | None => (false, d)
    | Some [] => (false, d)
    | Some urls =>
        let validUrls := List.filter not_null_or_undefined urls in
        match validUrls with
        | [] => (false, d)
        | _ =>
            match upsert_comic slug fullUrl (join (js_text <$> validUrls))
                    (length validUrls) d with
            | (true, d') => (true, d')
            | (false, d') =>
                match decide (retryCount < 2)%nat with
                | left _ => saveComicToDB slug fullUrl imageUrls (S retryCount) d'
                | right _ => (false, d')
                end
            end
        end
    end.
Proof. lia. Qed.

(** *** The memory cache ([node-cache], [stdTTL] 1800 s) and responses *)

Record ComicJson := {
  success : bool;
  images : list JsValue;
  cached : bool;
  source : string;
  warning : option string   (* [None]: [undefined], left out of the JSON *)
}.

Inductive Body :=
| ComicPayload (j : ComicJson)
| ErrorPayload (error : string) (code : option string)
| OtherPayload (json : string).   (* what other handlers cache and send *)

Record Response := {
  status : Z;
  cache_control : option string;
  body : Body
}.

Definition stdTTL : Z := 1800.

(** An entry is its value and the time (ms) at which it expires. *)
Definition cache_set (now : Z) (key : string) (v : Body)
    (c : gmap string (Body * Z)) : gmap string (Body * Z) :=
  <[key := (v, now + stdTTL * 1000)]> c.

Definition cache_get (now : Z) (key : string) (c : gmap string (Body * Z))
  : option Body :=
  match c !! key with
  | Some (v, expires) => if decide (expires < now) then None else Some v
  | None => None
  end.

Record World := {
  db : Db;
  cache : gmap string (Body * Z)
}.

(** *** What a request meets outside the process *)

(** Steps 3 of the handler, from [getBrowser()] to [releaseBrowser]:
    the page title contains "404", or the [img] sources of [#anu] are
    read ([img.dataset.src || img.src], one per image), or some step
    throws. *)
Inductive ScrapeOutcome :=
| Title404
| Extracted (srcs : list string)
| ScrapeThrows (message : string) (code : option string).

(** One pass through the [try] block of the upload loop:
    [fetchImageBuffer], the file name, [uploadToR2]. *)
Inductive AttemptOutcome :=
| Uploaded (cdnUrl : string)
| AttemptThrows (message : string).

Record Env := {
  now_get : Z;   (* [Date.now()] when [cache.get] runs *)
  now_set : Z;   (* [Date.now()] when [cache.set] runs *)
  scrape : ScrapeOutcome;
  attempt : nat → string → nat → AttemptOutcome
  (* by image index, source URL and number of retries so far *)
}.

(** *** The handler *)

Definition urlBase : string := "https://doujindesu.tv/".

(** [.replace(/^\//, '')] and [.replace(/\/$/, '')]. *)
Definition strip_leading_slash (s : string) : string :=
  match s with
  | String c rest => if Ascii.eqb c "/"%char then rest else s
  | EmptyString => s
  end.

Fixpoint strip_trailing_slash (s : string) : string :=
  match s with
  | EmptyString => EmptyString
  | String c EmptyString =>
      if Ascii.eqb c "/"%char then EmptyString else s
  | String c rest => String c (strip_trailing_slash rest)
  end.

(** [slug?.replace(...).replace(...)], with [None] for a result that
    [!cleanSlug] rejects. *)
Definition cleanSlug (url : option string) : option string :=
  match url with
  | None => None
  | Some s =>
      let c := strip_trailing_slash (strip_leading_slash s) in
      if decide (c = EmptyString) then None else Some c
  end.

(** [.filter(src => src && src.startsWith('http'))]. *)
Definition absolute (src : string) : bool :=
  negb (bool_decide (src = EmptyString)) && String.prefix "http" src.

(** The [while (retries <= maxRetries)] loop run for one image;
    [maxRetries] is 2. *)
Equations? upload_image (attempt : nat → AttemptOutcome) (retries : nat)
    : JsValue by wf (3 - retries)%nat lt :=
  upload_image attempt retries :=
    match decide (retries ≤ 2)%nat with
    | left _ =>
        match attempt retries with
        | Uploaded uploadResult => JsString uploadResult
        | AttemptThrows _ =>
            match decide (2 < S retries)%nat with
            | left _ => JsNull
            | right _ => upload_image attempt (S retries)
            end
        end
    | right _ => JsUndefined
    end.
Proof. lia. Qed.

(** The [for (let i = 0; i < imageUrls.length; i += 3)] loop from its
    iteration at [i] on: [Promise.all] returns the results of a batch in
    the order of the batch. *)
Equations? upload_batches (upload : nat → string → JsValue)
    (imageUrls : list string) (i : nat) (uploadedUrls : list JsValue)
    : list JsValue by wf (length imageUrls - i)%nat lt :=
  upload_batches upload imageUrls i uploadedUrls :=
    match decide (i < length imageUrls)%nat with
    | left _ =>
        let batch := take 3 (drop i imageUrls) in
        let results := imap (λ batchIndex url, upload (i + batchIndex)%nat url) batch in
        upload_batches upload imageUrls (i + 3)
          (uploadedUrls ++ List.filter not_null results)
    | right _ => uploadedUrls
    end.
Proof. lia. Qed.

Definition upload_one (e : Env) (index : nat) (url : string) : JsValue :=
  upload_image (attempt e index url) 0.

Definition comic_response (uploadedUrls : list JsValue) (imageUrls : list string)
  : ComicJson :=
  {| success := true;
     images := uploadedUrls;
     cached := false;
     source := "freshly scraped";
     warning := if decide (length uploadedUrls ≠ length imageUrls)
                then Some "Beberapa gambar gagal diupload"%string else None |}.

Definition database_response (dbImages : list string) (src : string) : Response :=
  {| status := 200; cache_control := None;
     body := ComicPayload {| success := true;
                             images := JsString <$> dbImages;
                             cached := true;
                             source := src;
                             warning := None |} |}.

Definition with_db (w : World) (d : Db) : World :=
  {| db := d; cache := cache w |}.

(** [app.get('/get-comic', ...)]; the argument is [req.query.url]. *)
Definition get_comic (e : Env) (url : option string) (w : World)
  : Response * World :=
  match cleanSlug url with
  | None =>
      ({| status := 400; cache_control := None;
          body := ErrorPayload "Parameter url/slug wajib" None |}, w)
  | Some slug =>
      (* 1. the database *)
      let '(dbImages, d1) := getComicFromDB slug 0 (db w) in
      match dbImages with
      | Some (img :: imgs) =>
          (database_response (img :: imgs) "database", with_db w d1)
      | _ =>
          (* 2. the memory cache *)
          let cacheKey := String.append "comic-" slug in
          match cache_get (now_get e) cacheKey (cache w) with
          | Some cachedBody =>
              ({| status := 200; cache_control := None; body := cachedBody |},
               with_db w d1)
          | None =>
              (* 3. the source *)
              match scrape e with
              | Title404 =>
                  ({| status := 404; cache_control := None;
                      body := ErrorPayload "Comic not found" None |},
                   with_db w d1)
              | ScrapeThrows message code =>
                  (* the outer [catch]: look in the database once more *)
                  let '(dbImages', d2) := getComicFromDB slug 0 d1 in
                  match dbImages' with
                  | Some (img :: imgs) =>
                      (database_response (img :: imgs)
                         "database (race condition recovery)", with_db w d2)
                  | _ =>
                      ({| status := 500; cache_control := None;
                          body := ErrorPayload message code |}, with_db w d2)
                  end
              | Extracted srcs =>
                  let fullUrl := String.append urlBase (String.append slug "/") in
                  let imageUrls := List.filter absolute srcs in
                  (* 4. upload, three at a time *)
                  let uploadedUrls := upload_batches (upload_one e) imageUrls 0 [] in
                  (* 5. save *)
                  let d2 :=
                    match uploadedUrls with
                    | [] => d1
                    | _ => (saveComicToDB slug fullUrl (Some uploadedUrls) 0 d1).2
                    end in
                  let response := ComicPayload (comic_response uploadedUrls imageUrls) in
                  ({| status := 200;
                      cache_control := Some "public, max-age=600"%string;
                      body := response |},
                   {| db := d2;
                      cache := cache_set (now_set e) cacheKey response (cache w) |})
              end
          end
      end
  end.

(** *** Predicates and sample inputs used in the statements about [Comic] *)

(** The driver answers one of the next [n] statements. *)
Fixpoint accepts (n : nat) (faults : list bool) : bool :=
  match n with
  | O => false
  | S n' => negb (hd false faults) || accepts n' (tl faults)
  end.

(** What [getComicFromDB] makes of the row it reads. *)
Definition read_row (row : option ComicRow) : option (list string) :=
  match row with
  | Some r =>
      if decide (image_url r = EmptyString) then None
      else Some (split (image_url r))
  | None => None
  end.

(** The statement [saveComicToDB] sends for the array [l]. *)
Definition upsert_of (slug fullUrl : string) (l : list JsValue) : Statement :=
  UpsertComic slug fullUrl
    (join (js_text <$> List.filter not_null_or_undefined l))
    (length (List.filter not_null_or_undefined l)).

(** The results of the per-image loops in index order, and the CDN URLs
    among them: the list of the successfully uploaded images. *)
Definition results (e : Env) (imageUrls : list string) : list JsValue :=
  imap (upload_one e) imageUrls.

Definition cdn_urls (e : Env) (imageUrls : list string) : list string :=
  omap js_string (results e imageUrls).

(** The handler on its fresh-scrape path: no images come from the
    database, the memory cache has no live entry, and the page yields
    the [img] sources [srcs]. *)
Definition scrapes_fresh (e : Env) (url : option string) (slug : string)
    (w : World) (srcs : list string) : Prop :=
  cleanSlug url = Some slug
  ∧ (getComicFromDB slug 0 (db w)).1 = None
  ∧ cache_get (now_get e) (String.append "comic-" slug) (cache w) = None
  ∧ scrape e = Extracted srcs.

Definition fullUrl_of (slug : string) : string :=
  String.append urlBase (String.append slug "/").

Definition partial_warning : string := "Beberapa gambar gagal diupload".

(** Sample requests: a page of five images; an environment in which the
    second image never uploads, one in which none does; an empty store
    with an empty cache. *)
Definition five_sources : list string :=
  ["https://img.example/p/1.jpg"; "https://img.example/p/2.jpg";
   "https://img.example/p/3.jpg"; "https://img.example/p/4.jpg";
   "https://img.example/p/5.jpg"].

Definition second_fails : Env :=
  {| now_get := 1000; now_set := 9000;
     scrape := Extracted five_sources;
     attempt := λ index url retries,
       if decide (index = 1%nat) then AttemptThrows "socket hang up"
       else Uploaded (String.append "https://cdn.example/" url) |}.

Definition nothing_uploads : Env :=
  {| now_get := 1000; now_set := 9000;
     scrape := Extracted five_sources;
     attempt := λ index url retries, AttemptThrows "socket hang up" |}.

Definition empty_world : World :=
  {| db := {| comics := ∅; statements := []; faults := [] |}; cache := ∅ |}.

Definition null_or_undefined (v : JsValue) : Prop :=
  v = JsNull ∨ v = JsUndefined.

(** A CDN URL with a comma in it. *)
Definition comma_in_url : Env :=
  {| now_get := 1000; now_set := 9000;
     scrape := Extracted ["https://img.example/p/1.jpg"%string];
     attempt := λ index url retries,
       Uploaded "https://cdn.example/DOUJINSHI/a,b/a,b_1.jpg" |}.

Definition plain_url (u : string) : Prop :=
  u ≠ EmptyString ∧ has_comma u = false.

(** A second request, one minute after [nothing_uploads]. *)
Definition a_minute_later : Env :=
  {| now_get := 69000; now_set := 70000;
     scrape := ScrapeThrows "Navigation timeout" None;
     attempt := λ index url retries, AttemptThrows "unused" |}.

(** An empty store whose driver answers the lookup and then throws at
    the three attempts of the save. *)
Definition store_down_world : World :=
  {| db := {| comics := ∅; statements := [];
              faults := [false; true; true; true] |};
     cache := ∅ |}.

End Comic.

(** ** The single-image rehost: [/get] *)

Module Rehost.

Definition is_slash (c : ascii) : bool := Ascii.eqb c "/"%char.

Fixpoint drop_slashes (cs : list ascii) : list ascii :=
  match cs with
  | c :: rest => if is_slash c then drop_slashes rest else cs
  | [] => []
  end.

Fixpoint up_to_slash (cs : list ascii) : list ascii :=
  match cs with
  | c :: rest => if is_slash c then [] else c :: up_to_slash rest
  | [] => []
  end.

(** [path.basename(p)] (POSIX): scanning from the end, skip the trailing
    slashes, then keep what precedes the next slash. *)
Definition basename (p : string) : string :=
  String.string_of_list_ascii
    (rev (up_to_slash (drop_slashes (rev (String.list_ascii_of_string p))))).

Record ThumbnailRow := {
  source_url : string;
  cdn_url : string
}.

Inductive Statement :=
| SelectCdnUrl (filename : string)
| UpsertThumbnail (filename source_url cdn_url : string).

(** The [thumbnails] table, with the statements sent and, for those to
    come, whether the driver throws. *)
Record Store := {
  thumbnails : gmap string ThumbnailRow;
  statements : list Statement;
  faults : list bool
}.

Definition send (st : Statement) (s : Store) : bool * Store :=
  (hd false (faults s),
   {| thumbnails := thumbnails s;
      statements := statements s ++ [st];
      faults := tl (faults s) |}).

(** [INSERT ... ON CONFLICT (filename) DO UPDATE SET cdn_url =
    EXCLUDED.cdn_url]: a conflicting row keeps its [source_url]. *)
Definition upsert_thumbnail (fileName imageUrl cdnUrl : string) (s : Store)
  : Store :=
  {| thumbnails :=
       <[fileName :=
           {| source_url := match thumbnails s !! fileName with
                            | Some r => source_url r
                            | None => imageUrl
                            end;
              cdn_url := cdnUrl |}]> (thumbnails s);
     statements := statements s;
     faults := faults s |}.

(** What the handler does outside the process, in order. *)
Inductive Event :=
| EvGetBrowser
| EvGoto (url : string)
| EvUpload (path : string)
| EvReleaseBrowser.

(** From [createPage] to [imageResponse.buffer()], then [uploadToR2]. *)
Inductive RehostOutcome :=
| PageThrows (message : string)
| UploadThrows (message : string)
| Rehosted (cdnUrl : string).

(** What the [catch] block reports as [details]. *)
Inductive Failure :=
| InvalidUrl
| DriverThrew
| PageThrew (message : string)
| UploadThrew (message : string).

Inductive Reply :=
| Ok200 (cdnUrl : string)
| BadRequest400
| Error500 (details : Failure).

Section WithUrlParser.

(** [new URL(imageUrl).pathname]; [None] when the constructor throws. *)
Variable pathname : string → option string.

(** [app.get('/get', ...)]; the argument is [req.query.url]. *)
Definition get_image (rehost : RehostOutcome) (imageUrl : option string)
    (s : Store) : Reply * Store * list Event :=
  match imageUrl with
  | None => (BadRequest400, s, [])
  | Some imageUrl =>
      if decide (imageUrl = EmptyString) then (BadRequest400, s, [])
      else
        match pathname imageUrl with
        | None => (Error500 InvalidUrl, s, [])
        | Some p =>
            let fileName := basename p in
            let uploadPath := String.append "IMAGES/" fileName in
            let '(throws, s1) := send (SelectCdnUrl fileName) s in
            if throws then (Error500 DriverThrew, s1, [])
            else
              match thumbnails s !! fileName with
              | Some existing => (Ok200 (cdn_url existing), s1, [])
              | None =>
                  match rehost with
                  | PageThrows m =>
                      (Error500 (PageThrew m), s1,
                       [EvGetBrowser; EvGoto imageUrl; EvReleaseBrowser])
                  | UploadThrows m =>
                      (Error500 (UploadThrew m), s1,
                       [EvGetBrowser; EvGoto imageUrl; EvUpload uploadPath;
                        EvReleaseBrowser])
                  | Rehosted cdnUrl =>
                      let '(throws', s2) :=
                        send (UpsertThumbnail fileName imageUrl cdnUrl) s1 in
                      if throws' then
                        (Error500 DriverThrew, s2,
                         [EvGetBrowser; EvGoto imageUrl; EvUpload uploadPath;
                          EvReleaseBrowser])
                      else
                        (Ok200 cdnUrl,
                         upsert_thumbnail fileName imageUrl cdnUrl s2,
                         [EvGetBrowser; EvGoto imageUrl; EvUpload uploadPath;
                          EvReleaseBrowser])
                  end
              end
        end
  end.

End WithUrlParser.

(** For examples: the path of a URL of the plain form
    [scheme://host/path], optionally followed by [?query] or
    [#fragment]. *)
Fixpoint after_scheme (cs : list ascii) : option (list ascii) :=
  match cs with
  | ":"%char :: "/"%char :: "/"%char :: rest => Some rest
  | _ :: rest => after_scheme rest
  | [] => None
  end.

Fixpoint from_slash (cs : list ascii) : list ascii :=
  match cs with
  | c :: rest => if is_slash c then cs else from_slash rest
  | [] => ["/"%char]
  end.

Fixpoint before_query (cs : list ascii) : list ascii :=
  match cs with
  | c :: rest =>
      if Ascii.eqb c "?"%char || Ascii.eqb c "#"%char then []
      else c :: before_query rest
  | [] => []
  end.

Definition plain_pathname (u : string) : option string :=
  match after_scheme (String.list_ascii_of_string u) with
  | Some rest => Some (String.string_of_list_ascii (before_query (from_slash rest)))
  | None => None
  end.

Definition empty_store : Store :=
  {| thumbnails := ∅; statements := []; faults := [] |}.

(** *** Predicates and sample inputs used in the statements about [Rehost] *)

Definition first_cover : string := "https://a.example/covers/45673.jpg".
Definition second_cover : string := "https://b.example/thumbs/2024/45673.jpg?w=200".

(** An empty table whose driver answers two statements and throws at
    the third. *)
Definition third_statement_fails : Store :=
  {| thumbnails := ∅; statements := []; faults := [false; false; true] |}.

End Rehost.

(** ** The manifest-driven orchestrator: [/auto-json] *)

Module Manifest.

(** A chapter descriptor of the manifest; a missing field reads as
    [undefined] ([None]). *)
Record Chapter := {
  slug : option string;
  title : option string
}.

(** [x || d]. *)
Definition or_else (x : option string) (d : string) : string :=
  match x with
  | Some s => if decide (s = EmptyString) then d else s
  | None => d
  end.

(** [!x]. *)
Definition falsy (x : option string) : bool :=
  match x with
  | Some s => bool_decide (s = EmptyString)
  | None => true
  end.

(** [s.includes(sub)]. *)
Fixpoint includes (sub s : string) : bool :=
  String.prefix sub s
  || match s with
     | EmptyString => false
     | String _ rest => includes sub rest
     end.

Inductive Status :=
| failed
| ok
| ok_retry
| retry_failed
| aborted
| processing_error.

Record ChapterResult := {
  r_title : option string;
  r_slug : option string;
  status : Status;
  imagesCount : option nat;
  reason : option string
}.

(** The call of the [/get-comic] endpoint for one chapter: the parsed
    reply ([data.success], the length of [data.images] if present,
    [data.error]), or the error with which [fetch] or [response.json()]
    rejects. *)
Inductive FetchOutcome :=
| Replied (success : bool) (images : option nat) (error : option string)
| Rejected (name message : string).

Inductive Event :=
| EvFetch (slug : string)
| EvSleep (ms : Z)
| EvClearTimeout
| EvWriteFile (chapters : list Chapter) (written : bool).

(** The outside world of one run, indexed by how often it was asked:
    the replies of the endpoint, what [controller.signal.aborted] reads
    at each check (the deadline may fire at any moment; whether the
    assignment [controller.signal.aborted = false] takes effect depends
    on the [AbortController] in use, and either way is covered), and
    whether a [writeFile] fails. *)
Record Env := {
  net : nat → FetchOutcome;
  signal_aborted : nat → bool;
  write_fails : nat → bool
}.

(** The state of the handler that outlives a pass: [jsonData.chapters],
    the chapter list last written to the manifest file, [allResults],
    the counters that index the oracles, and the trace. *)
Record Run := {
  chapters : list Chapter;
  file : list Chapter;
  allResults : list ChapterResult;
  calls : nat;
  checks : nat;
  writes : nat;
  trace : list Event
}.

(** The state of one call of [processChapters]. *)
Record Pass := {
  run : Run;
  processed : list (nat * Chapter);
  results : list ChapterResult
}.

(** How a chapter callback settles: it returns a result, or its promise
    rejects. *)
Inductive Settled :=
| Returned (r : ChapterResult)
| Threw (name message : string).

Definition concurrencyLimit : nat := 3.

Definition ok_result (c : Chapter) (st : Status) (images : option nat)
  : ChapterResult :=
  {| r_title := title c;
     r_slug := slug c;
     status := st;
     imagesCount := Some (default 0%nat images);
     reason := None |}.

Definition with_run (p : Pass) (r : Run) : Pass :=
  {| run := r; processed := processed p; results := results p |}.

Definition issue (s : string) (r : Run) : Run :=
  {| chapters := chapters r; file := file r; allResults := allResults r;
     calls := S (calls r); checks := checks r; writes := writes r;
     trace := trace r ++ [EvFetch s] |}.

Definition record_event (ev : Event) (r : Run) : Run :=
  {| chapters := chapters r; file := file r; allResults := allResults r;
     calls := calls r; checks := checks r; writes := writes r;
     trace := trace r ++ [ev] |}.

(** Errors that the callback's [catch] block means to retry. *)
Definition transient (name message : string) : bool :=
  bool_decide (name = "AbortError") || bool_decide (name = "TimeoutError")
  || includes "network" message || includes "timeout" message.

(** The callback passed to [chunk.map], for the chapter at
    [chapterIndex] of chunk [chunkIndex].

    In its [catch] block the names [title] and [slug] are not in scope:
    they are declared with [const] inside the [try] block.  The retry
    branch starts by logging both, so it throws a [ReferenceError]
    before it sleeps or fetches again; the statuses [ok (retry)] and
    [retry_failed] are never produced.  The other branch reads
    [chapter.title] and [chapter.slug] and is not affected. *)
Definition process_chapter (e : Env) (chunkIndex chapterIndex : nat)
    (c : Chapter) (p : Pass) : Settled * Pass :=
  if falsy (slug c) then
    (Returned {| r_title := Some (or_else (title c) "Unknown");
                 r_slug := Some (or_else (slug c) "Unknown");
                 status := failed;
                 imagesCount := None;
                 reason := Some "Slug tidak valid"%string |}, p)
  else
    let r1 := issue (default EmptyString (slug c)) (run p) in
    match net e (calls (run p)) with
    | Replied false _ error =>
        (Returned {| r_title := title c;
                     r_slug := slug c;
                     status := failed;
                     imagesCount := None;
                     reason := Some (or_else error "Gagal memproses chapter") |},
         with_run p r1)
    | Replied true images _ =>
        (Returned (ok_result c ok images),
         {| run := {| chapters := chapters r1; file := file r1;
                      allResults := allResults r1 ++ [ok_result c ok images];
                      calls := calls r1; checks := checks r1;
                      writes := writes r1; trace := trace r1 |};
            processed :=
              processed p ++
              [((chunkIndex * concurrencyLimit + chapterIndex)%nat, c)];
            results := results p |})
    | Rejected name message =>
        if transient name message then
          (Threw "ReferenceError" "title is not defined", with_run p r1)
        else
          (Returned {| r_title := Some (or_else (title c) "Unknown");
                       r_slug := Some (or_else (slug c) "Unknown");
                       status := if bool_decide (name = "AbortError")
                                 then aborted else processing_error;
                       imagesCount := None;
                       reason := Some message |},
           with_run p r1)
    end.

(** The callbacks of a chunk.  They run interleaved; here they are taken
    to settle in the order of the chunk, all of them before the code
    after [Promise.all] goes on. *)
Fixpoint process_chunk (e : Env) (chunkIndex chapterIndex : nat)
    (chunk : list Chapter) (p : Pass) : list Settled * Pass :=
  match chunk with
  | [] => ([], p)
  | c :: rest =>
      let '(s, p1) := process_chapter e chunkIndex chapterIndex c p in
      let '(ss, p2) := process_chunk e chunkIndex (S chapterIndex) rest p1 in
      (s :: ss, p2)
  end.

(** [await Promise.all(chunkPromises)]: the results when every promise
    is fulfilled, else the first rejection. *)
Fixpoint promise_all (ss : list Settled) : list ChapterResult + string * string :=
  match ss with
  | [] => inl []
  | Returned r :: rest =>
      match promise_all rest with
      | inl rs => inl (r :: rs)
      | inr err => inr err
      end
  | Threw name message :: _ => inr (name, message)
  end.

(** [processed.sort((a, b) => b.index - a.index)]: by index, largest
    first; the sort is stable. *)
Fixpoint insert_desc (x : nat * Chapter) (l : list (nat * Chapter))
  : list (nat * Chapter) :=
  match l with
  | [] => [x]
  | y :: rest =>
      if decide (y.1 ≤ x.1)%nat then x :: l else y :: insert_desc x rest
  end.

Definition sort_desc (l : list (nat * Chapter)) : list (nat * Chapter) :=
  foldr insert_desc [] l.

(** [for (const item of processed) jsonData.chapters.splice(item.index, 1)];
    a [splice] past the end removes nothing. *)
Definition splice_all (items : list (nat * Chapter)) (chs : list Chapter)
  : list Chapter :=
  foldl (λ acc item, delete item.1 acc) chs items.

(** The errors on which the [catch] around a chunk stops the pass. *)
Definition stops_pass (name message : string) : bool :=
  bool_decide (name = "AbortError")
  || bool_decide (message = "Operation aborted").

(** The check at the top of a chunk's [try] block.  With the signal
    aborted and chapters left, the timer is cleared, [false] is assigned
    to [controller.signal.aborted], and the chunk goes on; with none
    left, [Error('Operation aborted - no chapters remaining')] is
    thrown ([true]). *)
Definition abort_check (e : Env) (r : Run) : bool * Run :=
  let r1 := {| chapters := chapters r; file := file r;
               allResults := allResults r; calls := calls r;
               checks := S (checks r); writes := writes r;
               trace := trace r |} in
  if signal_aborted e (checks r) then
    match chapters r with
    | _ :: _ => (false, record_event EvClearTimeout r1)
    | [] => (true, r1)
    end
  else (false, r1).

(** The [catch (chunkError)] block: rethrow, or go on with the next
    chunk. *)
Definition catch_chunk (err : string * string) (p : Pass)
  : Pass + (string * string) * Run :=
  if stops_pass err.1 err.2 then inr (err, run p) else inl p.

(** The rewrite of the manifest after a chunk: sort [processed], splice
    the entries out of [jsonData.chapters], write the file, and empty
    [processed] if the write succeeded. *)
Definition rewrite_manifest (e : Env) (p : Pass) : Pass :=
  match processed p with
  | [] => p
  | _ =>
      let sorted := sort_desc (processed p) in
      let r := run p in
      let chs := splice_all sorted (chapters r) in
      let fails := write_fails e (writes r) in
      {| run := {| chapters := chs;
                   file := if fails then file r else chs;
                   allResults := allResults r; calls := calls r;
                   checks := checks r; writes := S (writes r);
                   trace := trace r ++ [EvWriteFile chs (negb fails)] |};
         processed := if fails then sorted else [];
         results := results p |}
  end.

(** One iteration of the [for] loop over the chunks. *)
Definition chunk_iteration (e : Env) (chunkIndex : nat) (chunk : list Chapter)
    (p : Pass) : Pass + (string * string) * Run :=
  let '(throws, r1) := abort_check e (run p) in
  if throws then
    catch_chunk ("Error"%string,
                 "Operation aborted - no chapters remaining"%string)
      (with_run p r1)
  else
    let '(settled, p1) := process_chunk e chunkIndex 0 chunk (with_run p r1) in
    match promise_all settled with
    | inr err => catch_chunk err p1
    | inl chunkResults =>
        inl (rewrite_manifest e
               {| run := run p1; processed := processed p1;
                  results := results p1 ++ chunkResults |})
    end.

Fixpoint chunk_loop (e : Env) (chunkIndex : nat) (chunks : list (list Chapter))
    (p : Pass) : Pass + (string * string) * Run :=
  match chunks with
  | [] => inl p
  | chunk :: rest =>
      match chunk_iteration e chunkIndex chunk p with
      | inl p' => chunk_loop e (S chunkIndex) rest p'
      | inr err => inr err
      end
  end.

(** [for (let i = 0; i < chapters.length; i += concurrencyLimit)
    chunks.push(chapters.slice(i, i + concurrencyLimit))]. *)
Equations? chunks_from (chs : list Chapter) (i : nat) : list (list Chapter)
    by wf (length chs - i)%nat lt :=
  chunks_from chs i :=
    match decide (i < length chs)%nat with
    | left _ =>
        take concurrencyLimit (drop i chs)
        :: chunks_from chs (i + concurrencyLimit)
    | right _ => []
    end.
Proof. unfold concurrencyLimit. lia. Qed.

(** [processChapters(chapters)]: the chunks are cut from the array as it
    is when the pass starts; the indices recorded in [processed] refer
    to that array, the splices are applied to [jsonData.chapters] as it
    is when a chunk ends. *)
Definition processChapters (e : Env) (chs : list Chapter) (r : Run)
  : (list ChapterResult + string * string) * Run :=
  match chunk_loop e 0 (chunks_from chs 0)
          {| run := r; processed := []; results := [] |} with
  | inl p => (inl (results p), run p)
  | inr (err, r') => (inr err, r')
  end.

Inductive Response :=
| Done200 (totalProcessed totalRemaining : nat) (results : list ChapterResult)
| Partial202 (totalRemaining : nat) (partialResults : list ChapterResult)
| Failed500 (error : string) (totalRemaining : nat).

Inductive Outcome :=
| Responded (res : Response) (r : Run)
| StillRunning (r : Run).

(** The handler from its [while] loop on, for at most [passes] passes.
    In the [catch] of an abort with chapters left, the retry begins with
    an assignment to the [const] binding [controller], which throws a
    [TypeError]; the inner [catch] answers 202. *)
Fixpoint main_loop (passes : nat) (e : Env) (r : Run) : Outcome :=
  match chapters r with
  | [] =>
      Responded (Done200 (length (allResults r)) 0 (allResults r)) r
  | _ :: _ =>
      match passes with
      | O => StillRunning r
      | S passes' =>
          match processChapters e (chapters r) r with
          | (inl batchResults, r') =>
              match chapters r' with
              | [] =>
                  Responded
                    (Done200 (length (allResults r')) 0 (allResults r')) r'
              | _ :: _ =>
                  match batchResults with
                  | [] => main_loop passes' e (record_event (EvSleep 5000) r')
                  | _ :: _ => main_loop passes' e r'
                  end
              end
          | (inr (name, message), r') =>
              match chapters r' with
              | _ :: _ =>
                  if bool_decide (name = "AbortError")
                     || includes "Operation aborted" message
                  then
                    Responded
                      (Partial202 (length (chapters r')) (allResults r'))
                      (record_event (EvSleep 10000) r')
                  else
                    Responded (Failed500 message (length (chapters r'))) r'
              | [] => Responded (Failed500 message 0) r'
              end
          end
      end
  end.

Definition start (chs : list Chapter) : Run :=
  {| chapters := chs; file := chs; allResults := []; calls := 0;
     checks := 0; writes := 0; trace := [] |}.

(** *** Predicates and sample inputs used in the statements about [Manifest] *)

Definition chapter (s : string) : Chapter :=
  {| slug := Some s; title := Some s |}.

Definition four_chapters : list Chapter :=
  chapter <$> ["ch-1"; "ch-2"; "ch-3"; "ch-4"]%string.

(** Every chapter is ingested at the first call; no deadline, no write
    error. *)
Definition all_succeed : Env :=
  {| net := λ _, Replied true (Some 12%nat) None;
     signal_aborted := λ _, false;
     write_fails := λ _, false |}.

(** Seven chapters, and replies by which the first wave ingests only
    the first chapter, the second wave all three of its own, and the
    third wave nothing. *)
Definition seven_chapters : list Chapter :=
  chapter <$> ["ch-1"; "ch-2"; "ch-3"; "ch-4"; "ch-5"; "ch-6"; "ch-7"]%string.

Definition some_fail : Env :=
  {| net := λ k, if decide (k = 0 ∨ k = 3 ∨ k = 4 ∨ k = 5)%nat
                 then Replied true (Some 12%nat) None
                 else Replied false None (Some "upstream error"%string);
     signal_aborted := λ _, false;
     write_fails := λ _, false |}.

(** [without_from i ks l] is [l] without the entries whose index,
    counted from [i], is in [ks]: a sublist of [l], in the order of
    [l]. *)
Fixpoint without_from (i : nat) (ks : list nat) (l : list Chapter)
  : list Chapter :=
  match l with
  | [] => []
  | c :: rest =>
      if decide (i ∈ ks) then without_from (S i) ks rest
      else c :: without_from (S i) ks rest
  end.

Definition is_ok (st : Status) : bool :=
  match st with ok => true | _ => false end.

(** The indices, counted from [i], of the results with status [ok]. *)
Fixpoint ok_positions_from (i : nat) (rs : list ChapterResult) : list nat :=
  match rs with
  | [] => []
  | r :: rest =>
      if is_ok (status r) then i :: ok_positions_from (S i) rest
      else ok_positions_from (S i) rest
  end.


End Manifest.

(** ** Further definitions for the statements about [fetchImageBuffer] *)

Module FetchMore.
Import Fetch.

(** The requests and sleeps of a call that starts at [retryCount] and
    goes through [k] failed attempts before its last attempt. *)
Fixpoint attempts_trace (url referer : string) (retryCount k : nat)
  : list Event :=
  match k with
  | O => [EvFetch url referer]
  | S k' =>
      EvFetch url referer :: EvSleep (1000 * 2 ^ Z.of_nat retryCount)
      :: attempts_trace url referer (S retryCount) k'
  end.

(** Two failures, then the image. *)
Definition third_time_lucky (k : nat) : FetchOutcome :=
  if decide (k < 2)%nat then Rejects "ECONNRESET"
  else Response 200 (inl "bytes"%string).

End FetchMore.

(** ** Further definitions for the statements about the comic store *)

Module ComicMore.
Import Comic.

(** The number of commas of a string. *)
Fixpoint commas (s : string) : nat :=
  match s with
  | EmptyString => 0
  | String c rest => if is_comma c then S (commas rest) else commas rest
  end.

(** The driver throws at the first two statements it receives. *)
Definition flaky_world : World :=
  {| db := {| comics := ∅; statements := []; faults := [true; true] |};
     cache := ∅ |}.

(** The third attempt for an image is the first to succeed. *)
Definition third_attempt (retries : nat) : AttemptOutcome :=
  if decide (retries < 2)%nat then AttemptThrows "socket hang up"
  else Uploaded "https://cdn.example/DOUJINSHI/foo/foo_1.jpg".

End ComicMore.

(** ** Further definitions for the statements about the browser pool *)
Module PoolMore.
Import Pool.
Local Open Scope nat_scope.

(** The sessions that are idle in the pool or held by a handler. *)
Definition sessions (s : State) : list nat :=
  browserPool s ++ checked_out s.

(** No session is idle twice, held twice, or idle and held at once, and
    every session comes from a launch that has happened. *)
Definition exclusive (s : State) : Prop :=
  NoDup (sessions s) ∧ Forall (λ b, b < launched s) (sessions s).

(** The number of launches that succeed. *)
Definition successes (oks : list bool) : nat :=
  length (List.filter (λ ok : bool, ok) oks).

End PoolMore.

(** ** Further definitions for the statements about the locks *)
Module LockMore.
Import Lock.

(** The end of the job that a start request begins. *)
Definition job_end (a : Action) : Action :=
  match a with
  | ReqAutoThumbnail _ _ _ _ | ThumbnailJobEnds => ThumbnailJobEnds
  | _ => FetchLockJobEnds
  end.

End LockMore.

(** ** Further definitions for the statements about the manifest *)
Module ManifestMore.
Import Manifest.

(** The chapters of a wave that stay in the manifest: those whose
    result is not [ok]. *)
Fixpoint not_ingested (rs : list ChapterResult) (chunk : list Chapter)
  : list Chapter :=
  match rs, chunk with
  | r :: rs', c :: chunk' =>
      if is_ok (status r) then not_ingested rs' chunk'
      else c :: not_ingested rs' chunk'
  | _, _ => []
  end.

(** No call of the endpoint is answered with [success: true]. *)
Definition never_succeeds (e : Env) : Prop :=
  ∀ k success images error,
    net e k = Replied success images error → success = false.

(** The manifest, the file and the collected results are as they were,
    and nothing was written. *)
Definition untouched (r r' : Run) : Prop :=
  chapters r' = chapters r ∧ file r' = file r
  ∧ allResults r' = allResults r ∧ writes r' = writes r.

(** The site is down and the deadline has fired. *)
Definition site_down : Env :=
  {| net := λ _, Rejected "TypeError" "fetch failed";
     signal_aborted := λ _, true;
     write_fails := λ _, false |}.

End ManifestMore.

(** ** Further definitions for the statements about [/get] *)
Module RehostMore.
Import Rehost.

Definition no_slash (s : string) : Prop :=
  Forall (λ c, is_slash c = false) (String.list_ascii_of_string s).





End RehostMore.

(** ** [/proxy]: the image proxy and its promotion to the CDN *)
Module Proxy.

(** What [fetch(imageUrl, ...)] produces: a rejection, or a response
    with its status and [content-type] header. *)
Inductive FetchOutcome :=
| FetchRejects (message : string)
| FetchResponse (status : Z) (contentType : option string).

(** From [response.arrayBuffer()] to [uploadToR2]. *)
Inductive UploadOutcome :=
| BodyThrows
| UploadThrows
| Uploaded (cdnUrl : string).

(** The errors thrown inside the [try] block. *)
Inductive Error :=
| FetchFailed (message : string)
| NotFound (status : Z)
| NotAnImage.

Inductive Reply :=
| BadRequest400
| Redirect (location : string)
| Streamed (contentType : string) (bodyRead : bool)
  (* the response is piped to the client; [bodyRead] tells whether
     [arrayBuffer()] had been called on it before *)
| Failed (statusCode : Z) (error : Error).

Inductive Statement :=
| SelectCdnUrl (filename source_url : string)
| UpsertThumbnail (filename source_url cdn_url : string).

Inductive Event :=
| EvFetch (url referer : string)
| EvUpload (path : string).

Record Store := {
  thumbnails : gmap string Rehost.ThumbnailRow;
  statements : list Statement;
  faults : list bool
}.

(** The handler's view of the process: the timers, the two families of
    cache entries it uses, [proxy-<hash>] (a URL) and
    [proxy-count-<hash>] (a number), each with its expiry time and
    indexed here by the hash, the table, and what it did outside. *)
Record State := {
  rt : Fetch.Rt;
  urls : gmap string (string * Z);
  counts : gmap string (Z * Z);
  store : Store;
  events : list Event
}.

(** The clock at the three cache accesses of a request, and what the
    network and the CDN do. *)
Record Env := {
  t_lookup : Z;
  t_count : Z;
  t_store : Z;
  fetched : FetchOutcome;
  upload : UploadOutcome
}.

Definition send (st : Statement) (s : Store) : bool * Store :=
  (hd false (faults s),
   {| thumbnails := thumbnails s;
      statements := statements s ++ [st];
      faults := tl (faults s) |}).

Definition cache_get {V} (now : Z) (key : string) (c : gmap string (V * Z))
  : option V :=
  match c !! key with
  | Some (v, expires) => if decide (expires < now) then None else Some v
  | None => None
  end.

Definition cache_set {V} (now : Z) (key : string) (v : V)
    (c : gmap string (V * Z)) : gmap string (V * Z) :=
  <[key := (v, now + Comic.stdTTL * 1000)]> c.

(** [SELECT cdn_url FROM thumbnails WHERE filename = ... AND source_url
    = ...], with [.catch(() => [])]. *)
Definition select_cdn_url (fileName imageUrl : string) (s : Store)
  : list Rehost.ThumbnailRow * Store :=
  let '(throws, s') := send (SelectCdnUrl fileName imageUrl) s in
  if throws then ([], s')
  else
    match thumbnails s !! fileName with
    | Some row =>
        if decide (Rehost.source_url row = imageUrl) then ([row], s')
        else ([], s')
    | None => ([], s')
    end.

(** The same [INSERT ... ON CONFLICT (filename) DO UPDATE SET cdn_url]
    as in [/get]. *)
Definition upsert_thumbnail (fileName imageUrl cdnUrl : string) (s : Store)
  : Store :=
  {| thumbnails :=
       <[fileName :=
           {| Rehost.source_url :=
                match thumbnails s !! fileName with
                | Some r => Rehost.source_url r
                | None => imageUrl
                end;
              Rehost.cdn_url := cdnUrl |}]> (thumbnails s);
     statements := statements s;
     faults := faults s |}.

(** [err.message.includes('aborted') ? 504 : 500]; the two messages the
    handler makes itself do not contain the word. *)
Definition statusCode (err : Error) : Z :=
  match err with
  | FetchFailed message =>
      if Manifest.includes "aborted" message then 504 else 500
  | NotFound _ | NotAnImage => 500
  end.

Definition with_timers (s : State) (r : Fetch.Rt) : State :=
  {| rt := r; urls := urls s; counts := counts s; store := store s;
     events := events s |}.

Section WithDigest.

(** [crypto.createHash('md5').update(imageUrl).digest('hex')]. *)
Variable md5 : string → string.

Definition fileName (imageUrl : string) : string :=
  String.append "proxy_" (String.append (md5 imageUrl) ".jpg").

(** The [try] block; the result is what it returns or throws. *)
Definition try_block (e : Env) (imageUrl : string) (s : State)
  : (Reply + Error) * State :=
  let urlHash := md5 imageUrl in
  let '(existing, st1) := select_cdn_url (fileName imageUrl) imageUrl (store s) in
  let s1 := {| rt := rt s; urls := urls s; counts := counts s; store := st1;
               events := events s |} in
  (* [existing?.length > 0 && existing[0].cdn_url] *)
  let found :=
    match existing with
    | row :: _ =>
        if decide (Rehost.cdn_url row = EmptyString) then None else Some row
    | [] => None
    end in
  match found with
  | Some row =>
      (inl (Redirect (Rehost.cdn_url row)),
       {| rt := rt s1;
          urls := cache_set (t_store e) urlHash (Rehost.cdn_url row) (urls s1);
          counts := counts s1; store := store s1; events := events s1 |})
  | None =>
      let s2 := {| rt := rt s1; urls := urls s1; counts := counts s1;
                   store := store s1;
                   events := events s1 ++ [EvFetch imageUrl Fetch.urlBase] |} in
      match fetched e with
      | FetchRejects message => (inr (FetchFailed message), s2)
      | FetchResponse status contentType =>
          if negb (Fetch.response_ok status) then (inr (NotFound status), s2)
          else
            match contentType with
            | None => (inr NotAnImage, s2)
            | Some ct =>
                if negb (String.prefix "image/" ct) then (inr NotAnImage, s2)
                else
                  let proxyCount :=
                    default 0 (cache_get (t_count e) urlHash (counts s2)) in
                  if decide (3 < proxyCount) then
                    match upload e with
                    | BodyThrows => (inl (Streamed ct true), s2)
                    | UploadThrows =>
                        (inl (Streamed ct true),
                         {| rt := rt s2; urls := urls s2; counts := counts s2;
                            store := store s2;
                            events := events s2 ++
                              [EvUpload (String.append "proxy/"
                                           (fileName imageUrl))] |})
                    | Uploaded cdnUrl =>
                        let ev := events s2 ++
                              [EvUpload (String.append "proxy/"
                                           (fileName imageUrl))] in
                        let '(throws, st3) :=
                          send (UpsertThumbnail (fileName imageUrl) imageUrl
                                  cdnUrl) (store s2) in
                        if throws then
                          (inl (Streamed ct true),
                           {| rt := rt s2; urls := urls s2;
                              counts := counts s2; store := st3;
                              events := ev |})
                        else
                          (inl (Redirect cdnUrl),
                           {| rt := rt s2;
                              urls := cache_set (t_store e) urlHash cdnUrl
                                        (urls s2);
                              counts := counts s2;
                              store := upsert_thumbnail (fileName imageUrl)
                                         imageUrl cdnUrl st3;
                              events := ev |})
                    end
                  else
                    (inl (Streamed ct false),
                     {| rt := rt s2; urls := urls s2;
                        counts := cache_set (t_store e) urlHash
                                    (proxyCount + 1) (counts s2);
                        store := store s2; events := events s2 |})
            end
      end
  end.

(** [app.get('/proxy', ...)]; the argument is [req.query.url].  The
    timer is created before the memory cache is read, and the redirect
    on a hit returns before the [try] whose [finally] clears it. *)
Definition proxy (e : Env) (imageUrl : option string) (s : State)
  : Reply * State :=
  match imageUrl with
  | None => (BadRequest400, s)
  | Some imageUrl =>
      if decide (imageUrl = EmptyString) then (BadRequest400, s)
      else
        let '(timeout, rt1) := Fetch.createTimeout 15000 (rt s) in
        let s1 := with_timers s rt1 in
        let cachedUrl :=
          default EmptyString (cache_get (t_lookup e) (md5 imageUrl) (urls s)) in
        if decide (cachedUrl ≠ EmptyString) then (Redirect cachedUrl, s1)
        else
          let '(outcome, s2) := try_block e imageUrl s1 in
          let s3 := with_timers s2 (Fetch.clearTimeout timeout (rt s2)) in
          match outcome with
          | inl reply => (reply, s3)
          | inr err => (Failed (statusCode err) err, s3)
          end
  end.

(** Requests for one URL, served one after the other. *)
Fixpoint serve (es : list Env) (imageUrl : string) (s : State)
  : list Reply * State :=
  match es with
  | [] => ([], s)
  | e :: es' =>
      let '(r, s1) := proxy e (Some imageUrl) s in
      let '(rs, s2) := serve es' imageUrl s1 in
      (r :: rs, s2)
  end.

End WithDigest.

(** *** Predicates and sample inputs used in the statements about [Proxy] *)

(** The request is answered from the memory cache. *)
Definition memory_hit (md5 : string → string) (e : Env)
    (imageUrl : option string) (s : State) : Prop :=
  ∃ u cdn, imageUrl = Some u ∧ u ≠ EmptyString
         ∧ cache_get (t_lookup e) (md5 u) (urls s) = Some cdn
         ∧ cdn ≠ EmptyString.

(** The source answers with an image. *)
Definition image_ok (e : Env) : Prop :=
  ∃ status ct, fetched e = FetchResponse status (Some ct)
             ∧ Fetch.response_ok status = true
             ∧ String.prefix "image/" ct = true.

(** The request happens within one cache lifetime after [T]. *)
Definition within (T : Z) (e : Env) : Prop :=
  T ≤ t_store e
  ∧ t_lookup e ≤ T + Comic.stdTTL * 1000
  ∧ t_count e ≤ T + Comic.stdTTL * 1000.

(** Nothing is known about the URL: no cache entry and no row. *)
Definition unknown (md5 : string → string) (u : string) (s : State) : Prop :=
  urls s !! md5 u = None ∧ counts s !! md5 u = None
  ∧ thumbnails (store s) !! fileName md5 u = None.

(** The URL is neither cached nor stored, and it was streamed [k] times
    since [T]. *)
Definition counted (md5 : string → string) (T : Z) (u : string) (k : Z)
    (s : State) : Prop :=
  urls s !! md5 u = None
  ∧ thumbnails (store s) !! fileName md5 u = None
  ∧ if decide (k = 0) then counts s !! md5 u = None
    else ∃ expires, counts s !! md5 u = Some (k, expires)
                  ∧ T + Comic.stdTTL * 1000 ≤ expires.

Definition start : State :=
  {| rt := Fetch.rt0; urls := ∅; counts := ∅;
     store := {| thumbnails := ∅; statements := []; faults := [] |};
     events := [] |}.

(** A stand-in for the digest in examples. *)
Definition toy_digest (s : string) : string :=
  String.append "00000000000000000000000000000000" s.

Definition page_image : string := "https://img.example/a/1.jpg".

Definition image_at (t : Z) : Env :=
  {| t_lookup := t; t_count := t + 1; t_store := t + 2;
     fetched := FetchResponse 200 (Some "image/jpeg"%string);
     upload := Uploaded "https://cdn.example/proxy/1.jpg" |}.

Definition aborted_at (t : Z) : Env :=
  {| t_lookup := t; t_count := t + 1; t_store := t + 2;
     fetched := FetchRejects "The user aborted a request.";
     upload := UploadThrows |}.

End Proxy.

(** ** [/doujin]: the listing page, its URL check and its cache *)
Module Listing.

(** The regular expressions the program uses are built from these. *)
Inductive Regex :=
| Eps
| Chr (c : ascii)
| Digits                     (* [\d+] *)
| Seq (r1 r2 : Regex)
| Opt (r : Regex).           (* [(r)?] *)

Definition is_digit (c : ascii) : bool :=
  (48 <=? nat_of_ascii c)%nat && (nat_of_ascii c <=? 57)%nat.

(** [\d+] followed by the rest of the pattern [k]: greedy, with
    backtracking. *)
Fixpoint digits (s : list ascii) (k : list ascii → bool) : bool :=
  match s with
  | c :: s' => is_digit c && (digits s' k || k s')
  | [] => false
  end.

(** Backtracking match of [r] at the start of [s], the rest of the
    pattern being [k]; an optional group is tried first with its
    content. *)
Fixpoint match_at (r : Regex) (s : list ascii) (k : list ascii → bool) : bool :=
  match r with
  | Eps => k s
  | Chr c =>
      match s with
      | x :: s' => Ascii.eqb x c && k s'
      | [] => false
      end
  | Digits => digits s k
  | Seq r1 r2 => match_at r1 s (λ s', match_at r2 s' k)
  | Opt r' => match_at r' s k || k s
  end.

Fixpoint lit (cs : list ascii) : Regex :=
  match cs with
  | [] => Eps
  | c :: cs' => Seq (Chr c) (lit cs')
  end.

Definition literal (s : string) : Regex := lit (String.list_ascii_of_string s).

(** [/^r$/.test(s)]. *)
Definition test_anchored (r : Regex) (s : string) : bool :=
  match_at r (String.list_ascii_of_string s)
    (λ rest, match rest with [] => true | _ => false end).

(** [/^(https?:\/\/)?(www\.)?doujindesu\.tv\/doujin\/page\/\d+\/$/]. *)
Definition page_regex : Regex :=
  Seq (Opt (Seq (literal "http") (Seq (Opt (Chr "s")) (literal "://"))))
    (Seq (Opt (literal "www."))
       (Seq (literal "doujindesu.tv/doujin/page/")
          (Seq Digits (Chr "/")))).

Definition isValidUrl (url : string) : bool := test_anchored page_regex url.

(** [`https://doujindesu.tv/doujin/page/${pageNumber}/`]. *)
Definition targetUrl (pageNumber : string) : string :=
  String.append "https://doujindesu.tv/doujin/page/"
    (String.append pageNumber "/").

(** The callback of [$$eval] on the pagination labels; a label is what
    [parseInt] makes of its text, [None] for [NaN]. *)
Definition totalPages (labels : list (option Z)) : Z :=
  foldl (λ max label,
           match label with
           | Some num => if decide (max < num) then num else max
           | None => max
           end) 1 labels.

Record Entry := {
  title : option string;
  thumbnail : option string;
  type : option string;
  chapter : option string;
  time : option string;
  link : option string
}.

(** From [getBrowser()] to [page.close()]. *)
Inductive ScrapeOutcome :=
| Scraped (results : list Entry) (labels : list (option Z))
| ScrapeThrows (message : string).

Inductive Reply :=
| BadRequest400
| Success (data : list Entry) (total : Z) (source : string)
    (cache_control : option string)
| Error500 (message : string).

(** The browser is taken before the page is opened and released on
    both ways out. *)
Inductive Event :=
| EvGetBrowser
| EvReleaseBrowser.

Record Env := {
  now_get : Z;
  now_set : Z;
  scrape : ScrapeOutcome
}.

Definition Cache := gmap string ((list Entry * Z) * Z).

(** [app.get('/doujin', ...)]; the argument is [req.query.page]. *)
Definition doujin (e : Env) (page : option string) (c : Cache)
  : Reply * Cache * list Event :=
  let pageNumber := Lock.param_or page "1" in
  if negb (isValidUrl (targetUrl pageNumber)) then (BadRequest400, c, [])
  else
    let cacheKey := String.append "doujin_page_" pageNumber in
    match Proxy.cache_get (now_get e) cacheKey c with
    | Some (results, total) => (Success results total "cache" None, c, [])
    | None =>
        match scrape e with
        | Scraped results labels =>
            (Success results (totalPages labels) "fresh"
               (Some "public, max-age=600"%string),
             Proxy.cache_set (now_set e) cacheKey
               (results, totalPages labels) c,
             [EvGetBrowser; EvReleaseBrowser])
        | ScrapeThrows message =>
            (Error500 message, c, [EvGetBrowser; EvReleaseBrowser])
        end
    end.

(** *** Predicates and sample inputs used in the statements about [Listing] *)

(** A non-empty string of decimal digits. *)
Definition page_number (s : string) : Prop :=
  s ≠ EmptyString
  ∧ forallb is_digit (String.list_ascii_of_string s) = true.

Definition two_entries : list Entry :=
  [ {| title := Some "A"%string; thumbnail := None; type := None;
       chapter := None; time := None; link := Some "a"%string |};
    {| title := Some "B"%string; thumbnail := None; type := None;
       chapter := None; time := None; link := None |} ].

Definition first_visit : Env :=
  {| now_get := 1000; now_set := 4000;
     scrape := Scraped two_entries [Some 1; None; Some 37; Some 5] |}.

Definition later_visit : Env :=
  {| now_get := 900000; now_set := 900000;
     scrape := ScrapeThrows "Navigation timeout" |}.

End Listing.

(** ** The rate-limiting middleware and its clean-up *)
Module RateLimit.

(** An entry of [rateLimit], the object indexed by client address. *)
Record Entry := {
  count : Z;
  resetTime : Z
}.

Definition State := gmap string Entry.

(** [next()] or the 429 response. *)
Inductive Verdict :=
| Next
| TooMany429.

(** The middleware, for a request of [ip] at time [now] (ms). *)
Definition middleware (ip : string) (now : Z) (st : State) : Verdict * State :=
  match st !! ip with
  | None => (Next, <[ip := {| count := 1; resetTime := now + 60000 |}]> st)
  | Some entry =>
      if decide (resetTime entry < now) then
        (Next, <[ip := {| count := 1; resetTime := now + 60000 |}]> st)
      else
        let entry' := {| count := count entry + 1;
                         resetTime := resetTime entry |} in
        (if decide (60 < count entry') then TooMany429 else Next,
         <[ip := entry']> st)
  end.

(** The interval callback: every entry whose window is over is
    deleted. *)
Definition cleanup (now : Z) (st : State) : State :=
  filter (λ kv : string * Entry, ¬ (resetTime kv.2 < now)) st.

(** Requests of one client, in order, at the given times. *)
Fixpoint requests (ip : string) (times : list Z) (st : State)
  : list Verdict * State :=
  match times with
  | [] => ([], st)
  | now :: times' =>
      let '(v, st1) := middleware ip now st in
      let '(vs, st2) := requests ip times' st1 in
      (v :: vs, st2)
  end.

(** *** Predicates and sample inputs used in the statements about [RateLimit] *)

(** The client has no entry, or one whose window is over at [now]. *)
Definition no_window (ip : string) (now : Z) (st : State) : Prop :=
  match st !! ip with
  | None => True
  | Some entry => resetTime entry < now
  end.

(** The verdict for the request at position [i] of a window: the first
    sixty pass. *)
Definition nth_verdict (i : nat) : Verdict :=
  if decide (i < 60)%nat then Next else TooMany429.

(** Sixty-two requests, one every 100 ms. *)
Definition burst : list Z := (λ i : nat, 5000 + 100 * Z.of_nat i) <$> seq 0 62.

End RateLimit.

(** ** [/auto-fetch]: search, details and chapters of one result page *)
Module AutoFetch.

(** An entry of the search results; a missing field is [None]. *)
Record Item := {
  title : option string;
  link : option string
}.

(** [map.set(k, v)] on a [Map], as the list of its entries in insertion
    order: the value of a present key is replaced in place, a new key is
    added at the end. *)
Fixpoint map_set (k : option string) (v : Item)
    (m : list (option string * Item)) : list (option string * Item) :=
  match m with
  | [] => [(k, v)]
  | (k', v') :: rest =>
      if decide (k' = k) then (k, v) :: rest
      else (k', v') :: map_set k v rest
  end.

(** [Array.from(new Map(allResults.map(item => [item.link, item])).values())]. *)
Definition uniqueResults (allResults : list Item) : list Item :=
  (foldl (λ m item, map_set (link item) item m) [] allResults).*2.

Record ChapterRef := {
  chapterTitle : option string;
  chapterLink : option string
}.

Record Detail := {
  d_title : option string;
  d_url : option string;
  d_chapters : option (list ChapterRef)
}.

(** What the call of [/detail] gives: the parsed reply ([data.success],
    [data.detail]), or the rejection of [fetch] or [json()]. *)
Inductive DetailOutcome :=
| DetailReplied (success : bool) (detail : option Detail)
| DetailRejected (message : string).

Record DetailResult := {
  success : bool;
  detail : Detail;
  originalTitle : option string;
  originalLink : option string;
  error : option string
}.

Inductive ChapterOutcome :=
| ChapterReplied (success : bool) (error : option string)
| ChapterRejected (name message : string).

Inductive ChapterStatus := ch_ok | ch_failed | ch_aborted | ch_fetch_error.

Record ChapterResult := {
  chapter : option string;
  ch_status : ChapterStatus;
  ch_reason : option string
}.

(** The errors thrown inside the callback of a comic. *)
Inductive Thrown :=
| OperationAborted            (* [new Error('Operation aborted')] *)
| LinkUndefined.              (* the [TypeError] of [undefined.replace] *)

Inductive ComicStatus := detail_failed | aborted | processing_error | partial.

Inductive ComicResult :=
| Unprocessed (title link : option string) (status : ComicStatus)
    (reason : string + Thrown)
| Processed (title link : option string) (chaptersFetched totalChapters : nat)
    (chapters : list ChapterResult).

Inductive SearchOutcome :=
| SearchReplied (results : option (list Item))
| SearchRejected (name message : string).

(** The outside world of one run.  The replies are indexed by the
    position of the comic among the unique results and of the chapter
    in its list; [controller.signal.aborted] is indexed by the place of
    the check: at the top of a chunk, and at the top of a chapter batch
    of a comic. *)
Record Env := {
  search : SearchOutcome;
  detail_of : nat → DetailOutcome;
  chapter_of : nat → nat → ChapterOutcome;
  chunk_aborted : nat → bool;
  batch_aborted : nat → nat → bool
}.

(** [a || b] on values that are strings or [undefined]. *)
Definition or_opt (a b : option string) : option string :=
  match a with
  | Some s => if decide (s = EmptyString) then b else a
  | None => b
  end.



(** The promise built for one chapter; it never rejects. *)
Definition chapter_result (ch : ChapterRef) (o : ChapterOutcome) : ChapterResult :=
  match o with
  | ChapterReplied s err =>
      {| chapter := chapterTitle ch;
         ch_status := if s then ch_ok else ch_failed;
         ch_reason := or_opt err None |}
  | ChapterRejected name message =>
      {| chapter := chapterTitle ch;
         ch_status := if decide (name = "AbortError"%string)
                      then ch_aborted else ch_fetch_error;
         ch_reason := Some message |}
  end.

(** [for (let i = 0; i < l.length; i += size) chunks.push(l.slice(i, i + size))],
    for a step [size = S step]. *)
Equations? slices {A} (step : nat) (l : list A) (i : nat) : list (list A)
    by wf (length l - i)%nat lt :=
  slices step l i :=
    match decide (i < length l)%nat with
    | left _ => take (S step) (drop i l) :: slices step l (i + S step)
    | right _ => []
    end.
Proof. lia. Qed.

(** The loop over the chapter batches of comic [c]; [j] is the index of
    the first chapter of the batch.  The check at the top of a batch
    throws, and so does [chap.chapterLink.replace] when a chapter of
    the batch has no link. *)
Fixpoint batch_loop (e : Env) (c b j : nat) (batches : list (list ChapterRef))
    (chapterResults : list ChapterResult) : list ChapterResult + Thrown :=
  match batches with
  | [] => inl chapterResults
  | batch :: rest =>
      if batch_aborted e c b then inr OperationAborted
      else if existsb (λ ch, bool_decide (chapterLink ch = None)) batch
      then inr LinkUndefined
      else
        batch_loop e c (S b) (j + length batch) rest
          (chapterResults ++
           imap (λ i ch, chapter_result ch (chapter_of e c (j + i))) batch)
  end.

(** The callback of [chunk.map] for the comic at position [c].  What
    its [try] block throws is an [Error] or a [TypeError], so the
    [catch] block reports [processing_error]. *)
Definition process_comic (e : Env) (c : nat) (r : DetailResult) : ComicResult :=
  if negb (success r) then
    Unprocessed (originalTitle r) (originalLink r) detail_failed
      (inl (default "Unknown error"%string (or_opt (error r) None)))
  else
    let chapters := default [] (d_chapters (detail r)) in
    match batch_loop e c 0 0 (slices 4 chapters 0) [] with
    | inl chapterResults =>
        Processed (or_opt (d_title (detail r)) (originalTitle r))
          (or_opt (d_url (detail r)) (originalLink r))
          (length chapterResults) (length chapters) chapterResults
    | inr thrown =>
        Unprocessed (originalTitle r) (originalLink r) processing_error
          (inr thrown)
    end.

(** The loop over the chunks of [processComics]; [None] when the check
    at the top of a chunk throws and the [catch] rethrows. *)
Fixpoint chunk_loop (e : Env) (chunkIndex : nat)
    (chunks : list (list DetailResult)) (results : list ComicResult)
  : option (list ComicResult) :=
  match chunks with
  | [] => Some results
  | chunk :: rest =>
      if chunk_aborted e chunkIndex then None
      else
        chunk_loop e (S chunkIndex) rest
          (results ++
           imap (λ comicIndex r, process_comic e (chunkIndex * 3 + comicIndex) r)
             chunk)
  end.



Inductive Failure :=
| TimedOut
| Message (message : string)
| TypeErrorMessage.

Inductive Response :=
| Nothing200
| Fetched200 (page : Z) (totalFetched : nat) (results : list ComicResult)
| Partial202 (page : Z) (partialResults : list ComicResult)
| Error500 (error : Failure).


(** *** Predicates and sample inputs used in the statements about [AutoFetch] *)

(** The last entry of [items] with the link [k]. *)
Definition last_with (k : option string) (items : list Item) : option Item :=
  last (List.filter (λ item, bool_decide (link item = k)) items).


Definition item (t l : string) : Item := {| title := Some t; link := Some l |}.

Definition four_items : list Item :=
  [item "A" "https://doujindesu.tv/manga/a/";
   item "B" "https://doujindesu.tv/manga/b/";
   item "A again" "https://doujindesu.tv/manga/a/";
   item "C" "https://doujindesu.tv/manga/c/"].



End AutoFetch.

(** ** [/auto-thumbnail]: the thumbnails of a range of result pages *)
Module AutoThumbnail.

(** The parsed reply of [/search], as far as the handler looks at it.
    An element of a list is the [thumbnail] of an item, [None] for an
    item that is falsy or has none. *)
Inductive SearchData :=
| Object (thumbnail : option string) (results : option (list (option string)))
| Array (items : list (option string))
| Neither.

Inductive SearchOutcome :=
| SearchReplied (searchData : SearchData)
| SearchRejected (name message : string).

(** The call of [/get] for one thumbnail: [data.cdnUrl], or the
    rejection of [fetch] or [json()]. *)
Inductive GetOutcome :=
| GetReplied (cdnUrl : option string)
| GetRejected (name message : string).

Inductive Status := success | failed | aborted | error.

Record Result := {
  page : option Z;
  originalThumbnail : string;
  cdnUrl : option string;
  status : Status;
  reason : option string
}.

(** The outside world of one run, indexed by the iteration of the page
    loop (the first iteration is 0): what [controller.signal.aborted]
    reads at the top of the iteration and at the top of each of its
    chunks, the reply of [/search], and the replies of [/get] by the
    position of the thumbnail. *)
Record Env := {
  page_aborted : nat → bool;
  search_of : nat → SearchOutcome;
  chunk_aborted : nat → nat → bool;
  get_of : nat → nat → GetOutcome
}.

(** A value that is a non-empty string. *)
Definition truthy (x : option string) : option string :=
  match x with
  | Some s => if decide (s = EmptyString) then None else Some s
  | None => None
  end.

(** The three shapes of the reply, tried in this order. *)
Definition thumbnails_of (searchData : SearchData) : list string :=
  match searchData with
  | Object thumbnail results =>
      match truthy thumbnail with
      | Some t => [t]
      | None =>
          match results with
          | Some items => omap truthy items
          | None => []
          end
      end
  | Array items => omap truthy items
  | Neither => []
  end.

(** [[...new Set(thumbnails)]]: the values in the order of their first
    occurrence. *)
Definition set_values (thumbnails : list string) : list string :=
  foldl (λ acc x, if decide (x ∈ acc) then acc else acc ++ [x]) [] thumbnails.

(** The callback of [chunk.map]; it never rejects.  The entry of a
    reply without CDN URL has no [page]. *)
Definition thumbnail_result (currentPage : Z) (thumbnailUrl : string)
    (o : GetOutcome) : Result :=
  match o with
  | GetReplied c =>
      match truthy c with
      | Some cdn =>
          {| page := Some currentPage; originalThumbnail := thumbnailUrl;
             cdnUrl := Some cdn; status := success; reason := None |}
      | None =>
          {| page := None; originalThumbnail := thumbnailUrl;
             cdnUrl := None; status := failed;
             reason := Some "No CDN URL returned"%string |}
      end
  | GetRejected name message =>
      {| page := Some currentPage; originalThumbnail := thumbnailUrl;
         cdnUrl := None;
         status := if decide (name = "AbortError"%string)
                   then aborted else error;
         reason := Some message |}
  end.

(** The loop over the chunks of [processThumbnails] in iteration [it]
    of the page loop; [i] is the position of the first thumbnail of the
    chunk; [None] when the check at the top of a chunk throws and the
    [catch] rethrows. *)
Fixpoint chunk_loop (e : Env) (it : nat) (currentPage : Z) (chunkIndex i : nat)
    (chunks : list (list string)) (results : list Result)
  : option (list Result) :=
  match chunks with
  | [] => Some results
  | chunk :: rest =>
      if chunk_aborted e it chunkIndex then None
      else
        chunk_loop e it currentPage (S chunkIndex) (i + length chunk) rest
          (results ++
           imap (λ index url,
                   thumbnail_result currentPage url (get_of e it (i + index)))
             chunk)
  end.

Definition processThumbnails (e : Env) (it : nat) (currentPage : Z)
    (thumbnails : list string) : option (list Result) :=
  chunk_loop e it currentPage 0 0 (AutoFetch.slices 2 thumbnails 0) [].

(** The errors that the [catch] blocks rethrow. *)
Definition stops_run (name message : string) : bool :=
  bool_decide (name = "AbortError"%string)
  || bool_decide (message = "Operation aborted"%string).

(** The [try] block of one page with its [catch]: the results to add
    ([[]] when the page is skipped or its error swallowed), or [None]
    when the error is rethrown. *)
Definition page_body (e : Env) (it : nat) (currentPage : Z)
  : option (list Result) :=
  match search_of e it with
  | SearchRejected name message =>
      if stops_run name message then None else Some []
  | SearchReplied searchData =>
      match thumbnails_of searchData with
      | [] => Some []
      | thumbnails =>
          processThumbnails e it currentPage (set_values thumbnails)
      end
  end.

(** How the page loop ends: it runs to its end, or an abort leaves it;
    [StillLooping] when [fuel] iterations were not enough. *)
Inductive Loop :=
| Finished (thumbnailResults : list Result) (currentProcessedPage : Z)
| Aborted (thumbnailResults : list Result) (currentProcessedPage : Z)
| StillLooping.

(** [for (let currentPage = startPage; currentPage <= endPage;
    currentPage++)], from iteration [it] on and for at most [fuel]
    iterations.  The increment is an addition on doubles. *)
Fixpoint page_loop (e : Env) (fuel it : nat) (currentPage endPage : Z)
    (thumbnailResults : list Result) (currentProcessedPage : Z) : Loop :=
  if decide (currentPage ≤ endPage) then
    match fuel with
    | O => StillLooping
    | S fuel' =>
        if page_aborted e it then Aborted thumbnailResults currentPage
        else
          match page_body e it currentPage with
          | None => Aborted thumbnailResults currentPage
          | Some pageThumbnailResults =>
              page_loop e fuel' (S it) (Number.add currentPage 1) endPage
                (thumbnailResults ++ pageThumbnailResults) currentPage
          end
    end
  else Finished thumbnailResults currentProcessedPage.

Definition is_success (r : Result) : bool :=
  match status r with success => true | _ => false end.

Record Report := {
  processedPages : Z;
  totalPages : Z;
  total : nat;
  successCount : nat;
  failedCount : nat;
  thumbnails : list Result
}.

Inductive Response :=
| Done200 (report : Report)
| Partial202 (report : Report).

Definition report_of (startPage endPage : Z) (thumbnailResults : list Result)
    (currentProcessedPage : Z) : Report :=
  {| processedPages := Number.add (Number.sub currentProcessedPage startPage) 1;
     totalPages := Number.add (Number.sub endPage startPage) 1;
     total := length thumbnailResults;
     successCount := length (List.filter is_success thumbnailResults);
     failedCount :=
       length (List.filter (λ r, negb (is_success r)) thumbnailResults);
     thumbnails := thumbnailResults |}.

(** The handler once the lock is taken, for the page range computed
    from the parameters; [None] while the page loop is still running
    after [fuel] iterations. *)
Definition auto_thumbnail (e : Env) (fuel : nat) (startPage endPage : Z)
  : option Response :=
  match page_loop e fuel 0 startPage endPage [] 0 with
  | Finished thumbnailResults currentProcessedPage =>
      Some (Done200 (report_of startPage endPage thumbnailResults
                       currentProcessedPage))
  | Aborted thumbnailResults currentProcessedPage =>
      Some (Partial202 (report_of startPage endPage thumbnailResults
                          currentProcessedPage))
  | StillLooping => None
  end.

(** *** Predicates and sample inputs used in the statements about [AutoThumbnail] *)

(** The distinct thumbnails of the page of iteration [it], as the
    handler extracts them. *)
Definition page_thumbnails (e : Env) (it : nat) : list string :=
  match search_of e it with
  | SearchReplied searchData => set_values (thumbnails_of searchData)
  | SearchRejected _ _ => []
  end.


(** Nothing stops the run in iteration [it]. *)
Definition undisturbed (e : Env) (it : nat) : Prop :=
  page_aborted e it = false
  ∧ (∀ k, chunk_aborted e it k = false)
  ∧ (∀ name message, search_of e it = SearchRejected name message →
       stops_run name message = false).

(** The run is stopped in iteration [it], at the top of the page or
    inside it. *)
Definition stopped_in (e : Env) (it : nat) (currentPage : Z) : Prop :=
  page_aborted e it = true ∨ page_body e it currentPage = None.


(** The deadline fires after the first page of the range. *)
Definition stopped_on_second_page : Env :=
  {| page_aborted := λ it, bool_decide (1 ≤ it)%nat;
     search_of := λ _, SearchReplied
                         (Object (Some "https://t.example/0.jpg"%string) None);
     chunk_aborted := λ _ _, false;
     get_of := λ _ _, GetRejected "FetchError" "socket hang up" |}.

(** No page has a thumbnail and the deadline never fires. *)
Definition nothing_found : Env :=
  {| page_aborted := λ _, false;
     search_of := λ _, SearchReplied Neither;
     chunk_aborted := λ _ _, false;
     get_of := λ _ _, GetReplied None |}.

End AutoThumbnail.

(** * Part II: the properties *)

(** ** Properties of [fetchImageBuffer] *)

Module FetchProps.
Import Fetch.


(** One failed attempt that is retried. *)
Lemma fetchImageBuffer_retry net url referer rc rt e :
  try_body (net (issued rt)) = Thrown e → (rc < 3)%nat →
  fetchImageBuffer net url referer rc rt =
    (let rt4 := sleep (1000 * 2 ^ Z.of_nat rc)
                  (clearTimeout (next_timer rt)
                     (do_fetch net url referer (createTimeout 20000 rt).2).2) in
     ((fetchImageBuffer net url referer (S rc) rt4).1,
      clearTimeout (next_timer rt) (fetchImageBuffer net url referer (S rc) rt4).2)).
Proof.
  intros He Hlt. rewrite fetchImageBuffer_equation_1. cbn.
  rewrite He. destruct (decide (rc < 3)%nat) as [_|]; [|lia].
  cbn. now destruct (fetchImageBuffer _ _ _ _ _).
Qed.

(** The last failed attempt: the error is thrown to the caller. *)
Lemma fetchImageBuffer_give_up net url referer rc rt e :
  try_body (net (issued rt)) = Thrown e → ¬ (rc < 3)%nat →
  fetchImageBuffer net url referer rc rt =
    (Thrown e,
     clearTimeout (next_timer rt)
       (clearTimeout (next_timer rt)
          (do_fetch net url referer (createTimeout 20000 rt).2).2)).
Proof.
  intros He Hge. rewrite fetchImageBuffer_equation_1. cbn.
  rewrite He. now destruct (decide (rc < 3)%nat).
Qed.

Lemma fetchImageBuffer_done net url referer rc rt b :
  try_body (net (issued rt)) = Fulfilled b →
  fetchImageBuffer net url referer rc rt =
    (Fulfilled b,
     clearTimeout (next_timer rt)
       (do_fetch net url referer (createTimeout 20000 rt).2).2).
Proof.
  intros He. rewrite fetchImageBuffer_equation_1. cbn. now rewrite He.
Qed.




End FetchProps.

(** ** Properties of the pool *)

Module PoolProps.
Import Pool.
Local Open Scope nat_scope.








(** The idle pool, too, can outgrow [P] across a recycle: a session
    released while the pool is being refilled is pushed next to the
    newly launched ones. *)
Lemma idle_pool_exceeds_pool_size :
  ∃ s, run 3 release_during_recycle startup = Some s
     ∧ browserPool s = [0; 3; 4; 5].
Proof. eexists. split; [vm_compute; reflexivity | reflexivity]. Qed.




End PoolProps.

(** ** Properties of the locks *)

Module LockProps.
Import Lock.

Lemma filter_negb_same {A} (f : A → bool) l :
  List.filter f (List.filter (λ x, negb (f x)) l) = [].
Proof.
  induction l as [|x l IH]; cbn; [reflexivity|].
  destruct (f x) eqn:Hx; cbn; [exact IH|]. now rewrite Hx.
Qed.

Lemma filter_fetch_thumbnail l :
  List.filter holds_fetch_lock (List.filter (λ j, negb (holds_thumbnail_lock j)) l)
  = List.filter holds_fetch_lock l.
Proof.
  induction l as [|[o|o] l IH]; cbn; [reflexivity| |exact IH].
  now rewrite IH.
Qed.

Lemma filter_thumbnail_fetch l :
  List.filter holds_thumbnail_lock (List.filter (λ j, negb (holds_fetch_lock j)) l)
  = List.filter holds_thumbnail_lock l.
Proof.
  induction l as [|[o|o] l IH]; cbn; [reflexivity|exact IH|].
  now rewrite IH.
Qed.

Lemma step_consistent a s r s' :
  consistent s → step a s = Some (r, s') → consistent s'.
Proof.
  unfold consistent, fetch_lock_consistent, thumbnail_lock_consistent,
    fetch_lock_jobs, thumbnail_jobs.
  intros [Hf Ht] Hstep. destruct a; cbn in Hstep.
  - unfold auto_json_start in Hstep.
    destruct (autoFetchInProgress s) eqn:Hflag;
      injection Hstep as <- <-; cbn.
    + rewrite Hflag. auto.
    + destruct Hf as [_ Hf]. split; [|exact Ht].
      eexists. split; [reflexivity|]. now rewrite Hf.
  - unfold auto_fetch_start in Hstep.
    destruct (falsy q); [injection Hstep as <- <-; auto|].
    destruct (autoFetchInProgress s) eqn:Hflag;
      injection Hstep as <- <-; cbn.
    + rewrite Hflag. auto.
    + destruct Hf as [_ Hf]. split; [|exact Ht].
      eexists. split; [reflexivity|]. now rewrite Hf.
  - unfold auto_thumbnail_start in Hstep.
    destruct (falsy q); [injection Hstep as <- <-; auto|].
    destruct (autoThumbnailInProgress s) eqn:Hflag;
      injection Hstep as <- <-; cbn.
    + rewrite Hflag. auto.
    + destruct Ht as [_ Ht]. split; [exact Hf|].
      eexists. split; [reflexivity|]. now rewrite Ht.
  - destruct (existsb holds_fetch_lock (running s)); [|discriminate].
    injection Hstep as <- <-. cbn. split.
    + split; [reflexivity|]. apply filter_negb_same.
    + now rewrite filter_thumbnail_fetch.
  - destruct (existsb holds_thumbnail_lock (running s)); [|discriminate].
    injection Hstep as <- <-. cbn. split.
    + now rewrite filter_fetch_thumbnail.
    + split; [reflexivity|]. apply filter_negb_same.
Qed.

Lemma run_consistent acts : ∀ s rs s',
  consistent s → run acts s = Some (rs, s') → consistent s'.
Proof.
  induction acts as [|a acts IH]; intros s rs s' Hs Hrun; cbn in Hrun.
  - now injection Hrun as <- <-.
  - destruct (step a s) as [[r s1]|] eqn:Hstep; [|discriminate].
    destruct (run acts s1) as [[rs1 s2]|] eqn:Hrest; [|discriminate].
    injection Hrun as <- <-.
    eapply IH; [|exact Hrest]. eapply step_consistent; eauto.
Qed.

Lemma idle_consistent : consistent idle.
Proof. repeat split. Qed.

Lemma running_fetch_job s o :
  fetch_lock_consistent s → In (FetchLockJob o) (running s) →
  autoFetchInProgress s = true ∧ currentAutoFetchOperation s = Some o.
Proof.
  unfold fetch_lock_consistent, fetch_lock_jobs. intros Hf Hin.
  assert (In (FetchLockJob o) (List.filter holds_fetch_lock (running s))) as Hin'
    by (apply filter_In; auto).
  destruct (autoFetchInProgress s).
  - destruct Hf as (o' & Hcur & Hjobs). rewrite Hjobs in Hin'.
    destruct Hin' as [Heq|[]]. injection Heq as ->. auto.
  - destruct Hf as [_ Hjobs]. rewrite Hjobs in Hin'. destruct Hin'.
Qed.

Lemma running_thumbnail_job s o :
  thumbnail_lock_consistent s → In (ThumbnailJob o) (running s) →
  autoThumbnailInProgress s = true ∧ currentThumbnailOperation s = Some o.
Proof.
  unfold thumbnail_lock_consistent, thumbnail_jobs. intros Hf Hin.
  assert (In (ThumbnailJob o) (List.filter holds_thumbnail_lock (running s)))
    as Hin' by (apply filter_In; auto).
  destruct (autoThumbnailInProgress s).
  - destruct Hf as (o' & Hcur & Hjobs). rewrite Hjobs in Hin'.
    destruct Hin' as [Heq|[]]. injection Heq as ->. auto.
  - destruct Hf as [_ Hjobs]. rewrite Hjobs in Hin'. destruct Hin'.
Qed.

(** C4, the statement as the specification has it, fails: while an
    [/auto-fetch] job is in flight an [/auto-thumbnail] request is not
    answered 429 but starts a second job beside it. *)
Lemma thumbnail_job_beside_fetch_job :
  ∃ s, run [ReqAutoFetch (Some "isekai") 1 1000;
            ReqAutoThumbnail (Some "isekai") 1 1 2000] idle
       = Some ([Some Started; Some Started], s)
     ∧ length (running s) = 2%nat.
Proof. eexists. split; reflexivity. Qed.

(** Nor does the 429 always name the job in flight: [/auto-json] reports
    the [file] field of the operation record, which an [/auto-fetch] job
    does not have. *)
Lemma busy_reply_without_identity :
  ∃ s, run [ReqAutoFetch (Some "isekai") 1 1000;
            ReqAutoJson (Some "slug.json") 61000] idle
       = Some ([Some Started; Some (Busy429 None (Some 1000) 60)], s).
Proof. eexists. reflexivity. Qed.

(** C4, amended.  There are two locks, one shared by [/auto-fetch] and
    [/auto-json] and one for [/auto-thumbnail].  In every reachable
    state at most one job holds each lock; while a job holds a lock,
    every batch-start request to an endpoint of that lock (carrying its
    query parameter, where one is required) is answered 429 with the
    job's start time and the whole seconds elapsed since, starts nothing
    and leaves the state as it is; the reply also carries the job's
    [file] or [query] when the job came through the same endpoint (and
    always for [/auto-thumbnail]). *)
Theorem single_flight_per_lock acts rs s :
  run acts idle = Some (rs, s) →
  (length (fetch_lock_jobs s) ≤ 1 ∧ length (thumbnail_jobs s) ≤ 1)%nat
  ∧ (∀ o, In (FetchLockJob o) (running s) →
       (∀ file now,
          auto_json_start file now s =
            (Busy429 (op_file o) (Some (op_startedAt o))
               ((now - op_startedAt o) / 1000), s))
       ∧ (∀ q page now, falsy q = false →
          auto_fetch_start q page now s =
            (Busy429 (op_query o) (Some (op_startedAt o))
               ((now - op_startedAt o) / 1000), s)))
  ∧ (∀ o, In (ThumbnailJob o) (running s) →
       ∀ q page maxPages now, falsy q = false →
         auto_thumbnail_start q page maxPages now s =
           (Busy429 (Some (th_query o)) (Some (th_startedAt o))
              ((now - th_startedAt o) / 1000), s)).
Proof.
  intros Hrun.
  destruct (run_consistent acts idle rs s idle_consistent Hrun) as [Hf Ht].
  split; [|split].
  - unfold fetch_lock_consistent, thumbnail_lock_consistent in *.
    destruct (autoFetchInProgress s), (autoThumbnailInProgress s);
      destruct Hf as (? & ? & Hf) || destruct Hf as (? & Hf);
      destruct Ht as (? & ? & Ht) || destruct Ht as (? & Ht);
      rewrite Hf, Ht; cbn; lia.
  - intros o Hin. destruct (running_fetch_job s o Hf Hin) as [Hflag Hcur].
    split.
    + intros file now. unfold auto_json_start. now rewrite Hflag, Hcur.
    + intros q page now Hq. unfold auto_fetch_start.
      now rewrite Hq, Hflag, Hcur.
  - intros o Hin q page maxPages now Hq.
    destruct (running_thumbnail_job s o Ht Hin) as [Hflag Hcur].
    unfold auto_thumbnail_start. now rewrite Hq, Hflag, Hcur.
Qed.

Lemma single_flight_per_lock_witness :
  ∃ s, run [ReqAutoJson None 5000; ReqAutoThumbnail (Some "isekai") 2 3 6000] idle
       = Some ([Some Started; Some Started], s)
     ∧ auto_fetch_start (Some "elf") 1 9500 s
       = (Busy429 None (Some 5000) 4, s)
     ∧ auto_json_start (Some "other.json") 9500 s
       = (Busy429 (Some "slug.json") (Some 5000) 4, s).
Proof.
  eexists. split; [reflexivity|].
  match goal with |- auto_fetch_start _ _ _ ?s = _ ∧ _ =>
    destruct (single_flight_per_lock
                [ReqAutoJson None 5000; ReqAutoThumbnail (Some "isekai") 2 3 6000]
                [Some Started; Some Started] s eq_refl) as (_ & H & _)
  end.
  destruct (H (JsonOperation "slug.json" 5000)) as [Hj Hq].
  - cbn. auto.
  - split.
    + exact (Hq (Some "elf"%string) 1 9500 eq_refl).
    + exact (Hj (Some "other.json"%string) 9500).
Defined.

End LockProps.

(** ** Properties of the comic store and of [/get-comic] *)

Module ComicProps.
Import Comic.

#[local] Arguments is_comma : simpl never.

(** [split] after [join]. *)

Lemma split_nonempty s : split s ≠ [].
Proof.
  destruct s as [|c s]; cbn; [discriminate|].
  destruct (is_comma c); [discriminate|].
  destruct (split s); discriminate.
Qed.

Lemma split_no_comma s : has_comma s = false → split s = [s].
Proof.
  induction s as [|c s IH]; cbn; [reflexivity|].
  intros H. apply orb_false_iff in H as [Hc Hs].
  rewrite Hc, (IH Hs). reflexivity.
Qed.

Lemma split_append s rest :
  has_comma s = false →
  split (String.append s (String ","%char rest)) = s :: split rest.
Proof.
  induction s as [|c s IH]; cbn; [reflexivity|].
  intros H. apply orb_false_iff in H as [Hc Hs].
  change (split (String c (String.append s (String ","%char rest)))
          = String c s :: split rest).
  cbn [split]. rewrite Hc, (IH Hs). reflexivity.
Qed.

Lemma split_join l :
  l ≠ [] → Forall (λ u, has_comma u = false) l → split (join l) = l.
Proof.
  induction l as [|u l IH]; [congruence|].
  intros _ Hall. inversion_clear Hall as [|? ? Hu Hl].
  destruct l as [|v l].
  - cbn. now apply split_no_comma.
  - change (join (u :: v :: l))
      with (String.append u (String ","%char (join (v :: l)))).
    rewrite split_append by exact Hu.
    f_equal. apply IH; [discriminate | exact Hl].
Qed.

Lemma append_empty a b : String.append a b = EmptyString → a = EmptyString.
Proof. destruct a; [reflexivity | discriminate]. Qed.

Lemma join_not_empty u l : u ≠ EmptyString → join (u :: l) ≠ EmptyString.
Proof.
  intros Hu Hj. destruct l as [|v l]; cbn in Hj; [contradiction|].
  now apply append_empty in Hj.
Qed.

(** One statement of [getComicFromDB]: answered, or thrown. *)
Lemma getComicFromDB_answered slug rc d :
  hd false (faults d) = false →
  getComicFromDB slug rc d =
    (read_row (comics d !! slug), (send (SelectImageUrl slug) d).2).
Proof.
  intros Hh. rewrite getComicFromDB_equation_1.
  unfold select_image_url, send. rewrite Hh. cbn.
  destruct (comics d !! slug) as [row|]; cbn; [|reflexivity].
  now destruct (decide (image_url row = EmptyString)).
Qed.

Lemma getComicFromDB_thrown slug rc d :
  hd false (faults d) = true →
  getComicFromDB slug rc d =
    if decide (rc < 2)%nat
    then getComicFromDB slug (S rc) (send (SelectImageUrl slug) d).2
    else (None, (send (SelectImageUrl slug) d).2).
Proof.
  intros Hh. rewrite getComicFromDB_equation_1.
  unfold select_image_url, send. rewrite Hh. cbn.
  now destruct (decide (rc < 2)%nat).
Qed.

Lemma getComicFromDB_comics n : ∀ slug rc d,
  (2 - rc ≤ n)%nat → comics (getComicFromDB slug rc d).2 = comics d.
Proof.
  induction n as [|n IH]; intros slug rc d Hn;
    destruct (hd false (faults d)) eqn:Hh;
    first [rewrite (getComicFromDB_answered _ _ _ Hh)
          |rewrite (getComicFromDB_thrown _ _ _ Hh)]; try reflexivity.
  - destruct (decide (rc < 2)%nat); [lia | reflexivity].
  - destruct (decide (rc < 2)%nat); [|reflexivity].
    rewrite IH by lia. reflexivity.
Qed.

Lemma accepts_thrown k f :
  hd false f = true → accepts (S k) f = accepts k (tl f).
Proof. intros H. cbn. now rewrite H. Qed.

Lemma getComicFromDB_reads n : ∀ slug rc d,
  (2 - rc ≤ n)%nat → accepts (3 - rc) (faults d) = true →
  (getComicFromDB slug rc d).1 = read_row (comics d !! slug).
Proof.
  induction n as [|n IH]; intros slug rc d Hn Hacc;
    destruct (hd false (faults d)) eqn:Hh.
  - exfalso. destruct (3 - rc)%nat as [|[|k]] eqn:Hk; [discriminate| |lia].
    rewrite accepts_thrown in Hacc by exact Hh. discriminate.
  - now rewrite (getComicFromDB_answered _ _ _ Hh).
  - rewrite (getComicFromDB_thrown _ _ _ Hh).
    destruct (3 - rc)%nat as [|k] eqn:Hk; [discriminate|].
    rewrite accepts_thrown in Hacc by exact Hh.
    destruct (decide (rc < 2)%nat) as [Hlt|Hge].
    + replace k with (3 - S rc)%nat in Hacc by lia.
      rewrite IH; [reflexivity | lia | exact Hacc].
    + assert (k = 0)%nat as -> by lia. discriminate.
  - now rewrite (getComicFromDB_answered _ _ _ Hh).
Qed.

(** [saveComicToDB] without anything to save. *)
Lemma saveComicToDB_nothing slug fullUrl imageUrls rc d :
  match imageUrls with
  | None => True
  | Some l => List.filter not_null_or_undefined l = []
  end →
  saveComicToDB slug fullUrl imageUrls rc d = (false, d).
Proof.
  intros H. rewrite saveComicToDB_equation_1.
  destruct imageUrls as [[|v l]|]; try reflexivity.
  cbv zeta. now rewrite H.
Qed.

Lemma saveComicToDB_answered slug fullUrl l rc d :
  List.filter not_null_or_undefined l ≠ [] →
  hd false (faults d) = false →
  saveComicToDB slug fullUrl (Some l) rc d =
    (true,
     {| comics :=
          <[slug := upsert_row (comics d !! slug) fullUrl
                      (join (js_text <$> List.filter not_null_or_undefined l))
                      (length (List.filter not_null_or_undefined l))]> (comics d);
        statements := statements d ++ [upsert_of slug fullUrl l];
        faults := tl (faults d) |}).
Proof.
  intros Hne Hh. rewrite saveComicToDB_equation_1.
  destruct l as [|v l]; [now cbn in Hne|]. cbv zeta.
  destruct (List.filter not_null_or_undefined (v :: l)) as [|v' l'] eqn:Hf;
    [congruence|].
  unfold upsert_comic, send, upsert_of. rewrite Hh, Hf. reflexivity.
Qed.

Lemma saveComicToDB_thrown slug fullUrl l rc d :
  List.filter not_null_or_undefined l ≠ [] →
  hd false (faults d) = true →
  saveComicToDB slug fullUrl (Some l) rc d =
    if decide (rc < 2)%nat
    then saveComicToDB slug fullUrl (Some l) (S rc)
           (send (upsert_of slug fullUrl l) d).2
    else (false, (send (upsert_of slug fullUrl l) d).2).
Proof.
  intros Hne Hh. rewrite saveComicToDB_equation_1.
  destruct l as [|v l]; [now cbn in Hne|]. cbv zeta.
  destruct (List.filter not_null_or_undefined (v :: l)) as [|v' l'] eqn:Hf;
    [congruence|].
  unfold upsert_comic, send, upsert_of. rewrite Hh, Hf. cbn.
  now destruct (decide (rc < 2)%nat).
Qed.

(** [saveComicToDB] with something to save, when the driver answers one
    of the three attempts. *)
Lemma saveComicToDB_writes n : ∀ slug fullUrl l rc d,
  (2 - rc ≤ n)%nat →
  List.filter not_null_or_undefined l ≠ [] →
  accepts (3 - rc) (faults d) = true →
  (saveComicToDB slug fullUrl (Some l) rc d).1 = true
  ∧ comics (saveComicToDB slug fullUrl (Some l) rc d).2 =
      <[slug := upsert_row (comics d !! slug) fullUrl
                  (join (js_text <$> List.filter not_null_or_undefined l))
                  (length (List.filter not_null_or_undefined l))]> (comics d).
Proof.
  induction n as [|n IH]; intros slug fullUrl l rc d Hn Hne Hacc;
    destruct (hd false (faults d)) eqn:Hh.
  - exfalso. destruct (3 - rc)%nat as [|[|k]] eqn:Hk; [discriminate| |lia].
    rewrite accepts_thrown in Hacc by exact Hh. discriminate.
  - now rewrite (saveComicToDB_answered _ _ _ _ _ Hne Hh).
  - rewrite (saveComicToDB_thrown _ _ _ _ _ Hne Hh).
    destruct (3 - rc)%nat as [|k] eqn:Hk; [discriminate|].
    rewrite accepts_thrown in Hacc by exact Hh.
    destruct (decide (rc < 2)%nat) as [Hlt|Hge].
    + replace k with (3 - S rc)%nat in Hacc by lia.
      destruct (IH slug fullUrl l (S rc) (send (upsert_of slug fullUrl l) d).2
                  ltac:(lia) Hne Hacc) as [H1 H2].
      split; [exact H1 | exact H2].
    + assert (k = 0)%nat as -> by lia. discriminate.
  - now rewrite (saveComicToDB_answered _ _ _ _ _ Hne Hh).
Qed.

(** [saveComicToDB] when the driver throws at every attempt. *)
Lemma saveComicToDB_gives_up n : ∀ slug fullUrl l rc d,
  (2 - rc ≤ n)%nat → (rc ≤ 2)%nat →
  accepts (3 - rc) (faults d) = false →
  (saveComicToDB slug fullUrl (Some l) rc d).1 = false
  ∧ comics (saveComicToDB slug fullUrl (Some l) rc d).2 = comics d.
Proof.
  induction n as [|n IH]; intros slug fullUrl l rc d Hn Hrc Hacc;
    (destruct (decide (List.filter not_null_or_undefined l = [])) as [He|Hne];
       [now rewrite saveComicToDB_nothing|]);
    (destruct (3 - rc)%nat as [|k] eqn:Hk; [lia|]);
    (destruct (hd false (faults d)) eqn:Hh;
       [|cbn in Hacc; rewrite Hh in Hacc; discriminate]);
    rewrite (saveComicToDB_thrown _ _ _ _ _ Hne Hh);
    destruct (decide (rc < 2)%nat) as [Hlt|Hge]; auto; [lia|].
  rewrite accepts_thrown in Hacc by exact Hh.
  replace k with (3 - S rc)%nat in Hacc by lia.
  destruct (IH slug fullUrl l (S rc) (send (upsert_of slug fullUrl l) d).2
              ltac:(lia) ltac:(lia) Hacc) as [H1 H2].
  split; [exact H1 | exact H2].
Qed.

(** The upload loop. *)

Lemma upload_image_settles att : ∀ n retries,
  (3 - retries ≤ n)%nat → (retries ≤ 2)%nat →
  upload_image att retries ≠ JsUndefined.
Proof.
  induction n as [|n IH]; intros retries Hn Hr; [lia|].
  rewrite upload_image_equation_1.
  destruct (decide (retries ≤ 2)%nat); [|lia].
  destruct (att retries); [discriminate|].
  destruct (decide (2 < S retries)%nat); [discriminate|].
  apply IH; lia.
Qed.

Lemma upload_one_settles e index url : upload_one e index url ≠ JsUndefined.
Proof. apply (upload_image_settles _ 3); lia. Qed.

Lemma filter_not_null_strings (f : nat → string → JsValue) : ∀ l,
  (∀ i u, f i u ≠ JsUndefined) →
  List.filter not_null (imap f l) = JsString <$> omap js_string (imap f l).
Proof.
  intros l. revert f. induction l as [|x l IH]; intros f Hf; [reflexivity|].
  cbn. specialize (IH (f ∘ S) (λ i u, Hf (S i) u)).
  destruct (f 0%nat x) eqn:Hx; cbn; rewrite IH; try reflexivity.
  now destruct (Hf 0%nat x).
Qed.

Lemma upload_batches_flat upload imageUrls n : ∀ i uploadedUrls,
  (length imageUrls - i ≤ n)%nat →
  upload_batches upload imageUrls i uploadedUrls =
    uploadedUrls ++
    List.filter not_null
      (imap (λ k url, upload (i + k)%nat url) (drop i imageUrls)).
Proof.
  induction n as [|n IH]; intros i acc Hn;
    rewrite upload_batches_equation_1;
    destruct (decide (i < length imageUrls)%nat) as [Hlt|Hge]; try lia.
  - rewrite drop_ge by lia. cbn. now rewrite app_nil_r.
  - cbv zeta. rewrite IH by lia. rewrite <- app_assoc. f_equal.
    rewrite <- List.filter_app. f_equal.
    assert (drop i imageUrls
            = take 3 (drop i imageUrls) ++ drop (i + 3) imageUrls) as Hsplit
      by (rewrite <- drop_drop; symmetry; apply take_drop).
    set (batch := take 3 (drop i imageUrls)) in *.
    rewrite Hsplit, imap_app. f_equal.
    destruct (decide (i + 3 < length imageUrls)%nat) as [Hmore|Hlast].
    + apply imap_ext. intros k x _. cbn. subst batch.
      rewrite length_take, length_drop. f_equal. lia.
    + rewrite drop_ge by lia. reflexivity.
  - rewrite drop_ge by lia. cbn. now rewrite app_nil_r.
Qed.

(** The handler's [uploadedUrls]: the CDN URLs of the images whose upload
    succeeded, in the order of the images. *)
Lemma upload_batches_cdn_urls e imageUrls :
  upload_batches (upload_one e) imageUrls 0 [] = JsString <$> cdn_urls e imageUrls.
Proof.
  rewrite (upload_batches_flat _ _ (length imageUrls)) by lia.
  cbn. rewrite drop_0. unfold cdn_urls, results.
  apply (filter_not_null_strings (upload_one e)).
  apply upload_one_settles.
Qed.

Lemma filter_strings (l : list string) :
  List.filter not_null_or_undefined (JsString <$> l) = JsString <$> l.
Proof. induction l as [|x l IH]; cbn; [reflexivity | now rewrite IH]. Qed.

Lemma js_text_strings (l : list string) : js_text <$> (JsString <$> l) = l.
Proof. induction l as [|x l IH]; cbn; [reflexivity | now rewrite IH]. Qed.

Lemma omap_length_le {A B} (f : A → option B) (l : list A) :
  (length (omap f l) ≤ length l)%nat.
Proof.
  induction l as [|x l IH]; cbn; [lia|]. destruct (f x); cbn; lia.
Qed.

Lemma cdn_urls_length e imageUrls :
  (length (cdn_urls e imageUrls) ≤ length imageUrls)%nat.
Proof.
  unfold cdn_urls, results.
  etransitivity; [apply omap_length_le|]. now rewrite length_imap.
Qed.

Lemma get_comic_fresh e url slug w srcs :
  scrapes_fresh e url slug w srcs →
  get_comic e url w =
    (let d1 := (getComicFromDB slug 0 (db w)).2 in
     let imageUrls := List.filter absolute srcs in
     let uploaded := cdn_urls e imageUrls in
     let response :=
       ComicPayload (comic_response (JsString <$> uploaded) imageUrls) in
     ({| status := 200;
         cache_control := Some "public, max-age=600"%string;
         body := response |},
      {| db := match uploaded with
               | [] => d1
               | _ => (saveComicToDB slug (fullUrl_of slug)
                         (Some (JsString <$> uploaded)) 0 d1).2
               end;
         cache := cache_set (now_set e) (String.append "comic-" slug)
                    response (cache w) |})).
Proof.
  intros (Hslug & Hdb & Hcache & Hscrape). unfold get_comic.
  rewrite Hslug. destruct (getComicFromDB slug 0 (db w)) as [r d1].
  cbn in Hdb. subst r. rewrite Hcache, Hscrape.
  cbv zeta. rewrite upload_batches_cdn_urls. cbn [snd].
  now destruct (cdn_urls e (List.filter absolute srcs)).
Qed.

(** The row a fresh scrape leaves in the table when at least one image
    uploaded and the store takes the upsert. *)
Lemma get_comic_fresh_row e url slug w srcs :
  scrapes_fresh e url slug w srcs →
  (1 ≤ length (cdn_urls e (List.filter absolute srcs)))%nat →
  accepts 3 (faults (getComicFromDB slug 0 (db w)).2) = true →
  ∃ row, comics (db (get_comic e url w).2) !! slug = Some row
       ∧ image_url row = join (cdn_urls e (List.filter absolute srcs))
       ∧ total_images row = length (cdn_urls e (List.filter absolute srcs)).
Proof.
  intros Hfresh HM Hacc.
  rewrite (get_comic_fresh e url slug w srcs Hfresh). cbv zeta.
  cbn [fst snd db].
  destruct (cdn_urls e (List.filter absolute srcs)) as [|u us] eqn:Hu;
    [cbn in HM; lia|].
  rewrite <- Hu.
  destruct (saveComicToDB_writes 2 slug (fullUrl_of slug)
              (JsString <$> cdn_urls e (List.filter absolute srcs)) 0
              (getComicFromDB slug 0 (db w)).2) as [_ Hc].
  - lia.
  - rewrite filter_strings, Hu. discriminate.
  - exact Hacc.
  - rewrite Hc, lookup_insert_eq. eexists. split; [reflexivity|].
    rewrite filter_strings, js_text_strings, length_fmap. auto.
Qed.

(** C1.  A [/get-comic] request that scrapes fresh, extracts [N]
    absolute image URLs and uploads [M >= 1] of them, the store taking
    the upsert on one of its three attempts: the row of the slug then
    holds the [M] CDN URLs, joined in image order, with
    [total_images = M]; the response is 200 with [success: true], the
    [M] URLs as [images], and [warning] set when [M < N], absent when
    [M = N]. *)
Theorem get_comic_partial_upload e url slug w srcs :
  scrapes_fresh e url slug w srcs →
  let imageUrls := List.filter absolute srcs in
  let uploaded := cdn_urls e imageUrls in
  (1 ≤ length uploaded)%nat →
  accepts 3 (faults (getComicFromDB slug 0 (db w)).2) = true →
  (∃ row, comics (db (get_comic e url w).2) !! slug = Some row
        ∧ image_url row = join uploaded
        ∧ total_images row = length uploaded)
  ∧ status (get_comic e url w).1 = 200
  ∧ ∃ j, body (get_comic e url w).1 = ComicPayload j
       ∧ success j = true
       ∧ images j = JsString <$> uploaded
       ∧ ((length uploaded < length imageUrls)%nat →
          warning j = Some partial_warning)
       ∧ (length uploaded = length imageUrls → warning j = None).
Proof.
  intros Hfresh imageUrls uploaded HM Hacc.
  split; [exact (get_comic_fresh_row e url slug w srcs Hfresh HM Hacc)|].
  rewrite (get_comic_fresh e url slug w srcs Hfresh). cbv zeta.
  fold imageUrls. fold uploaded. cbn [fst snd db status body].
  split; [reflexivity|].
  - eexists. split; [reflexivity|]. cbn.
    rewrite length_fmap. repeat split.
    + intros Hlt. destruct (decide _) as [_|Heq]; [reflexivity | lia].
    + intros Heq. destruct (decide _) as [Hne|_]; [lia | reflexivity].
Qed.

Lemma get_comic_partial_upload_witness :
  ∃ row, comics (db (get_comic second_fails (Some "/foo/"%string) empty_world).2)
           !! "foo"%string = Some row
       ∧ total_images row = 4%nat.
Proof.
  destruct (get_comic_partial_upload second_fails (Some "/foo/"%string)
              "foo"%string empty_world five_sources) as [(row & Hrow & _ & Ht) _].
  - repeat split; vm_compute; reflexivity.
  - vm_compute. lia.
  - vm_compute. reflexivity.
  - exists row. split; [exact Hrow|]. rewrite Ht. vm_compute. reflexivity.
Defined.

(** C1, the statement as the specification has it, fails: four of five
    images upload and the driver throws at the three attempts of the
    save; the response is 200 with [success: true] and the warning, and
    no record is persisted. *)
Lemma partial_upload_not_persisted :
  scrapes_fresh second_fails (Some "/foo/"%string) "foo" store_down_world
    five_sources
  ∧ length (cdn_urls second_fails (List.filter absolute five_sources)) = 4%nat
  ∧ length (List.filter absolute five_sources) = 5%nat
  ∧ status (get_comic second_fails (Some "/foo/"%string) store_down_world).1
    = 200
  ∧ (∃ j, body (get_comic second_fails (Some "/foo/"%string)
                  store_down_world).1 = ComicPayload j
        ∧ success j = true ∧ warning j = Some partial_warning)
  ∧ comics (db (get_comic second_fails (Some "/foo/"%string)
                  store_down_world).2) !! "foo"%string = None.
Proof.
  split; [repeat split; vm_compute; reflexivity|].
  split; [vm_compute; reflexivity|].
  split; [vm_compute; reflexivity|].
  split; [vm_compute; reflexivity|].
  split; [|vm_compute; reflexivity].
  eexists. split; [vm_compute; reflexivity|]. split; reflexivity.
Qed.

(** When the driver throws at all three attempts of the save, the
    response is the same and the table is as it was. *)
Lemma get_comic_store_down e url slug w srcs :
  scrapes_fresh e url slug w srcs →
  accepts 3 (faults (getComicFromDB slug 0 (db w)).2) = false →
  comics (db (get_comic e url w).2) = comics (db w)
  ∧ body (get_comic e url w).1 =
      ComicPayload (comic_response
                      (JsString <$> cdn_urls e (List.filter absolute srcs))
                      (List.filter absolute srcs)).
Proof.
  intros Hfresh Hacc.
  rewrite (get_comic_fresh e url slug w srcs Hfresh). cbv zeta.
  cbn [fst snd db body]. split; [|reflexivity].
  destruct (cdn_urls e (List.filter absolute srcs)) as [|u us] eqn:Hu.
  - now rewrite (getComicFromDB_comics 2) by lia.
  - destruct (saveComicToDB_gives_up 2 slug (fullUrl_of slug)
                (JsString <$> u :: us) 0
                (getComicFromDB slug 0 (db w)).2
                ltac:(lia) ltac:(lia) Hacc) as [_ Hc].
    rewrite Hc. now rewrite (getComicFromDB_comics 2) by lia.
Qed.

(** Every row [saveComicToDB] writes carries at least one URL. *)
Lemma saveComicToDB_row n : ∀ slug fullUrl imageUrls rc d s row,
  (2 - rc ≤ n)%nat →
  comics (saveComicToDB slug fullUrl imageUrls rc d).2 !! s = Some row →
  comics d !! s = Some row
  ∨ (s = slug ∧ (0 < total_images row)%nat
     ∧ ∃ urls, urls ≠ [] ∧ image_url row = join urls
             ∧ total_images row = length urls).
Proof.
  induction n as [|n IH]; intros slug fullUrl imageUrls rc d s row Hn Hrow;
    (destruct imageUrls as [l|];
       [|rewrite saveComicToDB_nothing in Hrow by exact I; now left]);
    (destruct (decide (List.filter not_null_or_undefined l = [])) as [He|Hne];
       [rewrite saveComicToDB_nothing in Hrow by exact He; now left|]);
    (destruct (hd false (faults d)) eqn:Hh;
       [rewrite (saveComicToDB_thrown _ _ _ _ _ Hne Hh) in Hrow
       |rewrite (saveComicToDB_answered _ _ _ _ _ Hne Hh) in Hrow]).
  - case_decide; [lia | unfold send in Hrow; cbn in Hrow; now left].
  - cbn in Hrow. destruct (decide (slug = s)) as [<-|Hs].
    + rewrite lookup_insert_eq in Hrow. injection Hrow as <-. right.
      destruct (List.filter not_null_or_undefined l) as [|v vs] eqn:Hf;
        [congruence|].
      split; [reflexivity|]. split; [cbn; lia|].
      exists (js_text <$> v :: vs). split; [discriminate|].
      split; [reflexivity|]. cbn. now rewrite length_fmap.
    + rewrite lookup_insert_ne in Hrow by exact Hs. now left.
  - case_decide; [|unfold send in Hrow; cbn in Hrow; now left].
    apply IH in Hrow; [exact Hrow | lia].
  - cbn in Hrow. destruct (decide (slug = s)) as [<-|Hs].
    + rewrite lookup_insert_eq in Hrow. injection Hrow as <-. right.
      destruct (List.filter not_null_or_undefined l) as [|v vs] eqn:Hf;
        [congruence|].
      split; [reflexivity|]. split; [cbn; lia|].
      exists (js_text <$> v :: vs). split; [discriminate|].
      split; [reflexivity|]. cbn. now rewrite length_fmap.
    + rewrite lookup_insert_ne in Hrow by exact Hs. now left.
Qed.

Lemma filter_null_or_undefined l :
  Forall null_or_undefined l → List.filter not_null_or_undefined l = [].
Proof.
  induction 1 as [|v l [->| ->] _ IH]; cbn; auto.
Qed.

(** C3.  [saveComicToDB] called without an array, with an empty array or
    with an array of [null] and [undefined] entries only sends no
    statement, leaves the store as it is and returns [false]; a row it
    does write always carries at least one URL, so that no stored list
    is replaced by an empty one; and a [/get-comic] scrape that uploads
    no image sends nothing to the store after its initial lookup, leaves
    the table untouched, and still answers 200 with [success: true] and
    no images. *)
Theorem no_write_of_empty_list :
  (∀ slug fullUrl imageUrls retryCount d,
     match imageUrls with
     | None => True
     | Some l => Forall null_or_undefined l
     end →
     saveComicToDB slug fullUrl imageUrls retryCount d = (false, d))
  ∧ (∀ slug fullUrl imageUrls retryCount d s row,
       comics (saveComicToDB slug fullUrl imageUrls retryCount d).2 !! s
         = Some row →
       comics d !! s = Some row
       ∨ (s = slug ∧ (0 < total_images row)%nat
          ∧ ∃ urls, urls ≠ [] ∧ image_url row = join urls
                  ∧ total_images row = length urls))
  ∧ (∀ e url slug w srcs,
       scrapes_fresh e url slug w srcs →
       cdn_urls e (List.filter absolute srcs) = [] →
       db (get_comic e url w).2 = (getComicFromDB slug 0 (db w)).2
       ∧ comics (db (get_comic e url w).2) = comics (db w)
       ∧ status (get_comic e url w).1 = 200
       ∧ ∃ j, body (get_comic e url w).1 = ComicPayload j
            ∧ success j = true ∧ images j = []).
Proof.
  split; [|split].
  - intros slug fullUrl imageUrls rc d H. apply saveComicToDB_nothing.
    destruct imageUrls as [l|]; [|exact I].
    now apply filter_null_or_undefined.
  - intros slug fullUrl imageUrls rc d s row.
    apply (saveComicToDB_row 2). lia.
  - intros e url slug w srcs Hfresh Hnone.
    rewrite (get_comic_fresh e url slug w srcs Hfresh). cbv zeta.
    rewrite Hnone. cbn [fst snd db status body].
    split; [reflexivity|].
    split; [now rewrite (getComicFromDB_comics 2) by lia|].
    split; [reflexivity|].
    eexists. split; [reflexivity|]. split; reflexivity.
Qed.

Lemma no_write_of_empty_list_witness :
  saveComicToDB "foo" "https://doujindesu.tv/foo/"
    (Some [JsNull; JsUndefined]) 0 (db empty_world) = (false, db empty_world)
  ∧ statements (db (get_comic nothing_uploads (Some "foo"%string) empty_world).2)
    = [SelectImageUrl "foo"].
Proof.
  destruct no_write_of_empty_list as (Hsave & _ & Hget). split.
  - apply Hsave.
    constructor; [now left|]. constructor; [now right|]. constructor.
  - destruct (Hget nothing_uploads (Some "foo"%string) "foo"%string
                empty_world five_sources) as (Hdb & _).
    + repeat split; vm_compute; reflexivity.
    + vm_compute. reflexivity.
    + rewrite Hdb. vm_compute. reflexivity.
Defined.

(** C2, the statement as the specification has it, fails: a URL that
    contains a comma is stored whole and read back in pieces. *)
Lemma getComicFromDB_splits_url :
  scrapes_fresh comma_in_url (Some "a,b"%string) "a,b" empty_world
    ["https://img.example/p/1.jpg"%string]
  ∧ cdn_urls comma_in_url ["https://img.example/p/1.jpg"%string]
    = ["https://cdn.example/DOUJINSHI/a,b/a,b_1.jpg"%string]
  ∧ (getComicFromDB "a,b" 0
       (db (get_comic comma_in_url (Some "a,b"%string) empty_world).2)).1
    = Some ["https://cdn.example/DOUJINSHI/a"; "b/a"; "b_1.jpg"]%string.
Proof.
  split; [repeat split; vm_compute; reflexivity|].
  split; vm_compute; reflexivity.
Qed.

(** C2, amended.  After a fresh [/get-comic] ingestion of a slug that
    uploaded at least one image, with every CDN URL non-empty and free
    of commas and the store answering the save and the later lookup
    within their three attempts, [getComicFromDB(slug)] returns exactly
    the CDN URLs of the successfully uploaded images, in image order
    (batch after batch, and by index within a batch). *)
Theorem getComicFromDB_after_ingestion e url slug w srcs :
  scrapes_fresh e url slug w srcs →
  let uploaded := cdn_urls e (List.filter absolute srcs) in
  uploaded ≠ [] →
  Forall plain_url uploaded →
  accepts 3 (faults (getComicFromDB slug 0 (db w)).2) = true →
  accepts 3 (faults (db (get_comic e url w).2)) = true →
  (getComicFromDB slug 0 (db (get_comic e url w).2)).1 = Some uploaded.
Proof.
  intros Hfresh uploaded Hne Hplain Hsave Hread.
  destruct (get_comic_fresh_row e url slug w srcs Hfresh)
    as (row & Hrow & Himg & _); [|exact Hsave|].
  { fold uploaded. destruct uploaded; [congruence | cbn; lia]. }
  fold uploaded in Himg.
  rewrite (getComicFromDB_reads 2) by (lia || exact Hread).
  rewrite Hrow. unfold read_row. rewrite Himg.
  destruct uploaded as [|u us] eqn:Hu; [congruence|].
  inversion Hplain as [|? ? [Hu0 _] _]; subst.
  destruct (decide (join (u :: us) = EmptyString)) as [He|_].
  - now apply join_not_empty in He.
  - f_equal. apply split_join; [discriminate|].
    eapply Forall_impl; [exact Hplain|]. now intros ? [_ ?].
Qed.

Lemma getComicFromDB_after_ingestion_witness :
  (getComicFromDB "foo" 0
     (db (get_comic second_fails (Some "/foo/"%string) empty_world).2)).1
  = Some ["https://cdn.example/https://img.example/p/1.jpg";
          "https://cdn.example/https://img.example/p/3.jpg";
          "https://cdn.example/https://img.example/p/4.jpg";
          "https://cdn.example/https://img.example/p/5.jpg"]%string.
Proof.
  apply (getComicFromDB_after_ingestion second_fails (Some "/foo/"%string)
           "foo"%string empty_world five_sources).
  - repeat split; vm_compute; reflexivity.
  - vm_compute. discriminate.
  - vm_compute. repeat constructor; discriminate.
  - vm_compute. reflexivity.
  - vm_compute. reflexivity.
Defined.

(** A request served by step 1 of the handler. *)
Lemma get_comic_database_hit e url slug w img imgs :
  cleanSlug url = Some slug →
  (getComicFromDB slug 0 (db w)).1 = Some (img :: imgs) →
  (get_comic e url w).1 = database_response (img :: imgs) "database".
Proof.
  intros Hslug Hdb. unfold get_comic. rewrite Hslug.
  destruct (getComicFromDB slug 0 (db w)) as [r d1]. cbn in Hdb.
  now subst r.
Qed.

(** A request served by step 2 of the handler. *)
Lemma get_comic_cache_hit e url slug w v :
  cleanSlug url = Some slug →
  (getComicFromDB slug 0 (db w)).1 = None →
  cache_get (now_get e) (String.append "comic-" slug) (cache w) = Some v →
  get_comic e url w =
    ({| status := 200; cache_control := None; body := v |},
     with_db w (getComicFromDB slug 0 (db w)).2).
Proof.
  intros Hslug Hdb Hcache. unfold get_comic. rewrite Hslug.
  destruct (getComicFromDB slug 0 (db w)) as [r d1]. cbn in Hdb.
  subst r. now rewrite Hcache.
Qed.

(** C9.  A [/get-comic] request that finds no images in the database but
    a live entry in the memory cache answers 200 with the very body the
    earlier fresh scrape stored there, and that body says
    [cached: false] and [source: 'freshly scraped']; it scrapes nothing
    and stores nothing.  A request served from the database, in
    whatever state and environment, says [cached: true] and
    [source: 'database'] and carries the images of the row. *)
Theorem get_comic_memory_hit e1 e2 url slug w srcs w2 :
  scrapes_fresh e1 url slug w srcs →
  cache w2 !! String.append "comic-" slug
    = cache (get_comic e1 url w).2 !! String.append "comic-" slug →
  now_get e2 ≤ now_set e1 + 1800 * 1000 →
  (getComicFromDB slug 0 (db w2)).1 = None →
  (∃ j, body (get_comic e1 url w).1 = ComicPayload j
      ∧ cached j = false ∧ source j = "freshly scraped"%string
      ∧ status (get_comic e2 url w2).1 = 200
      ∧ body (get_comic e2 url w2).1 = ComicPayload j
      ∧ cache (get_comic e2 url w2).2 = cache w2
      ∧ comics (db (get_comic e2 url w2).2) = comics (db w2))
  ∧ (∀ e3 w3 img imgs,
       (getComicFromDB slug 0 (db w3)).1 = Some (img :: imgs) →
       ∃ j, body (get_comic e3 url w3).1 = ComicPayload j
          ∧ cached j = true ∧ source j = "database"%string
          ∧ images j = JsString <$> img :: imgs).
Proof.
  intros Hfresh Hentry Hlive Hdb2.
  pose proof Hfresh as (Hslug & _).
  split.
  - rewrite (get_comic_fresh e1 url slug w srcs Hfresh) in Hentry |- *.
    cbv zeta in Hentry |- *. cbn [fst snd cache body] in Hentry |- *.
    unfold cache_set in Hentry. rewrite lookup_insert_eq in Hentry.
    eexists. split; [reflexivity|].
    split; [reflexivity|]. split; [reflexivity|].
    erewrite (get_comic_cache_hit e2 url slug w2); [| exact Hslug | exact Hdb2 |].
    + cbn. repeat split. now rewrite (getComicFromDB_comics 2) by lia.
    + unfold cache_get. rewrite Hentry.
      destruct (decide (now_set e1 + stdTTL * 1000 < now_get e2)) as [Hexp|_];
        [|reflexivity].
      unfold stdTTL in Hexp. lia.
  - intros e3 w3 img imgs Hhit.
    rewrite (get_comic_database_hit e3 url slug w3 img imgs Hslug Hhit).
    eexists. split; [reflexivity|]. repeat split.
Qed.

Lemma get_comic_memory_hit_witness :
  (∃ j, body (get_comic a_minute_later (Some "foo"%string)
                (get_comic nothing_uploads (Some "foo"%string) empty_world).2).1
        = ComicPayload j
      ∧ cached j = false ∧ source j = "freshly scraped"%string)
  ∧ (∃ j, body (get_comic a_minute_later (Some "foo"%string)
                  (get_comic second_fails (Some "foo"%string) empty_world).2).1
          = ComicPayload j
        ∧ cached j = true ∧ source j = "database"%string
        ∧ length (images j) = 4%nat).
Proof.
  destruct (get_comic_memory_hit nothing_uploads a_minute_later
              (Some "foo"%string) "foo"%string empty_world five_sources
              (get_comic nothing_uploads (Some "foo"%string) empty_world).2)
    as [(j & _ & Hc & Hs & _ & Hb & _) Hdb].
  - repeat split; vm_compute; reflexivity.
  - reflexivity.
  - vm_compute. discriminate.
  - vm_compute. reflexivity.
  - split; [exists j; auto|].
    edestruct (Hdb a_minute_later
                 (get_comic second_fails (Some "foo"%string) empty_world).2)
      as (j' & Hb' & Hc' & Hs' & Hi').
    + vm_compute. reflexivity.
    + exists j'. split; [exact Hb'|]. split; [exact Hc'|]. split; [exact Hs'|].
      rewrite Hi'. reflexivity.
Defined.

End ComicProps.

(** ** Properties of [/get] *)

Module RehostProps.
Import Rehost.

(** A request answered with a CDN URL leaves that URL in the row of the
    file name, whether it found the row or wrote it. *)
Lemma get_image_stores pathname r u p s cdn s1 tr :
  pathname u = Some p →
  get_image pathname r (Some u) s = (Ok200 cdn, s1, tr) →
  ∃ row, thumbnails s1 !! basename p = Some row ∧ cdn_url row = cdn.
Proof.
  intros Hp Hget. unfold get_image in Hget.
  destruct (decide (u = EmptyString)); [discriminate|].
  rewrite Hp in Hget. unfold send in Hget.
  destruct (hd false (faults s)); [discriminate|].
  destruct (thumbnails s !! basename p) as [existing|] eqn:Hrow.
  - injection Hget as <- <- <-. cbn. eauto.
  - destruct r as [m|m|cdnUrl]; try discriminate. cbn in Hget.
    destruct (hd false (tl (faults s))); [discriminate|].
    injection Hget as <- <- <-. cbn. rewrite lookup_insert_eq. eauto.
Qed.

(** C10.  [/get] looks its row up by the base name of the URL path
    alone.  Take two image URLs whose paths end in the same file name
    and let a request for the first have been answered with a CDN URL;
    then, as long as the row of that file name stays as it was and the
    driver answers the lookup, a request for the second is answered 200
    with the same CDN URL, without a browser, a fetch or an upload, and
    sends nothing but its lookup to the store. *)
Theorem get_image_keyed_by_basename pathname r1 r2 u1 u2 p1 p2 s cdn s1 tr1 s2 :
  pathname u1 = Some p1 →
  pathname u2 = Some p2 →
  basename p1 = basename p2 →
  u2 ≠ EmptyString →
  get_image pathname r1 (Some u1) s = (Ok200 cdn, s1, tr1) →
  thumbnails s2 !! basename p1 = thumbnails s1 !! basename p1 →
  hd false (faults s2) = false →
  get_image pathname r2 (Some u2) s2 =
    (Ok200 cdn, (send (SelectCdnUrl (basename p2)) s2).2, []).
Proof.
  intros Hp1 Hp2 Hbase Hu2 Hfirst Hkeep Hanswer.
  destruct (get_image_stores pathname r1 u1 p1 s cdn s1 tr1 Hp1 Hfirst)
    as (row & Hrow & Hcdn).
  unfold get_image.
  destruct (decide (u2 = EmptyString)); [contradiction|].
  rewrite Hp2. unfold send. rewrite Hanswer. cbn.
  rewrite <- Hbase, Hkeep, Hrow, Hcdn. reflexivity.
Qed.

Lemma get_image_keyed_by_basename_witness :
  first_cover ≠ second_cover
  ∧ ∃ s1, get_image plain_pathname (Rehosted "https://cdn.example/IMAGES/45673.jpg")
            (Some first_cover) empty_store
          = (Ok200 "https://cdn.example/IMAGES/45673.jpg", s1,
             [EvGetBrowser; EvGoto first_cover; EvUpload "IMAGES/45673.jpg";
              EvReleaseBrowser])
        ∧ get_image plain_pathname (Rehosted "https://cdn.example/IMAGES/other.jpg")
            (Some second_cover) s1
          = (Ok200 "https://cdn.example/IMAGES/45673.jpg",
             (send (SelectCdnUrl "45673.jpg") s1).2, []).
Proof.
  split; [discriminate|]. eexists. split; [vm_compute; reflexivity|].
  eapply (get_image_keyed_by_basename plain_pathname
            (Rehosted "https://cdn.example/IMAGES/45673.jpg") _
            first_cover second_cover
            "/covers/45673.jpg" "/thumbs/2024/45673.jpg" empty_store).
  - reflexivity.
  - reflexivity.
  - reflexivity.
  - discriminate.
  - vm_compute. reflexivity.
  - reflexivity.
  - reflexivity.
Defined.

(** C10, the statement as the specification has it, fails: the first
    cover has been rehosted, and the driver throws at the lookup of the
    request for the second; the request is answered 500, not with the
    stored CDN URL. *)
Lemma get_image_lookup_fails :
  first_cover ≠ second_cover
  ∧ plain_pathname first_cover = Some "/covers/45673.jpg"%string
  ∧ plain_pathname second_cover = Some "/thumbs/2024/45673.jpg"%string
  ∧ basename "/covers/45673.jpg" = basename "/thumbs/2024/45673.jpg"
  ∧ ∃ s1, get_image plain_pathname
            (Rehosted "https://cdn.example/IMAGES/45673.jpg")
            (Some first_cover) third_statement_fails
          = (Ok200 "https://cdn.example/IMAGES/45673.jpg", s1,
             [EvGetBrowser; EvGoto first_cover; EvUpload "IMAGES/45673.jpg";
              EvReleaseBrowser])
        ∧ (get_image plain_pathname
             (Rehosted "https://cdn.example/IMAGES/other.jpg")
             (Some second_cover) s1).1.1 = Error500 DriverThrew.
Proof.
  split; [discriminate|]. split; [reflexivity|]. split; [reflexivity|].
  split; [reflexivity|].
  eexists. split; vm_compute; reflexivity.
Qed.

End RehostProps.

(** ** Properties of [/auto-json] *)

Module ManifestProps.
Import Manifest.

(** C5 fails on the code.  A manifest of four chapters, each ingested at
    the first call: the first wave removes its three chapters from the
    file; the second wave processes the fourth with status [ok], looks
    for it at index 3 of a list that now has one entry, removes nothing
    and writes the file back with the fourth chapter still in it. *)
Theorem second_wave_keeps_processed_chapter :
  ∃ r, processChapters all_succeed four_chapters (start four_chapters)
       = (inl [ok_result (chapter "ch-1") ok (Some 12%nat);
               ok_result (chapter "ch-2") ok (Some 12%nat);
               ok_result (chapter "ch-3") ok (Some 12%nat);
               ok_result (chapter "ch-4") ok (Some 12%nat)], r)
     ∧ trace r = [EvFetch "ch-1"; EvFetch "ch-2"; EvFetch "ch-3";
                  EvWriteFile [chapter "ch-4"] true;
                  EvFetch "ch-4";
                  EvWriteFile [chapter "ch-4"] true]
     ∧ file r = [chapter "ch-4"].
Proof. eexists. split; [vm_compute; reflexivity|]. split; reflexivity. Qed.

(** The same slip deletes chapters that were not processed.  With
    [seven_chapters] and [some_fail] the second wave removes, at the
    indices its chapters had in the original list, the last three
    entries of the shortened list: the seventh chapter leaves the file
    before it is tried and stays out of it although its ingestion then
    fails, and the fourth, ingested, stays in. *)
Lemma second_wave_drops_unprocessed_chapter :
  file (processChapters some_fail seven_chapters (start seven_chapters)).2
  = chapter <$> ["ch-2"; "ch-3"; "ch-4"]%string.
Proof. vm_compute. reflexivity. Qed.

Lemma without_from_below x ks : ∀ l j,
  (x < j)%nat → without_from j (x :: ks) l = without_from j ks l.
Proof.
  induction l as [|c rest IH]; intros j Hx; cbn; [reflexivity|].
  rewrite IH by lia.
  destruct (decide (j ∈ x :: ks)) as [Hin|Hout], (decide (j ∈ ks)) as [Hin'|Hout'];
    try reflexivity.
  - apply elem_of_cons in Hin as [->|Hin]; [lia | contradiction].
  - destruct Hout. now apply elem_of_cons; right.
Qed.

Lemma delete_without_from ks : ∀ l i k,
  Forall (λ x, (i + k < x)%nat) ks →
  delete k (without_from i ks l) = without_from i ((i + k)%nat :: ks) l.
Proof.
  induction l as [|c rest IH]; intros i k Hks; [reflexivity|].
  cbn [without_from].
  assert (i ∉ ks) as Hi.
  { intros Hin. rewrite Forall_forall in Hks. apply Hks in Hin. lia. }
  destruct (decide (i ∈ ks)) as [|_]; [contradiction|].
  destruct k as [|k].
  - replace (i + 0)%nat with i by lia.
    destruct (decide (i ∈ i :: ks)) as [_|Hout];
      [|destruct Hout; apply elem_of_cons; now left].
    cbn. symmetry. apply without_from_below. lia.
  - destruct (decide (i ∈ (i + S k)%nat :: ks)) as [Hin|_].
    + apply elem_of_cons in Hin as [Heq|Hin]; [lia | contradiction].
    + cbn. f_equal. rewrite IH.
      * now replace (S i + k)%nat with (i + S k)%nat by lia.
      * eapply Forall_impl; [exact Hks|]. cbn. intros; lia.
Qed.

Lemma ok_positions_from_above rs : ∀ i,
  Forall (λ x, (i ≤ x)%nat) (ok_positions_from i rs).
Proof.
  induction rs as [|r rest IH]; intros i; cbn; [constructor|].
  destruct (is_ok (status r)).
  - constructor; [lia|].
    eapply Forall_impl; [apply IH|]. cbn. intros; lia.
  - eapply Forall_impl; [apply IH|]. cbn. intros; lia.
Qed.

Lemma without_from_nil : ∀ l j, without_from j [] l = l.
Proof.
  induction l as [|c l IH]; intros j; cbn; [reflexivity|].
  destruct (decide (j ∈ [])) as [Hin|_]; [now apply elem_of_nil in Hin|].
  now rewrite IH.
Qed.

(** Splicing at the [ok] positions, largest first. *)
Lemma splice_ok_positions rs : ∀ i l,
  foldr (λ k acc, delete k acc) l (ok_positions_from i rs)
  = without_from 0 (ok_positions_from i rs) l.
Proof.
  induction rs as [|r rest IH]; intros i l; cbn.
  - now rewrite without_from_nil.
  - destruct (is_ok (status r)); [|apply IH].
    cbn. rewrite IH. rewrite delete_without_from; [reflexivity|].
    eapply Forall_impl; [apply ok_positions_from_above|]. cbn. intros; lia.
Qed.

Lemma insert_desc_last x : ∀ l,
  Forall (λ y, (x.1 < y.1)%nat) l → insert_desc x l = l ++ [x].
Proof.
  induction l as [|y l IH]; intros Hall; [reflexivity|].
  inversion_clear Hall as [|? ? Hy Hl]. cbn.
  destruct (decide (y.1 ≤ x.1)%nat); [lia|]. now rewrite IH.
Qed.

(** [processed], sorted, when its indices are the [ok] positions. *)
Lemma sort_desc_ok_positions rs : ∀ i (items : list (nat * Chapter)),
  items.*1 = ok_positions_from i rs →
  (sort_desc items).*1 = reverse (ok_positions_from i rs)
  ∧ Forall (λ y, (i ≤ y.1)%nat) (sort_desc items).
Proof.
  induction rs as [|r rest IH]; intros i items Hitems;
    cbn [ok_positions_from] in *.
  - destruct items; [|discriminate]. split; [reflexivity | constructor].
  - destruct (is_ok (status r)).
    + destruct items as [|x items]; [discriminate|].
      cbn in Hitems. injection Hitems as Hx Hitems.
      destruct (IH (S i) items Hitems) as [Hsorted Hall].
      change (sort_desc (x :: items)) with (insert_desc x (sort_desc items)).
      rewrite insert_desc_last.
      * rewrite fmap_app, Hsorted, reverse_cons. cbn. rewrite Hx.
        split; [reflexivity|].
        apply Forall_app. split.
        -- eapply Forall_impl; [exact Hall|]. cbn. intros; lia.
        -- constructor; [lia | constructor].
      * eapply Forall_impl; [exact Hall|]. cbn. intros; lia.
    + destruct (IH (S i) items Hitems) as [Hsorted Hall].
      split; [exact Hsorted|].
      eapply Forall_impl; [exact Hall|]. cbn. intros; lia.
Qed.

Lemma splice_all_indices items chs :
  splice_all items chs = foldr (λ k acc, delete k acc) chs (reverse items.*1).
Proof.
  unfold splice_all. revert chs.
  induction items as [|x items IH]; intros chs; [reflexivity|].
  change ((x :: items).*1) with (x.1 :: items.*1).
  rewrite reverse_cons, foldr_app. cbn [foldl foldr]. apply IH.
Qed.

(** The callbacks of a chunk leave the manifest alone and append to
    [processed] the positions of the [ok] results, counted from the
    chunk's offset in the array the pass started with. *)
Lemma process_chunk_processed e chunkIndex : ∀ chunk chapterIndex p rs,
  promise_all (process_chunk e chunkIndex chapterIndex chunk p).1 = inl rs →
  let p' := (process_chunk e chunkIndex chapterIndex chunk p).2 in
  chapters (run p') = chapters (run p)
  ∧ file (run p') = file (run p)
  ∧ writes (run p') = writes (run p)
  ∧ results p' = results p
  ∧ (processed p').*1 =
      (processed p).*1 ++
      ok_positions_from (chunkIndex * concurrencyLimit + chapterIndex) rs.
Proof.
  induction chunk as [|c rest IH]; intros chapterIndex p rs Hall.
  - cbn in *. injection Hall as <-. cbn. now rewrite app_nil_r.
  - cbn in Hall |- *.
    destruct (process_chapter e chunkIndex chapterIndex c p) as [s p1] eqn:Hc.
    destruct (process_chunk e chunkIndex (S chapterIndex) rest p1)
      as [ss p2] eqn:Hrest.
    cbn in Hall |- *. destruct s as [r|]; [|discriminate].
    destruct (promise_all ss) as [rs'|] eqn:Hss; [|discriminate].
    injection Hall as <-.
    specialize (IH (S chapterIndex) p1 rs').
    rewrite Hrest in IH. cbn in IH.
    destruct (IH Hss) as (H1 & H2 & H3 & H4 & H5).
    rewrite H1, H2, H3, H4, H5. clear IH H1 H2 H3 H4 H5.
    unfold process_chapter in Hc.
    destruct (falsy (slug c)).
    { injection Hc as <- <-. cbn.
      replace (chunkIndex * concurrencyLimit + S chapterIndex)%nat
        with (S (chunkIndex * concurrencyLimit + chapterIndex)) by lia.
      auto. }
    destruct (net e (calls (run p))) as [[|] images error|n m].
    + injection Hc as <- <-. cbn. repeat split.
      rewrite fmap_app, <- app_assoc. cbn.
      replace (chunkIndex * concurrencyLimit + S chapterIndex)%nat
        with (S (chunkIndex * concurrencyLimit + chapterIndex)) by lia.
      reflexivity.
    + injection Hc as <- <-. cbn.
      replace (chunkIndex * concurrencyLimit + S chapterIndex)%nat
        with (S (chunkIndex * concurrencyLimit + chapterIndex)) by lia.
      auto.
    + destruct (transient n m); [discriminate|].
      injection Hc as <- <-. cbn.
      replace (chunkIndex * concurrencyLimit + S chapterIndex)%nat
        with (S (chunkIndex * concurrencyLimit + chapterIndex)) by lia.
      destruct (bool_decide (n = "AbortError")); cbn; auto.
Qed.

(** A wave that starts with [processed] empty and in which no callback
    rejects: the chapters removed are those at the positions of the
    [ok] results counted from [chunkIndex * 3], that is, from the
    chunk's place in the array as it was when the pass started, taken in
    [jsonData.chapters] as it is now; and the file is written with the
    outcome unless the write fails.  For the first wave of a pass the
    two arrays are the same and the entries removed are exactly the
    chapters of the wave with status [ok]. *)
Lemma wave_rewrite e chunkIndex chunk p rs :
  processed p = [] →
  (abort_check e (run p)).1 = false →
  promise_all
    (process_chunk e chunkIndex 0 chunk
       (with_run p (abort_check e (run p)).2)).1 = inl rs →
  ∃ p', chunk_iteration e chunkIndex chunk p = inl p'
      ∧ results p' = results p ++ rs
      ∧ chapters (run p') =
          without_from 0 (ok_positions_from (chunkIndex * concurrencyLimit) rs)
            (chapters (run p))
      ∧ (ok_positions_from (chunkIndex * concurrencyLimit) rs ≠ [] →
         write_fails e (writes (run p)) = false →
         file (run p') = chapters (run p')).
Proof.
  intros Hempty Hcheck Hall.
  pose proof (process_chunk_processed e chunkIndex chunk 0%nat
                (with_run p (abort_check e (run p)).2) rs Hall) as Hinv.
  cbv zeta in Hinv. unfold chunk_iteration.
  destruct (abort_check e (run p)) as [throws r1] eqn:Hab.
  cbn in Hcheck, Hall, Hinv. subst throws.
  assert (chapters r1 = chapters (run p) ∧ writes r1 = writes (run p))
    as [Hch1 Hw1].
  { unfold abort_check in Hab.
    destruct (signal_aborted e (checks (run p)));
      [destruct (chapters (run p)) eqn:Hch|]; try discriminate;
      injection Hab as <-; cbn; auto. }
  destruct (process_chunk e chunkIndex 0 chunk (with_run p r1))
    as [settled p1] eqn:Hchunk.
  cbn in Hall, Hinv. rewrite Hall.
  destruct Hinv as (Hch & Hfile & Hwrites & Hres & Hproc).
  rewrite Hempty in Hproc. cbn in Hproc.
  replace (chunkIndex * concurrencyLimit + 0)%nat
    with (chunkIndex * concurrencyLimit)%nat in Hproc by lia.
  eexists. split; [reflexivity|].
  unfold rewrite_manifest. cbn [processed run results].
  destruct (processed p1) as [|x items] eqn:Hp1.
  - cbn in Hproc. rewrite <- Hproc. cbn [run results].
    split; [now rewrite Hres|]. split; [|congruence].
    now rewrite Hch, Hch1, without_from_nil.
  - cbv zeta. cbn [run results chapters file].
    split; [now rewrite Hres|].
    destruct (sort_desc_ok_positions rs _ _ Hproc) as [Hsorted _].
    rewrite splice_all_indices, Hsorted, reverse_involutive.
    rewrite splice_ok_positions, Hch, Hch1.
    split; [reflexivity|].
    intros _ Hwrite. rewrite Hwrites, Hw1, Hwrite. reflexivity.
Qed.

(** A chapter callback rejects only with the [ReferenceError]. *)
Lemma process_chapter_threw e chunkIndex chapterIndex c p name message :
  (process_chapter e chunkIndex chapterIndex c p).1 = Threw name message →
  stops_pass name message = false.
Proof.
  unfold process_chapter. destruct (falsy (slug c)); [discriminate|].
  destruct (net e (calls (run p))) as [[|] images error|n m]; try discriminate.
  destruct (transient n m); [|discriminate].
  cbn. intros H. injection H as <- <-. reflexivity.
Qed.

Lemma process_chunk_threw e chunkIndex : ∀ chunk chapterIndex p name message,
  promise_all (process_chunk e chunkIndex chapterIndex chunk p).1
    = inr (name, message) →
  stops_pass name message = false.
Proof.
  induction chunk as [|c rest IH]; intros chapterIndex p name message H;
    [discriminate|].
  cbn in H.
  destruct (process_chapter e chunkIndex chapterIndex c p) as [s p1] eqn:Hc.
  destruct (process_chunk e chunkIndex (S chapterIndex) rest p1)
    as [ss p2] eqn:Hrest.
  cbn in H. destruct s as [r|n m].
  - destruct (promise_all ss) as [rs|err] eqn:Hall; [discriminate|].
    injection H as ->.
    apply (IH (S chapterIndex) p1). now rewrite Hrest.
  - injection H as <- <-.
    apply (process_chapter_threw e chunkIndex chapterIndex c p).
    now rewrite Hc.
Qed.







End ManifestProps.

(** ** Further properties of [fetchImageBuffer] *)

Module FetchMoreProps.
Import Fetch FetchMore.

(** X1.  [fetchImageBuffer] stops at the first attempt that succeeds:
    when the first [k] attempts fail and the next one yields a body,
    with [retryCount + k <= 3], the call returns that body after
    exactly [k + 1] requests, having slept [1000 * 2^i] ms after the
    failure of the attempt with retry count [i]. *)
Theorem fetchImageBuffer_first_success net url referer : ∀ k retryCount rt b,
  (retryCount + k ≤ 3)%nat →
  (∀ i, (i < k)%nat → attempt_fails (net (issued rt + i)%nat)) →
  try_body (net (issued rt + k)%nat) = Fulfilled b →
  (fetchImageBuffer net url referer retryCount rt).1 = Fulfilled b
  ∧ issued (fetchImageBuffer net url referer retryCount rt).2
    = (issued rt + k + 1)%nat
  ∧ trace (fetchImageBuffer net url referer retryCount rt).2
    = trace rt ++ attempts_trace url referer retryCount k.
Proof.
  induction k as [|k IH]; intros rc rt b Hrc Hfail Hok.
  - replace (issued rt + 0)%nat with (issued rt) in Hok by lia.
    rewrite (FetchProps.fetchImageBuffer_done _ _ _ _ _ _ Hok). cbn.
    repeat split. lia.
  - destruct (Hfail 0%nat ltac:(lia)) as [e He].
    replace (issued rt + 0)%nat with (issued rt) in He by lia.
    rewrite (FetchProps.fetchImageBuffer_retry _ _ _ _ _ _ He) by lia.
    cbv zeta. cbn [fst snd].
    match goal with |- context [fetchImageBuffer _ _ _ _ ?r] => set (rt4 := r) end.
    assert (issued rt4 = S (issued rt)) as Hi by reflexivity.
    destruct (IH (S rc) rt4 b) as (H1 & H2 & H3).
    + lia.
    + intros i Hi'. rewrite Hi.
      replace (S (issued rt) + i)%nat with (issued rt + S i)%nat by lia.
      apply Hfail. lia.
    + rewrite Hi.
      now replace (S (issued rt) + k)%nat with (issued rt + S k)%nat by lia.
    + rewrite H1. split; [reflexivity|]. cbn. rewrite H2, H3, Hi.
      split; [lia|]. subst rt4. cbn. rewrite <- !app_assoc. reflexivity.
Qed.

Lemma fetchImageBuffer_first_success_witness :
  (fetchImageBuffer third_time_lucky "https://img.example/1.jpg" urlBase 0 rt0).1
  = Fulfilled "bytes"
  ∧ trace (fetchImageBuffer third_time_lucky "https://img.example/1.jpg"
             urlBase 0 rt0).2
    = [EvFetch "https://img.example/1.jpg" urlBase; EvSleep 1000;
       EvFetch "https://img.example/1.jpg" urlBase; EvSleep 2000;
       EvFetch "https://img.example/1.jpg" urlBase].
Proof.
  destruct (fetchImageBuffer_first_success third_time_lucky
              "https://img.example/1.jpg" urlBase 2 0 rt0 "bytes")
    as (H1 & _ & H3).
  - lia.
  - intros i Hi. exists (FetchRejected "ECONNRESET").
    destruct i as [|[|i]]; [reflexivity | reflexivity | lia].
  - reflexivity.
  - split; [exact H1 | exact H3].
Defined.

(** X2.  Whatever the network does, a call of [fetchImageBuffer] issues
    at least one request and at most [4 - retryCount] (one, from a
    retry count of 3 on); from the default retry count, at most 4. *)
Theorem fetchImageBuffer_request_bound net url referer retryCount rt :
  (issued rt < issued (fetchImageBuffer net url referer retryCount rt).2)%nat
  ∧ (issued (fetchImageBuffer net url referer retryCount rt).2
     ≤ issued rt + S (3 - retryCount))%nat.
Proof.
  remember (3 - retryCount)%nat as n eqn:Hn.
  assert (3 - retryCount ≤ n)%nat as Hle by lia. clear Hn.
  revert retryCount rt Hle.
  induction n as [|n IH]; intros rc rt Hn;
    destruct (try_body (net (issued rt))) as [b|e] eqn:He.
  - rewrite (FetchProps.fetchImageBuffer_done _ _ _ _ _ _ He). cbn. lia.
  - rewrite (FetchProps.fetchImageBuffer_give_up _ _ _ _ _ _ He) by lia.
    cbn. lia.
  - rewrite (FetchProps.fetchImageBuffer_done _ _ _ _ _ _ He). cbn. lia.
  - destruct (decide (rc < 3)%nat) as [Hlt|Hge].
    + rewrite (FetchProps.fetchImageBuffer_retry _ _ _ _ _ _ He Hlt).
      cbv zeta. cbn [fst snd].
      match goal with |- context [fetchImageBuffer _ _ _ _ ?r] => set (rt4 := r) end.
      destruct (IH (S rc) rt4 ltac:(lia)) as [H1 H2].
      assert (issued rt4 = S (issued rt)) as Hi by reflexivity.
      cbn. rewrite Hi in *. lia.
    + rewrite (FetchProps.fetchImageBuffer_give_up _ _ _ _ _ _ He Hge).
      cbn. lia.
Qed.

End FetchMoreProps.

(** ** Further properties of the comic store and of [/get-comic] *)

Module ComicMoreProps.
Import Comic ComicProps ComicMore.

#[local] Arguments is_comma : simpl never.

Lemma join_cons_char c x xs :
  join (String c x :: xs) = String c (join (x :: xs)).
Proof. destruct xs; reflexivity. Qed.

(** X3.  What [split(',')] returns joins back, with [join(',')], to the
    string it was given, for every string; and it has one entry more
    than the string has commas.  (The other way round, [split] after
    [join], needs entries without commas.) *)
Theorem join_split s :
  join (split s) = s ∧ length (split s) = S (commas s).
Proof.
  induction s as [|c s [IHj IHl]]; [split; reflexivity|].
  cbn [split commas]. destruct (is_comma c) eqn:Hc.
  - split; [|cbn; now rewrite IHl].
    destruct (split s) as [|x xs] eqn:Hs; [now apply split_nonempty in Hs|].
    change (join (EmptyString :: x :: xs))
      with (String ","%char (join (x :: xs))).
    rewrite IHj. f_equal.
    unfold is_comma in Hc. now apply Ascii.eqb_eq in Hc.
  - destruct (split s) as [|x xs] eqn:Hs; [now apply split_nonempty in Hs|].
    split; [|exact IHl].
    rewrite join_cons_char. now rewrite IHj.
Qed.

Lemma getComicFromDB_selects_from n : ∀ slug rc d,
  (2 - rc ≤ n)%nat → (rc ≤ 2)%nat →
  ∃ k, (1 ≤ k ≤ 3 - rc)%nat
     ∧ statements (getComicFromDB slug rc d).2
       = statements d ++ replicate k (SelectImageUrl slug)
     ∧ faults (getComicFromDB slug rc d).2 = drop k (faults d)
     ∧ (accepts (3 - rc) (faults d) = false →
        (getComicFromDB slug rc d).1 = None ∧ k = (3 - rc)%nat).
Proof.
  induction n as [|n IH]; intros slug rc d Hn Hrc;
    destruct (hd false (faults d)) eqn:Hh.
  - rewrite (getComicFromDB_thrown _ _ _ Hh).
    destruct (decide (rc < 2)%nat); [lia|].
    exists 1%nat. cbn. split; [lia|]. split; [reflexivity|].
    split; [now destruct (faults d)|]. intros _. split; [reflexivity | lia].
  - rewrite (getComicFromDB_answered _ _ _ Hh).
    exists 1%nat. cbn. split; [lia|]. split; [reflexivity|].
    split; [now destruct (faults d)|].
    intros Hacc. destruct (3 - rc)%nat eqn:Hk; [lia|].
    cbn in Hacc. rewrite Hh in Hacc. discriminate.
  - rewrite (getComicFromDB_thrown _ _ _ Hh).
    destruct (decide (rc < 2)%nat) as [Hlt|Hge].
    + destruct (IH slug (S rc) (send (SelectImageUrl slug) d).2
                  ltac:(lia) ltac:(lia)) as (k & Hk & Hst & Hf & Hnone).
      exists (S k). split; [lia|]. rewrite Hst, Hf. cbn.
      split; [now rewrite <- app_assoc|].
      split; [now destruct (faults d)|].
      intros Hacc. destruct (3 - rc)%nat as [|m] eqn:Hm; [lia|].
      rewrite accepts_thrown in Hacc by exact Hh.
      replace m with (3 - S rc)%nat in Hacc by lia.
      destruct (Hnone Hacc) as [Hr Hk']. split; [exact Hr | lia].
    + exists 1%nat. cbn. split; [lia|]. split; [reflexivity|].
      split; [now destruct (faults d)|]. intros _. split; [reflexivity | lia].
  - rewrite (getComicFromDB_answered _ _ _ Hh).
    exists 1%nat. cbn. split; [lia|]. split; [reflexivity|].
    split; [now destruct (faults d)|].
    intros Hacc. destruct (3 - rc)%nat eqn:Hk; [lia|].
    cbn in Hacc. rewrite Hh in Hacc. discriminate.
Qed.

(** X4.  [getComicFromDB(slug)] only reads: it leaves the table as it
    is and sends between one and three statements, each the same
    [SELECT] for the slug, one per attempt; when the driver throws at
    all three attempts it returns [null]. *)
Theorem getComicFromDB_selects slug d :
  comics (getComicFromDB slug 0 d).2 = comics d
  ∧ ∃ k, (1 ≤ k ≤ 3)%nat
       ∧ statements (getComicFromDB slug 0 d).2
         = statements d ++ replicate k (SelectImageUrl slug)
       ∧ faults (getComicFromDB slug 0 d).2 = drop k (faults d)
       ∧ (accepts 3 (faults d) = false →
          (getComicFromDB slug 0 d).1 = None ∧ k = 3%nat).
Proof.
  split; [apply (getComicFromDB_comics 2); lia|].
  exact (getComicFromDB_selects_from 2 slug 0 d ltac:(lia) ltac:(lia)).
Qed.

Lemma getComicFromDB_selects_witness :
  (getComicFromDB "foo" 0
     {| comics := ∅; statements := []; faults := [true; true; true] |}).1 = None.
Proof.
  destruct (getComicFromDB_selects "foo"
              {| comics := ∅; statements := []; faults := [true; true; true] |})
    as (_ & k & _ & _ & _ & H).
  now destruct (H eq_refl).
Defined.

(** X5.  The upsert of [saveComicToDB], once the store takes it:
    rows of other slugs are as before; the row of the slug keeps the
    [url] it had, or gets [fullUrl] when it is new; and saving the same
    list once more (with whatever [fullUrl]) leaves the table as the
    first save left it. *)
Theorem saveComicToDB_upsert slug fullUrl fullUrl' l d :
  List.filter not_null_or_undefined l ≠ [] →
  accepts 3 (faults d) = true →
  let d1 := (saveComicToDB slug fullUrl (Some l) 0 d).2 in
  (∀ s, s ≠ slug → comics d1 !! s = comics d !! s)
  ∧ (∃ row, comics d1 !! slug = Some row
          ∧ row_url row = match comics d !! slug with
                          | Some old => row_url old
                          | None => fullUrl
                          end)
  ∧ (accepts 3 (faults d1) = true →
     comics (saveComicToDB slug fullUrl' (Some l) 0 d1).2 = comics d1).
Proof.
  intros Hne Hacc d1.
  destruct (saveComicToDB_writes 2 slug fullUrl l 0 d ltac:(lia) Hne Hacc)
    as [_ Hc]. fold d1 in Hc.
  split; [|split].
  - intros s Hs. rewrite Hc. now apply lookup_insert_ne.
  - rewrite Hc, lookup_insert_eq. eexists. split; reflexivity.
  - intros Hacc1.
    destruct (saveComicToDB_writes 2 slug fullUrl' l 0 d1 ltac:(lia) Hne Hacc1)
      as [_ Hc1].
    rewrite Hc1, Hc, lookup_insert_eq, insert_insert_eq. reflexivity.
Qed.

Lemma saveComicToDB_upsert_witness :
  ∃ row, comics (saveComicToDB "foo" "https://doujindesu.tv/foo/"
                   (Some [JsString "https://cdn.example/1.jpg"; JsNull]) 0
                   (db flaky_world)).2 !! "foo"%string = Some row
       ∧ row_url row = "https://doujindesu.tv/foo/"%string.
Proof.
  destruct (saveComicToDB_upsert "foo" "https://doujindesu.tv/foo/"
              "https://doujindesu.tv/foo/"
              [JsString "https://cdn.example/1.jpg"; JsNull] (db flaky_world))
    as (_ & (row & Hrow & Hurl) & _).
  - discriminate.
  - reflexivity.
  - exists row. split; [exact Hrow | exact Hurl].
Defined.

(** X6.  The upload loop of one image makes at most three attempts and
    returns the URL of the first that succeeds; it returns [null]
    exactly when all three throw. *)
Theorem upload_image_first_success att :
  (∀ k u, (k < 3)%nat →
     (∀ i, (i < k)%nat → ∃ m, att i = AttemptThrows m) →
     att k = Uploaded u →
     upload_image att 0 = JsString u)
  ∧ (upload_image att 0 = JsNull
     ↔ ∀ i, (i < 3)%nat → ∃ m, att i = AttemptThrows m).
Proof.
  assert (upload_image att 0 =
          match att 0%nat with
          | Uploaded u => JsString u
          | AttemptThrows _ =>
              match att 1%nat with
              | Uploaded u => JsString u
              | AttemptThrows _ =>
                  match att 2%nat with
                  | Uploaded u => JsString u
                  | AttemptThrows _ => JsNull
                  end
              end
          end) as Hunfold.
  { rewrite upload_image_equation_1. cbn. destruct (att 0%nat); [reflexivity|].
    rewrite upload_image_equation_1. cbn. destruct (att 1%nat); [reflexivity|].
    rewrite upload_image_equation_1. cbn. now destruct (att 2%nat). }
  rewrite Hunfold. split.
  - intros k u Hk Hbefore Hat.
    destruct k as [|[|[|k]]]; [| | |lia].
    + now rewrite Hat.
    + destruct (Hbefore 0%nat ltac:(lia)) as [m0 ->]. now rewrite Hat.
    + destruct (Hbefore 0%nat ltac:(lia)) as [m0 ->].
      destruct (Hbefore 1%nat ltac:(lia)) as [m1 ->]. now rewrite Hat.
  - split.
    + intros Hnull i Hi.
      destruct (att 0%nat) eqn:H0; [discriminate|].
      destruct (att 1%nat) eqn:H1; [discriminate|].
      destruct (att 2%nat) eqn:H2; [discriminate|].
      destruct i as [|[|[|i]]]; eauto. lia.
    + intros Hall.
      destruct (Hall 0%nat ltac:(lia)) as [m0 ->].
      destruct (Hall 1%nat ltac:(lia)) as [m1 ->].
      destruct (Hall 2%nat ltac:(lia)) as [m2 ->]. reflexivity.
Qed.

Lemma upload_image_first_success_witness :
  upload_image third_attempt 0
  = JsString "https://cdn.example/DOUJINSHI/foo/foo_1.jpg".
Proof.
  destruct (upload_image_first_success third_attempt) as [H _].
  apply (H 2%nat); [lia | | reflexivity].
  intros i Hi. exists "socket hang up"%string.
  destruct i as [|[|i]]; [reflexivity | reflexivity | lia].
Defined.

(** X7.  Ingestion and lookup compose: after a fresh [/get-comic]
    scrape that uploaded at least one image (URLs non-empty and without
    commas, the store answering), the next request for the slug is
    answered from the database, with [cached: true],
    [source: 'database'] and the uploaded URLs as images; it does not
    touch the memory cache or the table, whatever the site would now
    return. *)
Theorem get_comic_then_database e e2 url slug w srcs :
  scrapes_fresh e url slug w srcs →
  let uploaded := cdn_urls e (List.filter absolute srcs) in
  uploaded ≠ [] →
  Forall plain_url uploaded →
  accepts 3 (faults (getComicFromDB slug 0 (db w)).2) = true →
  let w1 := (get_comic e url w).2 in
  accepts 3 (faults (db w1)) = true →
  (get_comic e2 url w1).1 = database_response uploaded "database"
  ∧ cache (get_comic e2 url w1).2 = cache w1
  ∧ comics (db (get_comic e2 url w1).2) = comics (db w1).
Proof.
  intros Hfresh uploaded Hne Hplain Hsave w1 Hread.
  pose proof Hfresh as (Hslug & _).
  destruct (get_comic_fresh_row e url slug w srcs Hfresh)
    as (row & Hrow & Himg & _); [|exact Hsave|].
  { fold uploaded. destruct uploaded; [congruence | cbn; lia]. }
  fold uploaded in Himg. fold w1 in Hrow.
  assert ((getComicFromDB slug 0 (db w1)).1 = Some uploaded) as Hget.
  { rewrite (getComicFromDB_reads 2) by (lia || exact Hread).
    rewrite Hrow. unfold read_row. rewrite Himg.
    destruct uploaded as [|u us] eqn:Hu; [congruence|].
    inversion Hplain as [|? ? [Hu0 _] _]; subst.
    destruct (decide (join (u :: us) = EmptyString)) as [He|_].
    - now apply join_not_empty in He.
    - f_equal. apply split_join; [discriminate|].
      eapply Forall_impl; [exact Hplain|]. now intros ? [_ ?]. }
  unfold get_comic. rewrite Hslug.
  pose proof (getComicFromDB_comics 2 slug 0 (db w1) ltac:(lia)) as Hcomics.
  destruct (getComicFromDB slug 0 (db w1)) as [r d1]. cbn in Hget, Hcomics.
  subst r. destruct uploaded as [|u us]; [congruence|].
  cbn. auto.
Qed.

Lemma get_comic_then_database_witness :
  ∃ j, body (get_comic a_minute_later (Some "foo"%string)
               (get_comic second_fails (Some "/foo/"%string) empty_world).2).1
       = ComicPayload j
     ∧ cached j = true ∧ length (images j) = 4%nat.
Proof.
  destruct (get_comic_then_database second_fails a_minute_later
              (Some "/foo/"%string) "foo" empty_world five_sources)
    as (H & _).
  - repeat split; vm_compute; reflexivity.
  - vm_compute. discriminate.
  - vm_compute. repeat constructor; discriminate.
  - vm_compute. reflexivity.
  - vm_compute. reflexivity.
  - eexists. split; [|split].
    + vm_compute. reflexivity.
    + reflexivity.
    + reflexivity.
Defined.

Lemma saveComicToDB_frame slug fullUrl imageUrls d s :
  s ≠ slug →
  comics (saveComicToDB slug fullUrl imageUrls 0 d).2 !! s = comics d !! s.
Proof.
  intros Hs. destruct imageUrls as [l|].
  - destruct (List.filter not_null_or_undefined l) as [|v vs] eqn:Hf.
    + now rewrite saveComicToDB_nothing.
    + assert (List.filter not_null_or_undefined l ≠ []) as Hne by congruence.
      destruct (accepts 3 (faults d)) eqn:Hacc.
      * destruct (saveComicToDB_writes 2 slug fullUrl l 0 d ltac:(lia) Hne Hacc)
          as [_ ->].
        now apply lookup_insert_ne.
      * destruct (saveComicToDB_gives_up 2 slug fullUrl l 0 d
                    ltac:(lia) ltac:(lia) Hacc) as [_ ->].
        reflexivity.
  - now rewrite saveComicToDB_nothing.
Qed.

Lemma strip_trailing_slash_empty s :
  strip_trailing_slash s = EmptyString ↔ s = EmptyString ∨ s = "/"%string.
Proof.
  destruct s as [|c [|c' s']]; cbn.
  - split; auto.
  - destruct (Ascii.eqb c "/") eqn:Hc.
    + apply Ascii.eqb_eq in Hc. subst. split; auto.
    + split; [discriminate|]. intros [?|He]; [discriminate|].
      injection He as ->. discriminate.
  - split; [discriminate|]. intros [?|?]; discriminate.
Qed.

Lemma cleanSlug_rejects url :
  cleanSlug url = None
  ↔ url = None ∨ url = Some EmptyString ∨ url = Some "/"%string
    ∨ url = Some "//"%string.
Proof.
  destruct url as [s|]; cbn; [|split; auto].
  case_decide as Hc.
  - split; [intros _|reflexivity].
    apply strip_trailing_slash_empty in Hc.
    destruct s as [|c rest]; [auto|]. cbn in Hc.
    destruct (Ascii.eqb c "/") eqn:Hs.
    + apply Ascii.eqb_eq in Hs. subst c.
      destruct Hc as [->| ->]; auto.
    + destruct Hc as [?|Hc]; [discriminate|].
      injection Hc as -> ->. discriminate.
  - split; [discriminate|].
    intros [?|[H|[H|H]]]; [discriminate| | |];
      injection H as ->; now contradict Hc.
Qed.

(** X8.  What one [/get-comic] request can change.  Rows of other
    slugs and cache entries under other keys are as before; and a
    response other than 200 leaves the whole table and the whole cache
    as they were. *)
Theorem get_comic_frame e url w :
  let r := get_comic e url w in
  (∀ s, cleanSlug url ≠ Some s → comics (db r.2) !! s = comics (db w) !! s)
  ∧ (∀ k, (∀ s, cleanSlug url = Some s → k ≠ String.append "comic-" s) →
          cache r.2 !! k = cache w !! k)
  ∧ (status r.1 ≠ 200 →
     comics (db r.2) = comics (db w) ∧ cache r.2 = cache w).
Proof.
  unfold get_comic. destruct (cleanSlug url) as [slug|]; [|cbn; auto].
  pose proof (getComicFromDB_comics 2 slug 0 (db w) ltac:(lia)) as Hc1.
  destruct (getComicFromDB slug 0 (db w)) as [dbImages d1]. cbn in Hc1.
  assert (∀ resp : Response,
    let r := (resp, with_db w d1) in
    (∀ s, Some slug ≠ Some s → comics (db r.2) !! s = comics (db w) !! s)
    ∧ (∀ k, (∀ s, Some slug = Some s → k ≠ String.append "comic-" s) →
            cache r.2 !! k = cache w !! k)
    ∧ (status r.1 ≠ 200 →
       comics (db r.2) = comics (db w) ∧ cache r.2 = cache w)) as Hsame.
  { intros resp. cbn. rewrite Hc1. auto. }
  destruct dbImages as [[|img imgs]|]; try apply Hsame.
  all: destruct (cache_get _ _ _); try apply Hsame.
  all: destruct (scrape e) as [|srcs|message code]; try apply Hsame.
  all: try (pose proof (getComicFromDB_comics 2 slug 0 d1 ltac:(lia)) as Hc2;
            destruct (getComicFromDB slug 0 d1) as [dbImages' d2];
            cbn in Hc2;
            destruct dbImages' as [[|img' imgs']|]; cbn;
            rewrite Hc2, Hc1; now auto).
  all: cbn; (split; [|split]; [| |congruence]).
  all: try (intros k Hk; unfold cache_set; apply lookup_insert_ne;
            intros He; now apply (Hk slug)).
  all: intros s Hs; assert (s ≠ slug) as Hs' by congruence;
       destruct (upload_batches _ _ _ _);
       [now rewrite Hc1 | rewrite saveComicToDB_frame by exact Hs';
                          now rewrite Hc1].
Qed.

Lemma get_comic_frame_witness :
  comics (db (get_comic second_fails (Some "/foo/"%string) empty_world).2)
    !! "bar"%string
  = comics (db empty_world) !! "bar"%string.
Proof.
  destruct (get_comic_frame second_fails (Some "/foo/"%string) empty_world)
    as [H _].
  apply H. intros Hs. vm_compute in Hs. discriminate.
Defined.

(** X9.  [/get-comic] answers 400 exactly when the [url] parameter is
    absent or one of the strings (empty), [/] and [//], the inputs that
    the two [replace] calls reduce to nothing; the request then sends no
    statement and changes nothing. *)
Theorem get_comic_bad_request e url w :
  (status (get_comic e url w).1 = 400
   ↔ url = None ∨ url = Some EmptyString ∨ url = Some "/"%string
     ∨ url = Some "//"%string)
  ∧ (status (get_comic e url w).1 = 400 → (get_comic e url w).2 = w).
Proof.
  rewrite <- cleanSlug_rejects.
  unfold get_comic. destruct (cleanSlug url) as [slug|]; [|cbn; tauto].
  assert (∀ r : Response * World, status r.1 ≠ 400 →
            (status r.1 = 400 ↔ Some slug = None)
            ∧ (status r.1 = 400 → r.2 = w)) as Hno.
  { intros r Hr. split; [split; [tauto|discriminate]|tauto]. }
  apply Hno.
  destruct (getComicFromDB slug 0 (db w)) as [dbImages d1].
  destruct dbImages as [[|img imgs]|]; cbn; try discriminate.
  all: destruct (cache_get _ _ _); cbn; try discriminate.
  all: destruct (scrape e); cbn; try discriminate.
  all: destruct (getComicFromDB slug 0 d1) as [[[|img' imgs']|] d2]; cbn;
       discriminate.
Qed.

Lemma get_comic_bad_request_witness :
  get_comic second_fails (Some "//"%string) flaky_world
  = ({| status := 400; cache_control := None;
        body := ErrorPayload "Parameter url/slug wajib" None |}, flaky_world).
Proof.
  destruct (get_comic_bad_request second_fails (Some "//"%string) flaky_world)
    as [Hiff Hsame].
  assert (status (get_comic second_fails (Some "//"%string) flaky_world).1
          = 400) as H400 by (apply Hiff; auto).
  specialize (Hsame H400).
  destruct (get_comic second_fails (Some "//"%string) flaky_world)
    as [r w] eqn:Hr.
  cbn in Hsame. subst w. f_equal.
  vm_compute in Hr. injection Hr as <-. reflexivity.
Defined.

End ComicMoreProps.

Module PoolMoreProps.
Import Pool PoolProps PoolMore.
Local Open Scope nat_scope.

Lemma remove_one_cons b x l :
  remove_one b (x :: l) = if decide (x = b) then l else x :: remove_one b l.
Proof.
  unfold remove_one. cbn. case_decide; [reflexivity|].
  now destruct (list_find _ l) as [[i y]|].
Qed.

Lemma remove_one_perm b : ∀ l, b ∈ l → l ≡ₚ b :: remove_one b l.
Proof.
  induction l as [|x l IH]; intros Hin.
  - now apply elem_of_nil in Hin.
  - rewrite remove_one_cons. case_decide as Hx.
    + now subst.
    + apply elem_of_cons in Hin as [->|Hin]; [congruence|].
      rewrite (IH Hin) at 1. apply Permutation_swap.
Qed.

Lemma initBrowserPool_sessions P awaited s :
  sessions (initBrowserPool P awaited s) = sessions s
  ∧ launched (initBrowserPool P awaited s) = launched s.
Proof.
  unfold initBrowserPool, sessions.
  destruct (isPoolInitialized s); [auto|]. now case_decide.
Qed.

Lemma step_exclusive P a s s' :
  step P a s = Some s' → exclusive s → exclusive s'.
Proof.
  unfold exclusive. intros Hstep [Hnd Hlt].
  destruct a as [|k ok| | |b| |]; unfold step in Hstep.
  - injection Hstep as <-.
    destruct (initBrowserPool_sessions P false s) as [-> ->]. auto.
  - unfold launch_settles in Hstep.
    destruct (init_tasks s !! k) as [[i awaited]|]; [|discriminate].
    assert (NoDup ((if ok then browserPool s ++ [launched s] else browserPool s)
                   ++ checked_out s)
            ∧ Forall (λ b, b < (if ok then S (launched s) else launched s))
                ((if ok then browserPool s ++ [launched s] else browserPool s)
                 ++ checked_out s)) as Hgoal.
    { destruct ok; [|auto]. unfold sessions in *.
      rewrite <- app_assoc. cbn. rewrite <- Permutation_middle. split.
      - apply NoDup_cons. split; [|exact Hnd].
        intros Hin. rewrite Forall_forall in Hlt. apply Hlt in Hin. lia.
      - constructor; [lia|].
        eapply Forall_impl; [exact Hlt|]. cbn. lia. }
    case_decide; injection Hstep as <-; exact Hgoal.
  - injection Hstep as <-. unfold getBrowser_call.
    destruct (isPoolInitialized s); [auto|].
    destruct (initBrowserPool_sessions P true s) as [-> ->]. auto.
  - unfold getBrowser_pop in Hstep.
    destruct (polling s) as [|p]; [discriminate|].
    destruct (rev (browserPool s)) as [|b rest] eqn:Hrev; [discriminate|].
    injection Hstep as <-. unfold sessions in *. cbn.
    assert (browserPool s = rev rest ++ [b]) as Hpool.
    { rewrite <- (rev_involutive (browserPool s)), Hrev. reflexivity. }
    rewrite Hpool, <- app_assoc in Hnd, Hlt. auto.
  - case_decide as Hin; [|discriminate]. injection Hstep as <-.
    unfold sessions in *.
    rewrite (remove_one_perm b _ Hin), <- Permutation_middle in Hnd, Hlt.
    apply NoDup_cons in Hnd as [Hb Hnd].
    apply Forall_cons in Hlt as [Hb' Hlt].
    unfold releaseBrowser. case_decide; cbn; [|auto].
    rewrite <- app_assoc. cbn. rewrite <- Permutation_middle. split.
    + apply NoDup_cons. auto.
    + constructor; auto.
  - injection Hstep as <-. auto.
  - injection Hstep as <-. unfold recycle_finish.
    destruct (initBrowserPool_sessions P false
                {| browserPool := []; isPoolInitialized := false;
                   init_tasks := init_tasks s; polling := polling s;
                   checked_out := checked_out s;
                   closed_sessions := closed_sessions s;
                   launched := launched s |}) as [-> ->].
    unfold sessions in *. cbn.
    apply NoDup_app in Hnd as (_ & _ & Hnd).
    apply Forall_app in Hlt as [_ Hlt]. auto.
Qed.

(** X10.  Sessions are handed out exclusively.  In every state the
    server can reach from start-up, for every pool size and every
    interleaving of initialisation, requests, releases and recycles, the
    idle sessions and the sessions held by handlers are pairwise
    distinct: no session is idle and held at once, and none is held by
    two handlers. *)
Theorem sessions_exclusive P : ∀ acts s s',
  exclusive s → run P acts s = Some s' → exclusive s'.
Proof.
  induction acts as [|a acts IH]; intros s s' Hex Hrun; cbn in Hrun.
  - now injection Hrun as <-.
  - destruct (step P a s) as [s1|] eqn:Hstep; [|discriminate].
    eapply IH; [|exact Hrun]. eapply step_exclusive; eauto.
Qed.

Lemma sessions_exclusive_witness :
  ∃ s, run 3 across_recycle startup = Some s ∧ exclusive s.
Proof.
  eexists. split; [vm_compute; reflexivity|].
  apply (sessions_exclusive 3 across_recycle startup).
  - split; [apply NoDup_nil_2 | apply Forall_nil_2].
  - vm_compute. reflexivity.
Defined.

(** X11.  The recycle closes the idle sessions but leaves them in the
    pool until every [close()] has settled; a [getBrowser] served in
    between returns a session on which [close()] has been called. *)
Theorem getBrowser_during_recycle P s :
  0 < polling s → browserPool s ≠ [] →
  ∃ s' b, run P [RecycleBegin; Pop] s = Some s'
        ∧ checked_out s' = b :: checked_out s
        ∧ last (browserPool s) = Some b
        ∧ b ∈ closed_sessions s'.
Proof.
  intros Hpoll Hpool. cbn. unfold getBrowser_pop. cbn.
  destruct (polling s) as [|p]; [lia|].
  destruct (rev (browserPool s)) as [|b rest] eqn:Hrev.
  - apply (f_equal (@rev nat)) in Hrev. rewrite rev_involutive in Hrev.
    now cbn in Hrev.
  - assert (browserPool s = rev rest ++ [b]) as Hp.
    { rewrite <- (rev_involutive (browserPool s)), Hrev. reflexivity. }
    eexists _, b. split; [reflexivity|]. cbn. split; [reflexivity|].
    rewrite Hp. split; [apply last_snoc|].
    apply elem_of_app. left. apply elem_of_app. right. now left.
Qed.

Lemma getBrowser_during_recycle_witness :
  ∃ s' b, run 3 [RecycleBegin; Pop]
            {| browserPool := [0; 1; 2]; isPoolInitialized := true;
               init_tasks := []; polling := 1; checked_out := [];
               closed_sessions := []; launched := 3 |} = Some s'
        ∧ checked_out s' = [b] ∧ b ∈ closed_sessions s'.
Proof.
  destruct (getBrowser_during_recycle 3
              {| browserPool := [0; 1; 2]; isPoolInitialized := true;
                 init_tasks := []; polling := 1; checked_out := [];
                 closed_sessions := []; launched := 3 |})
    as (s' & b & Hrun & Hco & _ & Hin).
  - cbn. lia.
  - discriminate.
  - exists s', b. auto.
Defined.

Lemma launches_fill P : ∀ oks i s,
  i < P → length oks = P - i → init_tasks s = [(i, false)] →
  ∃ s', run P (Launched 0 <$> oks) s = Some s'
      ∧ isPoolInitialized s' = true ∧ init_tasks s' = []
      ∧ browserPool s' = browserPool s ++ seq (launched s) (successes oks)
      ∧ launched s' = launched s + successes oks
      ∧ checked_out s' = checked_out s ∧ polling s' = polling s.
Proof.
  induction oks as [|ok oks IH]; intros i s Hi Hlen Htasks; cbn in Hlen.
  - lia.
  - assert (successes (ok :: oks)
            = (if ok then S (successes oks) else successes oks)) as Hsucc.
    { unfold successes. cbn. now destruct ok. }
    rewrite Hsucc. clear Hsucc.
    cbn [fmap list_fmap run step]. unfold launch_settles. rewrite Htasks. cbn.
    case_decide as Hnext.
    + edestruct (IH (S i)) as (s' & Hrun & Hinit & Ht & Hpool & Hl & Hco & Hp);
        [exact Hnext | lia | | ].
      2:{ exists s'. split; [exact Hrun|]. cbn in Hpool, Hl, Hco, Hp.
          repeat split; try assumption.
          - rewrite Hpool. destruct ok; [|reflexivity].
            rewrite <- app_assoc. reflexivity.
          - rewrite Hl. destruct ok; lia. }
      reflexivity.
    + assert (oks = []) as -> by (destruct oks; [reflexivity|cbn in Hlen; lia]).
      eexists. split; [reflexivity|]. unfold successes. cbn. repeat split.
      * destruct ok; cbn; [reflexivity | now rewrite app_nil_r].
      * destruct ok; lia.
Qed.

(** X12.  [initialize()] at start-up launches [POOL_SIZE] times, one
    after the other, and a failed launch is not tried again: the pool
    ends up initialised with exactly as many idle sessions as launches
    succeeded, in the order of launch. *)
Theorem initialize_pool P oks :
  length oks = P →
  ∃ s, run P (InitCall :: (Launched 0 <$> oks)) startup = Some s
     ∧ isPoolInitialized s = true
     ∧ browserPool s = seq 0 (successes oks)
     ∧ checked_out s = [].
Proof.
  intros Hlen. cbn [run step]. unfold initBrowserPool. cbn.
  case_decide as HP.
  - edestruct (launches_fill P oks 0) as (s & Hrun & Hinit & _ & Hpool & _ & Hco & _);
      [exact HP | lia | | ].
    2:{ exists s. split; [exact Hrun|]. cbn in Hpool, Hco. auto. }
    reflexivity.
  - assert (oks = []) as -> by (destruct oks; [reflexivity|cbn in Hlen; lia]).
    eexists. split; [reflexivity|]. cbn. auto.
Qed.

Lemma initialize_pool_witness :
  ∃ s, run 3 [InitCall; Launched 0 true; Launched 0 false; Launched 0 true]
         startup = Some s
     ∧ isPoolInitialized s = true ∧ browserPool s = [0; 1].
Proof.
  destruct (initialize_pool 3 [true; false; true]) as (s & Hrun & Hi & Hp & _).
  - reflexivity.
  - exists s. auto.
Defined.

End PoolMoreProps.

(** ** Properties of the numbers *)

Module NumberProps.
Import Number.

(** An integer below [2^53] in magnitude is a double: rounding leaves
    it as it is. *)
Lemma round_exact z : - 2 ^ 53 < z < 2 ^ 53 → round z = z.
Proof.
  intros Hz. unfold round.
  destruct (Z.abs z <? 2 ^ 53) eqn:Ha; [reflexivity|].
  apply Z.ltb_ge in Ha. lia.
Qed.

Lemma add_small x y : small x → small y → add x y = x + y.
Proof. unfold small, add. intros Hx Hy. apply round_exact. lia. Qed.

Lemma sub_small x y : small x → small y → sub x y = x - y.
Proof. unfold small, sub. intros Hx Hy. apply round_exact. lia. Qed.

(** From [2^53] on the odd integers are no doubles, and adding 1 to a
    double changes nothing. *)
Lemma add_one_stuck : add (2 ^ 53) 1 = 2 ^ 53 ∧ add (2 ^ 53 + 2) 1 = 2 ^ 53 + 4.
Proof. split; vm_compute; reflexivity. Qed.

End NumberProps.

Module LockMoreProps.
Import Lock LockProps LockMore.

Lemma filter_negb_none {A} (f : A → bool) : ∀ l,
  List.filter f l = [] → List.filter (λ x, negb (f x)) l = l.
Proof.
  induction l as [|x l IH]; intros Hf; [reflexivity|].
  cbn in *. destruct (f x); [discriminate|]. cbn. f_equal. auto.
Qed.

(** X13.  The page range of an accepted [/auto-thumbnail] run, for
    parameters of magnitude below [2^52] (where the arithmetic on
    doubles is exact): it starts at [page] and spans at least one and at
    most ten pages, whatever [maxPages] is: [maxPages] pages when it is
    between 1 and 10, one page when it is smaller, ten when it is
    larger. *)
Theorem thumbnail_page_range q page maxPages now s s' :
  Number.small page → Number.small maxPages →
  auto_thumbnail_start q page maxPages now s = (Started, s') →
  ∃ op, currentThumbnailOperation s' = Some op
      ∧ startPage op = page
      ∧ page ≤ endPage op ≤ page + 9
      ∧ (1 ≤ maxPages ≤ 10 → endPage op = page + maxPages - 1)
      ∧ (maxPages ≤ 1 → endPage op = page)
      ∧ (10 ≤ maxPages → endPage op = page + 9).
Proof.
  intros Hpage Hmax. unfold auto_thumbnail_start.
  destruct (falsy q); [discriminate|].
  destruct (autoThumbnailInProgress s); [discriminate|].
  intros H. injection H as <-. eexists. split; [reflexivity|]. cbn.
  unfold Number.small in *. unfold Number.add, Number.sub.
  rewrite (NumberProps.round_exact (page + maxPages)) by lia.
  rewrite !NumberProps.round_exact by lia.
  repeat split; lia.
Qed.

Lemma thumbnail_page_range_witness :
  ∃ op, currentThumbnailOperation
          (auto_thumbnail_start (Some "isekai"%string) 4 25 1000 idle).2 = Some op
      ∧ startPage op = 4 ∧ endPage op = 13.
Proof.
  destruct (thumbnail_page_range (Some "isekai"%string) 4 25 1000 idle
              (auto_thumbnail_start (Some "isekai"%string) 4 25 1000 idle).2)
    as (op & Hop & Hstart & _ & _ & _ & Hend).
  - unfold Number.small. lia.
  - unfold Number.small. lia.
  - reflexivity.
  - exists op. split; [exact Hop|]. split; [exact Hstart|].
    rewrite Hend; [reflexivity | lia].
Defined.

(** Beyond the exact range the page numbers are rounded: from page
    [2^53] a request for two pages gets a range of one. *)
Lemma thumbnail_page_range_rounded :
  ∃ op, currentThumbnailOperation
          (auto_thumbnail_start (Some "isekai"%string) (2 ^ 53) 2 1000 idle).2
        = Some op
      ∧ startPage op = 2 ^ 53 ∧ endPage op = 2 ^ 53.
Proof. eexists. split; [reflexivity|]. split; vm_compute; reflexivity. Qed.

(** X14.  Taking and releasing a lock is a round trip.  From a state in
    which the flags describe the running jobs, a start request that is
    accepted and the end of the job it started bring every variable
    back to what it was: the lock is free again and the other lock and
    its job are untouched. *)
Theorem lock_round_trip a s s1 :
  consistent s →
  step a s = Some (Some Started, s1) →
  step (job_end a) s1 = Some (None, s).
Proof.
  intros [Hf Ht] Hstep.
  unfold fetch_lock_consistent, fetch_lock_jobs in Hf.
  unfold thumbnail_lock_consistent, thumbnail_jobs in Ht.
  destruct s as [fp fo tp to jobs]. cbn in Hf, Ht.
  destruct a as [file now|q page now|q page maxPages now| |]; cbn in Hstep.
  - unfold auto_json_start in Hstep. cbn in Hstep.
    destruct fp; [discriminate|]. destruct Hf as [-> Hjobs].
    injection Hstep as <-. cbn. unfold releaseLock_fetch. cbn.
    now rewrite (filter_negb_none _ _ Hjobs).
  - unfold auto_fetch_start in Hstep. cbn in Hstep.
    destruct (falsy q); [discriminate|].
    destruct fp; [discriminate|]. destruct Hf as [-> Hjobs].
    injection Hstep as <-. cbn. unfold releaseLock_fetch. cbn.
    now rewrite (filter_negb_none _ _ Hjobs).
  - unfold auto_thumbnail_start in Hstep. cbn in Hstep.
    destruct (falsy q); [discriminate|].
    destruct tp; [discriminate|]. destruct Ht as [-> Hjobs].
    injection Hstep as <-. cbn. unfold releaseLock_thumbnail. cbn.
    now rewrite (filter_negb_none _ _ Hjobs).
  - destruct (existsb _ _); discriminate.
  - destruct (existsb _ _); discriminate.
Qed.

Lemma lock_round_trip_witness :
  step FetchLockJobEnds
    (auto_fetch_start (Some "isekai"%string) 2 1000 idle).2 = Some (None, idle).
Proof.
  apply (lock_round_trip (ReqAutoFetch (Some "isekai"%string) 2 1000) idle).
  - split; split; reflexivity.
  - reflexivity.
Defined.

End LockMoreProps.

Module ManifestMoreProps.
Import Manifest ManifestProps ManifestMore.

Lemma without_ok_positions : ∀ rs l i,
  without_from i (ok_positions_from i rs) l
  = not_ingested rs l ++ drop (length rs) l.
Proof.
  induction rs as [|r rs IH]; intros l i.
  - cbn. apply without_from_nil.
  - destruct l as [|c l]; [reflexivity|].
    cbn [ok_positions_from not_ingested length drop].
    pose proof (ok_positions_from_above rs (S i)) as Habove.
    destruct (is_ok (status r)).
    + cbn [without_from]. rewrite decide_True by now left.
      rewrite without_from_below by lia. apply IH.
    + cbn [without_from]. rewrite decide_False.
      * cbn. f_equal. apply IH.
      * intros Hin. rewrite Forall_forall in Habove.
        apply Habove in Hin. lia.
Qed.

Lemma not_ingested_take : ∀ rs l,
  not_ingested rs (take (length rs) l) = not_ingested rs l.
Proof.
  induction rs as [|r rs IH]; intros [|c l]; cbn; try reflexivity.
  rewrite IH. reflexivity.
Qed.

Lemma promise_all_length : ∀ ss rs,
  promise_all ss = inl rs → length rs = length ss.
Proof.
  induction ss as [|[r|name message] ss IH]; intros rs H; cbn in H.
  - now injection H as <-.
  - destruct (promise_all ss) as [rs'|err]; [|discriminate].
    injection H as <-. cbn. f_equal. now apply IH.
  - discriminate.
Qed.

Lemma process_chunk_length e chunkIndex : ∀ chunk chapterIndex p,
  length (process_chunk e chunkIndex chapterIndex chunk p).1 = length chunk.
Proof.
  induction chunk as [|c chunk IH]; intros chapterIndex p; [reflexivity|].
  cbn. destruct (process_chapter e chunkIndex chapterIndex c p) as [s p1].
  specialize (IH (S chapterIndex) p1).
  destruct (process_chunk e chunkIndex (S chapterIndex) chunk p1) as [ss p2].
  cbn in *. now rewrite IH.
Qed.

(** X15.  The first wave of a pass rewrites the manifest correctly: when
    none of its callbacks throws, there is one result per chapter of the
    wave, and the manifest afterwards is the chapters of the wave whose
    result is not [ok], in their order, followed by the chapters after
    the wave. *)
Theorem first_wave_rewrite e p rs :
  processed p = [] →
  (abort_check e (run p)).1 = false →
  let chunk := take concurrencyLimit (chapters (run p)) in
  promise_all
    (process_chunk e 0 0 chunk (with_run p (abort_check e (run p)).2)).1
    = inl rs →
  ∃ p', chunk_iteration e 0 chunk p = inl p'
      ∧ length rs = length chunk
      ∧ chapters (run p') =
          not_ingested rs chunk ++ drop concurrencyLimit (chapters (run p)).
Proof.
  intros Hproc Hcheck chunk Hall.
  destruct (wave_rewrite e 0 chunk p rs Hproc Hcheck Hall)
    as (p' & Hit & _ & Hch & _).
  pose proof (promise_all_length _ _ Hall) as Hlen.
  rewrite process_chunk_length in Hlen.
  exists p'. split; [exact Hit|]. split; [exact Hlen|].
  rewrite Hch. cbn [Nat.mul]. rewrite without_ok_positions.
  rewrite <- (not_ingested_take rs (chapters (run p))).
  unfold chunk in *. rewrite Hlen, length_take.
  destruct (decide (concurrencyLimit ≤ length (chapters (run p))))%nat.
  - now rewrite Nat.min_l by assumption.
  - rewrite Nat.min_r by lia.
    rewrite firstn_all, !drop_ge by lia.
    now rewrite take_ge by lia.
Qed.

Lemma first_wave_rewrite_witness :
  ∃ p', chunk_iteration some_fail 0 (take 3 seven_chapters)
          {| run := start seven_chapters; processed := []; results := [] |}
        = inl p'
      ∧ chapters (run p')
        = chapter <$> ["ch-2"; "ch-3"; "ch-4"; "ch-5"; "ch-6"; "ch-7"]%string.
Proof.
  destruct (first_wave_rewrite some_fail
              {| run := start seven_chapters; processed := []; results := [] |}
              (match promise_all
                       (process_chunk some_fail 0 0 (take 3 seven_chapters)
                          {| run := start seven_chapters; processed := [];
                             results := [] |}).1 with
               | inl rs => rs
               | inr _ => []
               end)) as (p' & Hit & _ & Hch).
  - reflexivity.
  - reflexivity.
  - vm_compute. reflexivity.
  - exists p'. split; [exact Hit|]. rewrite Hch. vm_compute. reflexivity.
Defined.

Lemma untouched_refl r : untouched r r.
Proof. repeat split. Qed.

Lemma untouched_trans r1 r2 r3 :
  untouched r1 r2 → untouched r2 r3 → untouched r1 r3.
Proof.
  unfold untouched. intros (-> & -> & -> & ->) (-> & -> & -> & ->).
  repeat split.
Qed.

Lemma process_chapter_idle e chunkIndex chapterIndex c p :
  never_succeeds e →
  let p' := (process_chapter e chunkIndex chapterIndex c p).2 in
  untouched (run p) (run p') ∧ processed p' = processed p.
Proof.
  intros Hnever. unfold process_chapter.
  destruct (falsy (slug c)); [split; [apply untouched_refl|reflexivity]|].
  destruct (net e (calls (run p))) as [success images error|name message]
    eqn:Hnet.
  - apply Hnever in Hnet. subst success. cbn. repeat split.
  - destruct (transient name message); cbn; repeat split.
Qed.

Lemma process_chunk_idle e chunkIndex : ∀ chunk chapterIndex p,
  never_succeeds e →
  let p' := (process_chunk e chunkIndex chapterIndex chunk p).2 in
  untouched (run p) (run p') ∧ processed p' = processed p.
Proof.
  induction chunk as [|c chunk IH]; intros chapterIndex p Hnever.
  - split; [apply untouched_refl|reflexivity].
  - cbn.
    pose proof (process_chapter_idle e chunkIndex chapterIndex c p Hnever)
      as [Hu1 Hp1].
    destruct (process_chapter e chunkIndex chapterIndex c p) as [s p1].
    pose proof (IH (S chapterIndex) p1 Hnever) as [Hu2 Hp2].
    destruct (process_chunk e chunkIndex (S chapterIndex) chunk p1) as [ss p2].
    cbn in *. split; [eapply untouched_trans; eauto|congruence].
Qed.

Lemma abort_check_untouched e r : untouched r (abort_check e r).2.
Proof.
  unfold abort_check. destruct (signal_aborted e (checks r)).
  - destruct (chapters r) eqn:Hch; cbn; repeat split; cbn; congruence.
  - repeat split.
Qed.

Lemma chunk_iteration_idle e chunkIndex chunk p :
  never_succeeds e → processed p = [] →
  ∃ p', chunk_iteration e chunkIndex chunk p = inl p'
      ∧ untouched (run p) (run p') ∧ processed p' = [].
Proof.
  intros Hnever Hproc. unfold chunk_iteration.
  pose proof (abort_check_untouched e (run p)) as Hu0.
  destruct (abort_check e (run p)) as [throws r1]. cbn in Hu0.
  destruct throws.
  - eexists. split; [reflexivity|]. auto.
  - pose proof (process_chunk_idle e chunkIndex chunk 0%nat (with_run p r1)
                  Hnever) as [Hu1 Hp1].
    pose proof (process_chunk_threw e chunkIndex chunk 0%nat (with_run p r1))
      as Hthrew.
    destruct (process_chunk e chunkIndex 0 chunk (with_run p r1))
      as [settled p1].
    cbn in Hu1, Hp1, Hthrew. rewrite Hproc in Hp1.
    destruct (promise_all settled) as [rs|[name message]].
    + eexists. split; [reflexivity|].
      unfold rewrite_manifest. cbn. rewrite Hp1. cbn.
      split; [eapply untouched_trans; eauto|reflexivity].
    + unfold catch_chunk. cbn. rewrite (Hthrew name message eq_refl).
      eexists. split; [reflexivity|].
      split; [eapply untouched_trans; eauto|exact Hp1].
Qed.

Lemma chunk_loop_idle e : ∀ chunks chunkIndex p,
  never_succeeds e → processed p = [] →
  ∃ p', chunk_loop e chunkIndex chunks p = inl p'
      ∧ untouched (run p) (run p').
Proof.
  induction chunks as [|chunk chunks IH]; intros chunkIndex p Hnever Hproc.
  - eexists. split; [reflexivity|apply untouched_refl].
  - cbn.
    destruct (chunk_iteration_idle e chunkIndex chunk p Hnever Hproc)
      as (p1 & -> & Hu1 & Hp1).
    destruct (IH (S chunkIndex) p1 Hnever Hp1) as (p2 & -> & Hu2).
    eexists. split; [reflexivity|]. eapply untouched_trans; eauto.
Qed.

(** X16.  [/auto-json] gives up on nothing.  As long as no call of
    [/get-comic] is answered with success, a run over a non-empty
    manifest never responds, however many passes it makes and whatever
    the deadline signal reads: after every pass the manifest, the file
    and the collected results are what they were, and nothing has been
    written. *)
Theorem auto_json_never_gives_up e :
  never_succeeds e →
  ∀ passes r, chapters r ≠ [] →
  ∃ r', main_loop passes e r = StillRunning r' ∧ untouched r r'.
Proof.
  intros Hnever.
  induction passes as [|passes IH]; intros r Hch; cbn;
    destruct (chapters r) as [|c cs] eqn:Hchs; try congruence.
  - eexists. split; [reflexivity|apply untouched_refl].
  - unfold processChapters.
    destruct (chunk_loop_idle e (chunks_from (c :: cs) 0) 0%nat
                {| run := r; processed := []; results := [] |} Hnever eq_refl)
      as (p1 & -> & Hu1).
    cbn in Hu1. pose proof Hu1 as (Hch1 & _). rewrite Hchs in Hch1.
    rewrite Hch1.
    destruct (results p1).
    + destruct (IH (record_event (EvSleep 5000) (run p1))) as (r' & -> & Hu2).
      { cbn. congruence. }
      eexists. split; [reflexivity|].
      eapply untouched_trans; [exact Hu1|].
      eapply untouched_trans; [|exact Hu2]. repeat split.
    + destruct (IH (run p1)) as (r' & -> & Hu2); [congruence|].
      eexists. split; [reflexivity|]. eapply untouched_trans; eauto.
Qed.

Lemma auto_json_never_gives_up_witness :
  ∃ r', main_loop 5 site_down (start four_chapters) = StillRunning r'
      ∧ chapters r' = four_chapters ∧ writes r' = 0%nat.
Proof.
  destruct (auto_json_never_gives_up site_down) with
    (passes := 5%nat) (r := start four_chapters) as (r' & Hrun & Hu).
  - intros k success images error H. discriminate.
  - discriminate.
  - exists r'. split; [exact Hrun|].
    destruct Hu as (Hch & _ & _ & Hw). auto.
Defined.

End ManifestMoreProps.

Module RehostMoreProps.
Import Rehost RehostProps RehostMore.

Lemma up_to_slash_no_slash : ∀ cs,
  Forall (λ c, is_slash c = false) (up_to_slash cs).
Proof.
  induction cs as [|c cs IH]; cbn; [constructor|].
  destruct (is_slash c) eqn:Hc; constructor; auto.
Qed.

Lemma up_to_slash_app : ∀ f rest,
  Forall (λ c, is_slash c = false) f →
  up_to_slash (f ++ "/"%char :: rest) = f.
Proof.
  induction f as [|c f IH]; intros rest Hf; [reflexivity|].
  inversion Hf as [|? ? Hc Hf']; subst. cbn. rewrite Hc. f_equal. auto.
Qed.

Lemma up_to_slash_all : ∀ f,
  Forall (λ c, is_slash c = false) f → up_to_slash f = f.
Proof.
  induction f as [|c f IH]; intros Hf; [reflexivity|].
  inversion Hf as [|? ? Hc Hf']; subst. cbn. rewrite Hc. f_equal. auto.
Qed.

Lemma drop_slashes_head c cs :
  is_slash c = false → drop_slashes (c :: cs) = c :: cs.
Proof. intros Hc. cbn. now rewrite Hc. Qed.

Lemma list_of_append a b :
  String.list_ascii_of_string (String.append a b)
  = String.list_ascii_of_string a ++ String.list_ascii_of_string b.
Proof.
  induction a as [|c a IH]; [reflexivity|].
  change (String.append (String c a) b) with (String c (String.append a b)).
  cbn. now rewrite IH.
Qed.

(** X17.  [path.basename] as [/get] uses it: the name it returns has no
    slash; a non-empty name without slash is its own base name; and the
    base name of [dir/name] is [name], so the directory part of a path
    has no influence on the file name. *)
Theorem basename_of_path :
  (∀ p, no_slash (basename p))
  ∧ (∀ name, no_slash name → basename name = name)
  ∧ (∀ dir name, no_slash name → name ≠ EmptyString →
       basename (String.append dir (String.append "/" name)) = name).
Proof.
  unfold no_slash, basename. split; [|split].
  - intros p. rewrite String.list_ascii_of_string_of_list_ascii.
    apply List.Forall_rev, up_to_slash_no_slash.
  - intros name Hname.
    assert (Forall (λ c, is_slash c = false)
              (rev (String.list_ascii_of_string name))) as Hrev.
    { now apply List.Forall_rev. }
    destruct (rev (String.list_ascii_of_string name)) as [|c cs] eqn:Hr.
    + apply (f_equal (@rev ascii)) in Hr. rewrite rev_involutive in Hr.
      cbn in Hr. rewrite <- (String.string_of_list_ascii_of_string name), Hr.
      reflexivity.
    + inversion Hrev as [|? ? Hc Hcs]; subst.
      rewrite (drop_slashes_head c cs Hc), (up_to_slash_all (c :: cs) Hrev).
      rewrite <- Hr, rev_involutive.
      apply String.string_of_list_ascii_of_string.
  - intros dir name Hname Hne.
    rewrite !list_of_append, !rev_app_distr. cbn [String.list_ascii_of_string rev app].
    assert (Forall (λ c, is_slash c = false)
              (rev (String.list_ascii_of_string name))) as Hrev.
    { now apply List.Forall_rev. }
    destruct (rev (String.list_ascii_of_string name)) as [|c cs] eqn:Hr.
    + apply (f_equal (@rev ascii)) in Hr. rewrite rev_involutive in Hr.
      cbn in Hr. destruct name; [congruence|discriminate].
    + inversion Hrev as [|? ? Hc Hcs]; subst.
      rewrite <- !app_assoc. cbn [app].
      rewrite (drop_slashes_head c _ Hc).
      change (c :: cs ++ "/"%char :: rev (String.list_ascii_of_string dir))
        with ((c :: cs) ++ "/"%char :: rev (String.list_ascii_of_string dir)).
      rewrite (up_to_slash_app (c :: cs) _ Hrev).
      rewrite <- Hr, rev_involutive.
      apply String.string_of_list_ascii_of_string.
Qed.

Lemma basename_of_path_witness :
  basename "/covers/2024/45673.jpg" = "45673.jpg"%string.
Proof.
  destruct basename_of_path as (_ & _ & H).
  apply (H "/covers/2024"%string "45673.jpg"%string).
  - unfold no_slash. vm_compute. repeat constructor.
  - discriminate.
Defined.



End RehostMoreProps.

Module ProxyProps.
Import Proxy.

Section WithDigest.

Variable md5 : string → string.

Lemma try_block_timers e u s :
  rt (try_block md5 e u s).2 = rt s.
Proof.
  unfold try_block.
  destruct (select_cdn_url _ _ _) as [existing st1].
  destruct existing as [|row rows]; [|case_decide]; cbn; try reflexivity.
  all: destruct (fetched e) as [m|status [ct|]]; cbn;
         [reflexivity| |destruct (negb _); reflexivity].
  all: destruct (negb (Fetch.response_ok status)); [reflexivity|].
  all: destruct (negb (String.prefix _ _)); [reflexivity|].
  all: case_decide; [|reflexivity].
  all: destruct (upload e); try reflexivity.
  all: cbn; destruct (hd false _); reflexivity.
Qed.

(** X19.  The 15 s timer of [/proxy].  Every path through the [try]
    block clears it, whatever the reply; the redirect on a memory-cache
    hit returns before the [try] and leaves the timer armed; a request
    without URL creates none. *)
Theorem proxy_timer e imageUrl s :
  Fetch.timers_fresh (rt s) →
  let r := proxy md5 e imageUrl s in
  (memory_hit md5 e imageUrl s →
   Fetch.timers (rt r.2) = {[ Fetch.next_timer (rt s) ]} ∪ Fetch.timers (rt s))
  ∧ (¬ memory_hit md5 e imageUrl s →
     Fetch.timers (rt r.2) = Fetch.timers (rt s)).
Proof.
  intros Hfresh. unfold proxy, memory_hit.
  destruct imageUrl as [u|].
  2:{ cbn. split; [intros (? & ? & ? & _); discriminate|reflexivity]. }
  case_decide as Hu.
  { cbn. split; [|reflexivity].
    intros (u' & cdn & Heq & Hne & _). congruence. }
  cbn.
  destruct (cache_get (t_lookup e) (md5 u) (urls s)) as [c|] eqn:Hget; cbn.
  - case_decide as Hc.
    + cbn. split; [reflexivity|].
      intros Hno. exfalso. apply Hno. exists u, c. auto.
    + pose proof (try_block_timers e u
                    (with_timers s
                       {| Fetch.timers := {[Fetch.next_timer (rt s)]}
                                          ∪ Fetch.timers (rt s);
                          Fetch.next_timer := S (Fetch.next_timer (rt s));
                          Fetch.issued := Fetch.issued (rt s);
                          Fetch.trace := Fetch.trace (rt s) |})) as Hrt.
      destruct (try_block md5 e u _) as [outcome s2]. cbn in Hrt.
      split.
      * intros (u' & cdn & Heq & _ & Hget' & Hcdn).
        injection Heq as <-. rewrite Hget in Hget'.
        injection Hget' as <-. congruence.
      * intros _. destruct outcome; cbn; rewrite Hrt; cbn.
        all: assert (Fetch.next_timer (rt s) ∉ Fetch.timers (rt s))
               by (intros Hin; apply Hfresh in Hin; lia); set_solver.
  - rewrite decide_False by (intros H; now apply H).
    pose proof (try_block_timers e u
                  (with_timers s
                     {| Fetch.timers := {[Fetch.next_timer (rt s)]}
                                        ∪ Fetch.timers (rt s);
                        Fetch.next_timer := S (Fetch.next_timer (rt s));
                        Fetch.issued := Fetch.issued (rt s);
                        Fetch.trace := Fetch.trace (rt s) |})) as Hrt.
    destruct (try_block md5 e u _) as [outcome s2]. cbn in Hrt.
    split.
    + intros (u' & cdn & Heq & _ & Hget' & _).
      injection Heq as <-. congruence.
    + intros _. destruct outcome; cbn; rewrite Hrt; cbn.
      all: assert (Fetch.next_timer (rt s) ∉ Fetch.timers (rt s))
             by (intros Hin; apply Hfresh in Hin; lia); set_solver.
Qed.

Lemma proxy_streams T e u k s :
  u ≠ EmptyString → counted md5 T u k s → 0 ≤ k ≤ 3 →
  image_ok e → within T e →
  ∃ ct s', proxy md5 e (Some u) s = (Streamed ct false, s')
         ∧ counted md5 T u (k + 1) s'
         ∧ events s' = events s ++ [EvFetch u Fetch.urlBase]
         ∧ faults (store s') = tl (faults (store s)).
Proof.
  intros Hu (Hurl & Hrow & Hcount) Hk (status & ct & Hf & Hok & Himg)
    (Hst & Hlk & Hct).
  unfold proxy. rewrite decide_False by exact Hu. cbn.
  assert (cache_get (t_lookup e) (md5 u) (urls s) = None) as ->
    by (unfold cache_get; now rewrite Hurl).
  cbn. rewrite decide_False by (intros H; now apply H).
  unfold try_block, select_cdn_url, send. cbn. rewrite Hrow.
  assert ((if hd false (faults (store s))
           then ([] : list Rehost.ThumbnailRow,
                 {| thumbnails := thumbnails (store s);
                    statements := statements (store s) ++
                                  [SelectCdnUrl (fileName md5 u) u];
                    faults := tl (faults (store s)) |})
           else ([],
                 {| thumbnails := thumbnails (store s);
                    statements := statements (store s) ++
                                  [SelectCdnUrl (fileName md5 u) u];
                    faults := tl (faults (store s)) |}))
          = ([],
             {| thumbnails := thumbnails (store s);
                statements := statements (store s) ++
                              [SelectCdnUrl (fileName md5 u) u];
                faults := tl (faults (store s)) |})) as ->
    by now destruct (hd false (faults (store s))).
  cbn. rewrite Hf, Hok. cbn. rewrite Himg. cbn.
  assert (default 0 (cache_get (t_count e) (md5 u) (counts s)) = k) as ->.
  { unfold cache_get. case_decide as Hk0.
    - rewrite Hcount. cbn. lia.
    - destruct Hcount as (expires & -> & Hexp).
      rewrite decide_False by lia. reflexivity. }
  rewrite decide_False by lia.
  eexists _, _. split; [reflexivity|]. cbn.
  split; [|split; reflexivity].
  unfold counted. cbn. split; [exact Hurl|]. split; [exact Hrow|].
  rewrite decide_False by lia.
  eexists. unfold cache_set. rewrite lookup_insert_eq.
  split; [reflexivity|lia].
Qed.

Lemma proxy_promotes T e u k s cdn :
  u ≠ EmptyString → counted md5 T u k s → 3 < k →
  image_ok e → within T e → upload e = Uploaded cdn →
  hd false (tl (faults (store s))) = false →
  ∃ s', proxy md5 e (Some u) s = (Redirect cdn, s')
      ∧ urls s' !! md5 u = Some (cdn, t_store e + Comic.stdTTL * 1000)
      ∧ thumbnails (store s') !! fileName md5 u
        = Some {| Rehost.source_url := u; Rehost.cdn_url := cdn |}
      ∧ events s' = events s ++ [EvFetch u Fetch.urlBase;
                                  EvUpload (String.append "proxy/"
                                              (fileName md5 u))].
Proof.
  intros Hu (Hurl & Hrow & Hcount) Hk (status & ct & Hf & Hok & Himg)
    (Hst & Hlk & Hct) Hup Hins.
  unfold proxy. rewrite decide_False by exact Hu. cbn.
  assert (cache_get (t_lookup e) (md5 u) (urls s) = None) as ->
    by (unfold cache_get; now rewrite Hurl).
  cbn. rewrite decide_False by (intros H; now apply H).
  unfold try_block, select_cdn_url, send. cbn. rewrite Hrow.
  assert ((if hd false (faults (store s))
           then ([] : list Rehost.ThumbnailRow,
                 {| thumbnails := thumbnails (store s);
                    statements := statements (store s) ++
                                  [SelectCdnUrl (fileName md5 u) u];
                    faults := tl (faults (store s)) |})
           else ([],
                 {| thumbnails := thumbnails (store s);
                    statements := statements (store s) ++
                                  [SelectCdnUrl (fileName md5 u) u];
                    faults := tl (faults (store s)) |}))
          = ([],
             {| thumbnails := thumbnails (store s);
                statements := statements (store s) ++
                              [SelectCdnUrl (fileName md5 u) u];
                faults := tl (faults (store s)) |})) as ->
    by now destruct (hd false (faults (store s))).
  cbn. rewrite Hf, Hok. cbn. rewrite Himg. cbn.
  assert (default 0 (cache_get (t_count e) (md5 u) (counts s)) = k) as ->.
  { unfold cache_get. rewrite decide_False in Hcount by lia.
    destruct Hcount as (expires & -> & Hexp).
    rewrite decide_False by lia. reflexivity. }
  rewrite decide_True by lia. rewrite Hup. cbn. rewrite Hins.
  eexists. split; [reflexivity|]. cbn.
  unfold cache_set, upsert_thumbnail. cbn.
  rewrite !lookup_insert_eq, Hrow, <- app_assoc. auto.
Qed.

Lemma proxy_memory_hit e u s cdn expires :
  u ≠ EmptyString → cdn ≠ EmptyString →
  urls s !! md5 u = Some (cdn, expires) → t_lookup e ≤ expires →
  ∃ s', proxy md5 e (Some u) s = (Redirect cdn, s')
      ∧ store s' = store s ∧ events s' = events s ∧ urls s' = urls s.
Proof.
  intros Hu Hcdn Hurl Hexp.
  unfold proxy. rewrite decide_False by exact Hu. cbn.
  assert (cache_get (t_lookup e) (md5 u) (urls s) = Some cdn) as ->
    by (unfold cache_get; rewrite Hurl; now rewrite decide_False by lia).
  cbn. rewrite decide_True by exact Hcdn.
  eexists. split; [reflexivity|]. auto.
Qed.

(** X20.  Promotion of a proxied image.  For a URL of which nothing is
    cached or stored, and requests that all fall within one cache
    lifetime and find an image at the source: the first four requests
    stream the image and upload nothing; the fifth uploads it, stores
    its row and redirects to the CDN; the sixth is redirected from the
    memory cache without a request to the source.  A failing [SELECT]
    counts as a miss; only the [INSERT] must be accepted. *)
Theorem proxy_promotion T u es e5 e6 s cdn :
  u ≠ EmptyString → cdn ≠ EmptyString →
  unknown md5 u s →
  length es = 4%nat →
  Forall (λ e, image_ok e ∧ within T e) (es ++ [e5]) →
  within T e6 →
  upload e5 = Uploaded cdn →
  hd false (drop 5 (faults (store s))) = false →
  ∃ cts s',
    length cts = 4%nat
    ∧ serve md5 (es ++ [e5; e6]) u s
      = (((λ ct, Streamed ct false) <$> cts) ++ [Redirect cdn; Redirect cdn],
         s')
    ∧ thumbnails (store s') !! fileName md5 u
      = Some {| Rehost.source_url := u; Rehost.cdn_url := cdn |}
    ∧ events s'
      = events s ++ replicate 5 (EvFetch u Fetch.urlBase)
        ++ [EvUpload (String.append "proxy/" (fileName md5 u))].
Proof.
  intros Hu Hcdn (Hurl & Hcnt & Hrow) Hlen Hall Hw6 Hup Hins.
  destruct es as [|e1 [|e2 [|e3 [|e4 [|? ?]]]]]; try discriminate.
  cbn [app] in Hall.
  apply Forall_cons in Hall as [[Hi1 Hw1] Hall].
  apply Forall_cons in Hall as [[Hi2 Hw2] Hall].
  apply Forall_cons in Hall as [[Hi3 Hw3] Hall].
  apply Forall_cons in Hall as [[Hi4 Hw4] Hall].
  apply Forall_cons in Hall as [[Hi5 Hw5] _].
  assert (counted md5 T u 0 s) as H0 by (repeat split; assumption).
  destruct (proxy_streams T e1 u 0 s Hu H0 ltac:(lia) Hi1 Hw1)
    as (ct1 & s1 & Hp1 & H1 & Hev1 & Hf1).
  destruct (proxy_streams T e2 u 1 s1 Hu H1 ltac:(lia) Hi2 Hw2)
    as (ct2 & s2 & Hp2 & H2 & Hev2 & Hf2).
  destruct (proxy_streams T e3 u 2 s2 Hu H2 ltac:(lia) Hi3 Hw3)
    as (ct3 & s3 & Hp3 & H3 & Hev3 & Hf3).
  destruct (proxy_streams T e4 u 3 s3 Hu H3 ltac:(lia) Hi4 Hw4)
    as (ct4 & s4 & Hp4 & H4 & Hev4 & Hf4).
  assert (hd false (tl (faults (store s4))) = false) as Hins4.
  { rewrite Hf4, Hf3, Hf2, Hf1.
    destruct (faults (store s)) as [|? [|? [|? [|? [|? ?]]]]]; auto. }
  destruct (proxy_promotes T e5 u 4 s4 cdn Hu H4 ltac:(lia) Hi5 Hw5 Hup Hins4)
    as (s5 & Hp5 & Hurl5 & Hrow5 & Hev5).
  destruct Hw5 as (Hst5 & _). destruct Hw6 as (_ & Hlk6 & _).
  destruct (proxy_memory_hit e6 u s5 cdn _ Hu Hcdn Hurl5 ltac:(lia))
    as (s6 & Hp6 & Hstore6 & Hev6 & _).
  exists [ct1; ct2; ct3; ct4], s6.
  split; [reflexivity|].
  cbn [app serve]. rewrite Hp1, Hp2, Hp3, Hp4, Hp5, Hp6. cbn.
  split; [reflexivity|]. rewrite Hstore6. split; [exact Hrow5|].
  rewrite Hev6, Hev5, Hev4, Hev3, Hev2, Hev1.
  rewrite <- !app_assoc. reflexivity.
Qed.

(** X21.  An error reply of [/proxy] changes nothing that lasts.  It
    is given only after the one request to the source, before any
    upload; the cache entries and the table are as they were; and the
    status is 504 exactly when [fetch] rejected with a message that
    contains [aborted], else 500: a missing image at the source is
    reported as 500, whatever its status there. *)
Theorem proxy_failure e imageUrl s code err s' :
  proxy md5 e imageUrl s = (Failed code err, s') →
  urls s' = urls s ∧ counts s' = counts s
  ∧ thumbnails (store s') = thumbnails (store s)
  ∧ (∃ u, imageUrl = Some u
        ∧ events s' = events s ++ [EvFetch u Fetch.urlBase])
  ∧ code = (match fetched e with
            | FetchRejects m =>
                if Manifest.includes "aborted" m then 504 else 500
            | FetchResponse _ _ => 500
            end).
Proof.
  unfold proxy. destruct imageUrl as [u|]; [|discriminate].
  case_decide; [discriminate|]. cbn.
  case_decide; [discriminate|].
  unfold try_block, select_cdn_url, send. cbn.
  destruct (hd false (faults (store s))).
  - cbn. destruct (fetched e) as [m|status [ct|]]; cbn.
    + intros Heq. injection Heq as <- <- <-. cbn. eauto 10.
    + destruct (negb (Fetch.response_ok status)); cbn.
      { intros Heq. injection Heq as <- <- <-. cbn. eauto 10. }
      destruct (negb (String.prefix "image/" ct)); cbn.
      { intros Heq. injection Heq as <- <- <-. cbn. eauto 10. }
      case_decide; [|discriminate].
      destruct (upload e); cbn; try discriminate.
      destruct (hd false (tl (faults (store s)))); discriminate.
    + destruct (negb (Fetch.response_ok status)); cbn;
        intros Heq; injection Heq as <- <- <-; cbn; eauto 10.
  - destruct (thumbnails (store s) !! fileName md5 u) as [row|] eqn:Hrow.
    1: case_decide; [case_decide; [|discriminate]|].
    all: cbn; destruct (fetched e) as [m|status [ct|]]; cbn;
      try (intros Heq; injection Heq as <- <- <-; cbn; now eauto 10);
      destruct (negb (Fetch.response_ok status)); cbn;
      try (intros Heq; injection Heq as <- <- <-; cbn; now eauto 10);
      destruct (negb (String.prefix "image/" ct)); cbn;
      try (intros Heq; injection Heq as <- <- <-; cbn; now eauto 10);
      (case_decide; [|discriminate]);
      destruct (upload e); cbn; try discriminate;
      destruct (hd false (tl (faults (store s)))); discriminate.
Qed.

End WithDigest.

Lemma proxy_failure_witness :
  (proxy toy_digest (aborted_at 0) (Some page_image) start).1
  = Failed 504 (FetchFailed "The user aborted a request.").
Proof.
  destruct (proxy toy_digest (aborted_at 0) (Some page_image) start)
    as [reply s'] eqn:Hp.
  assert (∃ code err, reply = Failed code err) as (code & err & ->).
  { vm_compute in Hp. injection Hp as <- _. eauto. }
  destruct (proxy_failure toy_digest _ _ _ _ _ _ Hp) as (_ & _ & _ & _ & Hcode).
  vm_compute in Hcode. subst code.
  vm_compute in Hp. injection Hp as <- _. reflexivity.
Defined.

Lemma proxy_timer_witness :
  Fetch.timers (rt (proxy toy_digest (image_at 0) (Some page_image) start).2)
  = Fetch.timers (rt start).
Proof.
  destruct (proxy_timer toy_digest (image_at 0) (Some page_image) start)
    as [_ H].
  - intros t Ht. now apply elem_of_empty in Ht.
  - apply H. intros (u & cdn & _ & _ & Hget & _).
    vm_compute in Hget. discriminate.
Defined.

Lemma proxy_promotion_witness :
  ∃ s', (serve toy_digest (image_at <$> [0; 10; 20; 30; 40; 50]) page_image
           start).2 = s'
      ∧ thumbnails (store s') !! fileName toy_digest page_image
        = Some {| Rehost.source_url := page_image;
                  Rehost.cdn_url := "https://cdn.example/proxy/1.jpg" |}.
Proof.
  destruct (proxy_promotion toy_digest 0 page_image
              (image_at <$> [0; 10; 20; 30]) (image_at 40) (image_at 50)
              start "https://cdn.example/proxy/1.jpg")
    as (cts & s' & _ & Hserve & Hrow & _).
  - discriminate.
  - discriminate.
  - repeat split; reflexivity.
  - reflexivity.
  - repeat constructor; try (vm_compute; congruence);
      exists 200, "image/jpeg"%string; repeat split; reflexivity.
  - repeat split; vm_compute; congruence.
  - reflexivity.
  - reflexivity.
  - exists s'. split; [|exact Hrow].
    change (image_at <$> [0; 10; 20; 30; 40; 50])
      with ((image_at <$> [0; 10; 20; 30]) ++ [image_at 40; image_at 50]).
    now rewrite Hserve.
Defined.

End ProxyProps.

Module ListingProps.
Import Listing.

Lemma isValidUrl_digits p :
  isValidUrl (targetUrl p)
  = digits (String.list_ascii_of_string p ++ ["/"%char])
      (λ s, match_at (Chr "/") s
              (λ rest, match rest with [] => true | _ => false end)).
Proof.
  unfold isValidUrl, test_anchored, targetUrl.
  rewrite !RehostMoreProps.list_of_append. cbn.
  now rewrite !orb_false_r.
Qed.

Lemma digits_then_slash : ∀ p,
  digits (p ++ ["/"%char])
    (λ s, match_at (Chr "/") s
            (λ rest, match rest with [] => true | _ => false end)) = true
  ↔ p ≠ [] ∧ forallb is_digit p = true.
Proof.
  induction p as [|c p IH].
  - cbn. split; [discriminate|]. now intros [? _].
  - cbn [app digits forallb]. rewrite andb_true_iff, orb_true_iff, IH.
    split.
    + intros [Hc [[_ Hp]|Hk]]; (split; [discriminate|]);
        rewrite Hc; cbn; [exact Hp|].
      destruct p as [|x [|y p]]; [reflexivity| |]; cbn in Hk.
      * now rewrite andb_false_r in Hk.
      * now rewrite andb_false_r in Hk.
    + intros [_ H]. apply andb_true_iff in H as [Hc Hp].
      split; [exact Hc|].
      destruct p as [|x p]; [right; reflexivity|].
      left. split; [discriminate|exact Hp].
Qed.

(** X22.  The URL check of [/doujin].  The address built from the
    [page] parameter passes the regular expression exactly when the
    parameter is a non-empty string of decimal digits; an absent or
    empty parameter stands for page 1; and the handler answers 400, and
    touches neither cache nor browser, exactly when the check fails. *)
Theorem doujin_page_check e page c :
  (∀ p, isValidUrl (targetUrl p) = true ↔ page_number p)
  ∧ ((doujin e page c).1.1 = BadRequest400
     ↔ ¬ page_number (Lock.param_or page "1"))
  ∧ ((doujin e page c).1.1 = BadRequest400 →
     (doujin e page c).1.2 = c ∧ (doujin e page c).2 = []).
Proof.
  assert (∀ p, isValidUrl (targetUrl p) = true ↔ page_number p) as Hvalid.
  { intros p. rewrite isValidUrl_digits, digits_then_slash.
    unfold page_number. split; intros [Hne Hd]; (split; [|exact Hd]).
    - intros ->. now apply Hne.
    - intros Hnil. apply Hne.
      rewrite <- (String.string_of_list_ascii_of_string p), Hnil.
      reflexivity. }
  split; [exact Hvalid|].
  unfold doujin.
  destruct (isValidUrl (targetUrl (Lock.param_or page "1"))) eqn:Hv; cbn.
  - apply Hvalid in Hv.
    assert (∀ r : Reply * Cache * list Event, r.1.1 ≠ BadRequest400 →
              (r.1.1 = BadRequest400 ↔ ¬ page_number (Lock.param_or page "1"))
              ∧ (r.1.1 = BadRequest400 → r.1.2 = c ∧ r.2 = [])) as Hno.
    { intros r Hr. split; [split|]; tauto. }
    apply Hno.
    destruct (Proxy.cache_get _ _ c) as [[results total]|]; cbn;
      [discriminate|].
    destruct (scrape e); cbn; discriminate.
  - split; [|auto]. split; [|reflexivity].
    intros _ Hp. apply Hvalid in Hp. congruence.
Qed.

Lemma doujin_page_check_witness :
  (doujin first_visit (Some "12a"%string) ∅).1.1 = BadRequest400.
Proof.
  destruct (doujin_page_check first_visit (Some "12a"%string) ∅)
    as (_ & H & _).
  apply H. intros [_ Hd]. vm_compute in Hd. discriminate.
Defined.

(** X23.  The page count read from the pagination is at least 1, at
    least every label that parses as a number, and it is 1 or one of
    those labels: labels that do not parse, and labels below 1, are
    ignored. *)
Theorem totalPages_max labels :
  1 ≤ totalPages labels
  ∧ (∀ num, Some num ∈ labels → num ≤ totalPages labels)
  ∧ (totalPages labels = 1 ∨ Some (totalPages labels) ∈ labels).
Proof.
  unfold totalPages.
  assert (∀ ls init,
            let f := λ (max : Z) (label : option Z),
                       match label with
                       | Some num => if decide (max < num) then num else max
                       | None => max
                       end in
            init ≤ foldl f init ls
            ∧ (∀ num, Some num ∈ ls → num ≤ foldl f init ls)
            ∧ (foldl f init ls = init ∨ Some (foldl f init ls) ∈ ls)) as H.
  { induction ls as [|l ls IH]; intros init f.
    - cbn. split; [lia|]. split; [|now left].
      intros num Hin. now apply elem_of_nil in Hin.
    - cbn [foldl]. destruct (IH (f init l)) as (Hge & Hall & Hor).
      fold f in Hge, Hall, Hor.
      assert (init ≤ f init l) as Hinit.
      { unfold f. destruct l; [case_decide|]; lia. }
      split; [lia|]. split.
      + intros num Hin. apply elem_of_cons in Hin as [<-|Hin].
        * assert (num ≤ f init (Some num)) by (unfold f; case_decide; lia).
          lia.
        * now apply Hall.
      + destruct Hor as [Heq|Hin].
        * rewrite Heq. unfold f. destruct l as [num|]; [|now left].
          case_decide; [right; now left | now left].
        * right. now right. }
  destruct (H labels 1) as (H1 & H2 & H3). auto.
Qed.

Lemma totalPages_max_witness :
  37 ≤ totalPages [Some 1; None; Some 37; Some 5].
Proof.
  destruct (totalPages_max [Some 1; None; Some 37; Some 5]) as (_ & H & _).
  apply H. set_solver.
Defined.

(** X24.  The listing cache.  A page scraped afresh is answered with
    [source: 'fresh'] and remembered with its page count; a later
    request for the same page within the cache lifetime (an absent
    [page] parameter is page 1) gets the same data and page count with
    [source: 'cache'], without a browser and without consulting the
    site, and leaves the cache as it is. *)
Theorem doujin_fresh_then_cache e1 e2 page page' c results labels :
  page_number (Lock.param_or page "1") →
  Lock.param_or page' "1" = Lock.param_or page "1" →
  Proxy.cache_get (now_get e1)
    (String.append "doujin_page_" (Lock.param_or page "1")) c = None →
  scrape e1 = Scraped results labels →
  now_get e2 ≤ now_set e1 + Comic.stdTTL * 1000 →
  let r1 := doujin e1 page c in
  r1.1.1 = Success results (totalPages labels) "fresh"
             (Some "public, max-age=600"%string)
  ∧ r1.2 = [EvGetBrowser; EvReleaseBrowser]
  ∧ doujin e2 page' r1.1.2
    = (Success results (totalPages labels) "cache" None, r1.1.2, []).
Proof.
  intros Hpage Hsame Hmiss Hscrape Hlater.
  destruct (doujin_page_check e1 page c) as (Hvalid & _ & _).
  apply Hvalid in Hpage.
  unfold doujin. rewrite Hsame, Hpage, Hmiss, Hscrape. cbn.
  split; [reflexivity|]. split; [reflexivity|].
  unfold Proxy.cache_get, Proxy.cache_set.
  rewrite lookup_insert_eq, decide_False by lia. reflexivity.
Qed.

Lemma doujin_fresh_then_cache_witness :
  (doujin later_visit None (doujin first_visit (Some "1"%string) ∅).1.2).1.1
  = Success two_entries 37 "cache" None.
Proof.
  destruct (doujin_fresh_then_cache first_visit later_visit
              (Some "1"%string) None ∅ two_entries
              [Some 1; None; Some 37; Some 5]) as (_ & _ & H).
  - split; [discriminate|reflexivity].
  - reflexivity.
  - reflexivity.
  - reflexivity.
  - vm_compute. discriminate.
  - exact (f_equal (λ r : Reply * Cache * list Event, r.1.1) H).
Defined.

End ListingProps.

Module RateLimitProps.
Import RateLimit.

Lemma requests_in_window ip : ∀ times st k R,
  st !! ip = Some {| count := k; resetTime := R |} →
  Forall (λ t, t ≤ R) times →
  (requests ip times st).1
  = imap (λ i _, if decide (k + Z.of_nat i < 60) then Next else TooMany429)
      times
  ∧ (requests ip times st).2 !! ip
    = Some {| count := k + Z.of_nat (length times); resetTime := R |}.
Proof.
  induction times as [|t times IH]; intros st k R Hst Hall.
  - cbn. rewrite Z.add_0_r. auto.
  - apply Forall_cons in Hall as [Ht Hall].
    cbn [requests]. unfold middleware. rewrite Hst. cbn.
    rewrite decide_False by lia.
    specialize (IH (<[ip := {| count := k + 1; resetTime := R |}]> st)
                  (k + 1) R (lookup_insert_eq _ _ _) Hall).
    destruct (requests ip times _) as [vs st2]. cbn in IH.
    destruct IH as [Hv Hs]. cbn. rewrite Hv, Hs. split.
    + f_equal.
      * rewrite Z.add_0_r.
        destruct (decide (60 < k + 1)), (decide (k < 60)); auto; lia.
      * apply imap_ext. intros i t' _. cbn.
        destruct (decide (k + 1 + Z.of_nat i < 60)),
                 (decide (k + Z.of_nat (S i) < 60)); auto; lia.
    + do 2 f_equal. lia.
Qed.

(** X25.  One window of the rate limiter.  For a client without a
    running window, the request that opens the window and the
    fifty-nine that follow it within 60 s pass; every further request
    within those 60 s is answered 429 (and still counted); the time of
    the window is fixed by its first request. *)
Theorem rate_limit_window ip t0 times st :
  no_window ip t0 st →
  Forall (λ t, t ≤ t0 + 60000) times →
  (requests ip (t0 :: times) st).1 = imap (λ i _, nth_verdict i) (t0 :: times)
  ∧ (requests ip (t0 :: times) st).2 !! ip
    = Some {| count := 1 + Z.of_nat (length times);
              resetTime := t0 + 60000 |}.
Proof.
  intros Hno Hall. cbn [requests].
  assert (middleware ip t0 st
          = (Next, <[ip := {| count := 1; resetTime := t0 + 60000 |}]> st))
    as ->.
  { unfold middleware, no_window in *.
    destruct (st !! ip) as [entry|]; [|reflexivity].
    now rewrite decide_True by exact Hno. }
  pose proof (requests_in_window ip times
                (<[ip := {| count := 1; resetTime := t0 + 60000 |}]> st)
                1 (t0 + 60000) (lookup_insert_eq _ _ _) Hall) as [Hv Hst].
  destruct (requests ip times _) as [vs st2]. cbn in Hv, Hst. cbn.
  rewrite Hv, Hst. split; [|reflexivity].
  f_equal. apply imap_ext. intros i t _. cbn. unfold nth_verdict.
  destruct (decide (1 + Z.of_nat i < 60)), (decide (S i < 60)%nat);
    auto; lia.
Qed.

Lemma rate_limit_window_witness :
  (requests "203.0.113.7" burst ∅).1
  = replicate 60 Next ++ [TooMany429; TooMany429].
Proof.
  destruct (rate_limit_window "203.0.113.7" 5000
              ((λ i : nat, 5000 + 100 * Z.of_nat i) <$> seq 1 61) ∅)
    as [H _].
  - exact I.
  - apply (bool_decide_unpack _). vm_compute. exact I.
  - change burst with
      (5000 :: ((λ i : nat, 5000 + 100 * Z.of_nat i) <$> seq 1 61)).
    rewrite H. vm_compute. reflexivity.
Defined.

Lemma cleanup_lookup now' st ip :
  cleanup now' st !! ip
  = match st !! ip with
    | Some entry => if decide (resetTime entry < now') then None else Some entry
    | None => None
    end.
Proof.
  unfold cleanup, State in *.
  rewrite (map_lookup_filter (M := gmap string) (A := Entry)).
  destruct (st !! ip) as [entry|]; [|reflexivity]. cbn.
  case_guard as Hg; case_decide; cbn in *; try reflexivity; tauto.
Qed.

(** X26.  The clean-up and the other clients cannot be observed.  A
    clean-up that ran at any earlier time changes neither the verdict
    for a request nor the entry the request leaves for its client; and
    a request touches no entry but its client's. *)
Theorem rate_limit_cleanup ip now now' st :
  now' ≤ now →
  (middleware ip now (cleanup now' st)).1 = (middleware ip now st).1
  ∧ (middleware ip now (cleanup now' st)).2 !! ip
    = (middleware ip now st).2 !! ip
  ∧ (∀ other, other ≠ ip → (middleware ip now st).2 !! other = st !! other).
Proof.
  intros Hle.
  assert (∀ other, other ≠ ip → (middleware ip now st).2 !! other = st !! other)
    as Hframe.
  { intros other Hne. unfold middleware.
    destruct (st !! ip) as [entry|]; [case_decide|]; cbn;
      now apply lookup_insert_ne. }
  split; [|split; [|exact Hframe]].
  all: unfold middleware; rewrite cleanup_lookup.
  all: unfold State in *.
  all: destruct (st !! ip) as [entry|]; [|cbn; now rewrite ?lookup_insert_eq].
  all: destruct (decide (resetTime entry < now')) as [Hold|Hnew].
  all: try (rewrite (decide_True (P := resetTime entry < now)) by lia; cbn;
            now rewrite ?lookup_insert_eq).
  all: destruct (decide (resetTime entry < now)); cbn;
       now rewrite ?lookup_insert_eq.
Qed.

Lemma rate_limit_cleanup_witness :
  (middleware "203.0.113.7" 70000
     (cleanup 66000 (requests "203.0.113.7" burst ∅).2)).1 = Next.
Proof.
  destruct (rate_limit_cleanup "203.0.113.7" 70000 66000
              (requests "203.0.113.7" burst ∅).2) as [H _].
  - lia.
  - rewrite H. vm_compute. reflexivity.
Defined.

End RateLimitProps.

Module AutoFetchProps.
Import AutoFetch.
Local Open Scope nat_scope.

Lemma map_set_elem k v k' v' : ∀ m,
  NoDup m.*1 →
  (k', v') ∈ map_set k v m ↔ (k' = k ∧ v' = v) ∨ (k' ≠ k ∧ (k', v') ∈ m).
Proof.
  induction m as [|[k0 v0] m IH]; intros Hnd; cbn.
  - split.
    + intros Hin. apply list_elem_of_singleton in Hin.
      injection Hin as -> ->. now left.
    + intros [[-> ->]|[_ Hin]]; [now left|].
      now apply elem_of_nil in Hin.
  - cbn in Hnd. apply NoDup_cons in Hnd as [Hk0 Hnd].
    destruct (decide (k0 = k)) as [->|Hk].
    + rewrite !elem_of_cons. split.
      * intros [Heq|Hin]; [injection Heq as -> ->; now left|].
        right. split; [|now right].
        intros ->. apply Hk0. apply list_elem_of_fmap. now exists (k, v').
      * intros [[-> ->]|[Hne [Heq|Hin]]]; [now left| |now right].
        injection Heq as -> _. congruence.
    + rewrite !elem_of_cons, (IH Hnd). split.
      * intros [Heq|[H|[Hne Hin]]]; auto.
        injection Heq as -> ->. right. split; [congruence|now left].
      * intros [H|[Hne [Heq|Hin]]]; auto.
Qed.

Lemma map_set_keys k v : ∀ m,
  (map_set k v m).*1 = if decide (k ∈ m.*1) then m.*1 else m.*1 ++ [k].
Proof.
  induction m as [|[k0 v0] m IH]; cbn.
  - rewrite decide_False; [reflexivity|]. apply not_elem_of_nil.
  - destruct (decide (k0 = k)) as [->|Hk].
    + cbn. rewrite decide_True by now left. reflexivity.
    + cbn. rewrite IH. destruct (decide (k ∈ m.*1)) as [Hin|Hout].
      * rewrite decide_True by now right. reflexivity.
      * rewrite decide_False; [reflexivity|].
        intros Hin. apply elem_of_cons in Hin as [->|Hin]; auto.
Qed.

Lemma map_set_NoDup k v m : NoDup m.*1 → NoDup (map_set k v m).*1.
Proof.
  intros Hnd. rewrite map_set_keys. case_decide as Hk; [exact Hnd|].
  apply NoDup_app. split; [exact Hnd|]. split.
  - intros x Hx Hin. apply list_elem_of_singleton in Hin. now subst.
  - apply NoDup_singleton.
Qed.

Lemma last_with_snoc k items x :
  last_with k (items ++ [x])
  = if decide (link x = k) then Some x else last_with k items.
Proof.
  unfold last_with. rewrite List.filter_app. cbn.
  case_decide as Hk.
  - rewrite bool_decide_eq_true_2 by exact Hk. apply last_snoc.
  - rewrite bool_decide_eq_false_2 by exact Hk. now rewrite app_nil_r.
Qed.

(** The [Map] built from a list of results holds, under each link, the
    last result with that link. *)
Lemma unique_map items :
  let m := foldl (λ m item, map_set (link item) item m) [] items in
  NoDup m.*1 ∧ ∀ k v, (k, v) ∈ m ↔ last_with k items = Some v.
Proof.
  induction items as [|x items IH] using rev_ind.
  - cbn. split; [apply NoDup_nil_2|].
    intros k v. split; [intros H; now apply elem_of_nil in H|discriminate].
  - rewrite foldl_app. cbn. destruct IH as [Hnd Hin].
    split; [now apply map_set_NoDup|].
    intros k v. rewrite (map_set_elem _ _ _ _ _ Hnd), last_with_snoc, Hin.
    case_decide as Hk.
    + split; [|intros [= ->]; now left].
      intros [[-> ->]|[Hne _]]; [reflexivity|congruence].
    + split; [|intros H; right; split; [congruence|exact H]].
      intros [[-> _]|[_ H]]; [congruence|exact H].
Qed.

Lemma last_with_elem k items v :
  last_with k items = Some v → v ∈ items ∧ link v = k.
Proof.
  unfold last_with. intros Hlast.
  assert (v ∈ List.filter (λ item, bool_decide (link item = k)) items) as Hin.
  { apply last_Some in Hlast as [l' ->]. apply elem_of_app. right. now left. }
  apply list_elem_of_In, List.filter_In in Hin as [Hin Hk].
  split; [now apply list_elem_of_In|].
  now apply bool_decide_eq_true_1 in Hk.
Qed.

Lemma last_with_some k items :
  k ∈ link <$> items → ∃ v, last_with k items = Some v.
Proof.
  intros Hin. apply list_elem_of_fmap in Hin as (x & -> & Hx).
  unfold last_with.
  destruct (last (List.filter (λ item, bool_decide (link item = link x)) items))
    as [v|] eqn:Hlast; [eauto|].
  apply last_None in Hlast.
  assert (x ∈ List.filter (λ item, bool_decide (link item = link x)) items)
    as Hx'.
  { apply list_elem_of_In, List.filter_In. split; [now apply list_elem_of_In|].
    now apply bool_decide_eq_true_2. }
  rewrite Hlast in Hx'. now apply elem_of_nil in Hx'.
Qed.

(** X27.  The de-duplication of the search results by link.  The
    results kept have pairwise different links; every link of the
    search results is kept; and the result kept for a link is the last
    one with that link, not the first. *)
Theorem uniqueResults_last allResults :
  NoDup (link <$> uniqueResults allResults)
  ∧ (∀ k, k ∈ link <$> uniqueResults allResults ↔ k ∈ link <$> allResults)
  ∧ (∀ v, v ∈ uniqueResults allResults
          ↔ last_with (link v) allResults = Some v).
Proof.
  destruct (unique_map allResults) as [Hnd Hin]. unfold uniqueResults.
  set (m := foldl (λ m item, map_set (link item) item m) [] allResults) in *.
  assert (∀ v, v ∈ m.*2 ↔ last_with (link v) allResults = Some v) as Helem.
  { intros v. rewrite list_elem_of_fmap. split.
    - intros ([k v'] & -> & Hkv). cbn.
      pose proof (proj1 (Hin k v') Hkv) as Hlast.
      destruct (last_with_elem _ _ _ Hlast) as [_ Hk]. now rewrite Hk.
    - intros Hlast. exists (link v, v). split; [reflexivity|].
      now apply Hin. }
  assert (link <$> m.*2 = m.*1) as Hkeys.
  { rewrite <- list_fmap_compose. apply list_fmap_ext.
    intros i [k v] Hi. cbn.
    assert ((k, v) ∈ m) as Hkv by (eapply list_elem_of_lookup_2; eauto).
    apply Hin in Hkv. now destruct (last_with_elem _ _ _ Hkv). }
  split; [now rewrite Hkeys|]. split; [|exact Helem].
  intros k. rewrite Hkeys. split.
  - intros Hk. apply list_elem_of_fmap in Hk as ([k' v] & -> & Hkv). cbn.
    apply Hin in Hkv. destruct (last_with_elem _ _ _ Hkv) as [Hv <-].
    apply list_elem_of_fmap. eauto.
  - intros Hk. destruct (last_with_some _ _ Hk) as [v Hv].
    apply Hin in Hv. apply list_elem_of_fmap. now exists (k, v).
Qed.

Lemma uniqueResults_last_witness :
  uniqueResults four_items
  = [item "A again" "https://doujindesu.tv/manga/a/";
     item "B" "https://doujindesu.tv/manga/b/";
     item "C" "https://doujindesu.tv/manga/c/"]
  ∧ item "A again" "https://doujindesu.tv/manga/a/" ∈ uniqueResults four_items.
Proof.
  split; [reflexivity|].
  destruct (uniqueResults_last four_items) as (_ & _ & H).
  apply H. reflexivity.
Defined.

Lemma slices_spec {A} step (l : list A) : ∀ n i,
  length l - i ≤ n →
  concat (slices step l i) = drop i l
  ∧ ∀ j, j < length (slices step l i) ↔ i + j * S step < length l.
Proof.
  induction n as [|n IH]; intros i Hn; rewrite slices_equation_1.
  - rewrite decide_False by lia. cbn. rewrite drop_ge by lia.
    split; [reflexivity|]. intros j. split; [lia|nia].
  - destruct (decide (i < length l)) as [Hi|Hi].
    + destruct (IH (i + S step) ltac:(lia)) as [Hcat Hlen].
      cbn [concat length]. rewrite Hcat. split.
      * rewrite <- drop_drop. apply take_drop.
      * intros [|j]; [cbn; split; lia|].
        rewrite <- Nat.succ_lt_mono, Hlen. cbn. lia.
    + cbn. rewrite drop_ge by lia.
      split; [reflexivity|]. intros j. split; [lia|nia].
Qed.







End AutoFetchProps.

Module AutoThumbnailProps.
Import AutoThumbnail.


Lemma thumbnail_result_original p url o :
  originalThumbnail (thumbnail_result p url o) = url.
Proof.
  unfold thumbnail_result. destruct o as [c|name message]; [|reflexivity].
  now destruct (truthy c).
Qed.

Lemma chunk_results_original (e : Env) it p : ∀ chunk i,
  originalThumbnail <$>
    imap (λ index url, thumbnail_result p url (get_of e it (i + index)%nat)) chunk
  = chunk.
Proof.
  induction chunk as [|url chunk IH]; intros i; [reflexivity|].
  cbn. rewrite thumbnail_result_original. f_equal.
  rewrite <- (IH (S i)) at 2. f_equal. apply imap_ext.
  intros j x _. cbn. do 2 f_equal. lia.
Qed.

Lemma chunk_loop_all e it p : ∀ chunks k i results,
  (∀ j, chunk_aborted e it j = false) →
  ∃ rs, chunk_loop e it p k i chunks results = Some (results ++ rs)
      ∧ originalThumbnail <$> rs = concat chunks.
Proof.
  induction chunks as [|chunk chunks IH]; intros k i results Hok.
  - exists []. cbn. now rewrite app_nil_r.
  - cbn [chunk_loop]. rewrite Hok.
    edestruct (IH (S k) (i + length chunk)%nat) as (rs & -> & Hrs);
      [exact Hok|].
    eexists (_ ++ rs). rewrite app_assoc. split; [reflexivity|].
    rewrite fmap_app, chunk_results_original, Hrs. reflexivity.
Qed.

Lemma page_body_undisturbed e it p :
  undisturbed e it →
  ∃ rs, page_body e it p = Some rs
      ∧ originalThumbnail <$> rs = page_thumbnails e it.
Proof.
  intros (_ & Hchunks & Hsearch). unfold page_body, page_thumbnails.
  destruct (search_of e it) as [sd|name message].
  - destruct (thumbnails_of sd) as [|t ts] eqn:Hths.
    + exists []. auto.
    + unfold processThumbnails.
      destruct (chunk_loop_all e it p
                  (AutoFetch.slices 2 (set_values (t :: ts)) 0) 0 0 [] Hchunks)
        as (rs & -> & Hrs).
      exists rs. split; [reflexivity|]. rewrite Hrs.
      destruct (AutoFetchProps.slices_spec 2 (set_values (t :: ts))
                  (length (set_values (t :: ts))) 0 ltac:(lia)) as [Hcat _].
      now rewrite Hcat, drop_0.
  - rewrite (Hsearch name message eq_refl). exists []. auto.
Qed.


(** The page loop that is stopped in its iteration [it + m]. *)
Lemma page_loop_stops e : ∀ m fuel it cur endPage acc proc,
  (m < fuel)%nat →
  - 2 ^ 52 < cur → endPage < 2 ^ 52 →
  cur + Z.of_nat m ≤ endPage →
  (∀ i, (i < m)%nat → undisturbed e (it + i)%nat) →
  stopped_in e (it + m)%nat (cur + Z.of_nat m) →
  ∃ rs, page_loop e fuel it cur endPage acc proc
        = Aborted (acc ++ rs) (cur + Z.of_nat m)
      ∧ originalThumbnail <$> rs
        = concat (page_thumbnails e <$> seq it m).
Proof.
  induction m as [|m IH]; intros fuel it cur endPage acc proc Hfuel Hlo Hhi Hm
    Hok Hstop; (destruct fuel as [|fuel]; [lia|]); cbn [page_loop];
    rewrite decide_True by lia.
  - rewrite Nat.add_0_r, Z.add_0_r in *. exists []. rewrite app_nil_r.
    split; [|reflexivity].
    destruct Hstop as [->| ->]; [reflexivity|].
    now destruct (page_aborted e it).
  - pose proof (Hok 0%nat ltac:(lia)) as H0.
    rewrite Nat.add_0_r in H0. pose proof H0 as (-> & _).
    destruct (page_body_undisturbed e it cur H0) as (rs0 & -> & Hrs0).
    assert (Number.add cur 1 = cur + 1) as ->
      by (apply NumberProps.round_exact; lia).
    destruct (IH fuel (S it) (cur + 1) endPage (acc ++ rs0) cur)
      as (rs & -> & Hrs); [lia|lia|lia|lia| | |].
    { intros i Hi. replace (S it + i)%nat with (it + S i)%nat by lia.
      apply Hok. lia. }
    { replace (S it + m)%nat with (it + S m)%nat by lia.
      now replace (cur + 1 + Z.of_nat m) with (cur + Z.of_nat (S m)) by lia. }
    exists (rs0 ++ rs). rewrite app_assoc. split.
    + f_equal. lia.
    + cbn [seq fmap list_fmap concat]. now rewrite fmap_app, Hrs0, Hrs.
Qed.


(** The page counter is a double: from page [2^53] the increment does
    not advance it, and a run that nothing stops never leaves the page
    loop. *)
Lemma page_loop_stuck fuel :
  auto_thumbnail nothing_found fuel (2 ^ 53) (2 ^ 53) = None.
Proof.
  unfold auto_thumbnail.
  assert (∀ fuel it acc proc,
            page_loop nothing_found fuel it (2 ^ 53) (2 ^ 53) acc proc
            = StillLooping) as H.
  { clear fuel. induction fuel as [|fuel IH]; intros it acc proc.
    - reflexivity.
    - cbn [page_loop]. rewrite decide_True by lia.
      change (page_aborted nothing_found it) with false. cbv iota.
      change (page_body nothing_found it (2 ^ 53)) with (Some (@nil Result)).
      cbv iota.
      change (Number.add (2 ^ 53) 1) with (2 ^ 53). apply IH. }
  now rewrite H.
Qed.



(** X30.  A run of [/auto-thumbnail] that the deadline stops in
    iteration [m] of the page loop, at the top of the page or inside
    it, over a page range in which the arithmetic on doubles is exact.
    It answers 202; the page on which it stopped counts as processed
    ([m + 1] pages); and the results are those of the [m] pages before
    it only: what was done for the chunks of the page before the abort
    was seen is not reported. *)
Theorem auto_thumbnail_partial e fuel startPage endPage m :
  Number.small startPage → Number.small endPage →
  startPage + Z.of_nat m ≤ endPage →
  (m < fuel)%nat →
  (∀ it, (it < m)%nat → undisturbed e it) →
  stopped_in e m (startPage + Z.of_nat m) →
  ∃ report,
    auto_thumbnail e fuel startPage endPage = Some (Partial202 report)
    ∧ processedPages report = Z.of_nat m + 1
    ∧ originalThumbnail <$> thumbnails report
      = concat (page_thumbnails e <$> seq 0 m).
Proof.
  intros Hs He Hm Hfuel Hok Hstop. unfold Number.small in *.
  unfold auto_thumbnail.
  destruct (page_loop_stops e m fuel 0 startPage endPage [] 0)
    as (rs & -> & Hrs); [exact Hfuel|lia|lia|exact Hm|exact Hok|exact Hstop|].
  cbn [app]. eexists. split; [reflexivity|]. cbn.
  unfold Number.add, Number.sub.
  rewrite (NumberProps.round_exact (startPage + Z.of_nat m - startPage)) by lia.
  rewrite NumberProps.round_exact by lia.
  split; [lia|exact Hrs].
Qed.

Lemma auto_thumbnail_partial_witness :
  ∃ report,
    auto_thumbnail stopped_on_second_page 3 2 4 = Some (Partial202 report)
    ∧ processedPages report = 2
    ∧ originalThumbnail <$> thumbnails report
      = ["https://t.example/0.jpg"%string].
Proof.
  destruct (auto_thumbnail_partial stopped_on_second_page 3 2 4 1)
    as (report & Hrun & Hp & Hths).
  - unfold Number.small. lia.
  - unfold Number.small. lia.
  - lia.
  - lia.
  - intros it Hit. assert (it = 0%nat) as -> by lia.
    repeat split. intros name message Hs. discriminate.
  - left. reflexivity.
  - exists report. split; [exact Hrun|]. split; [exact Hp|].
    rewrite Hths. vm_compute. reflexivity.
Defined.

End AutoThumbnailProps.
